(** * gifdec: a shallow embedding of [gifdec.c] and its verified properties

    The development follows the C source function by function.  Machine
    integers are [Z] with the wrap-around of their C type written out,
    the input file is a list of bytes with a read offset, the decoder
    object [gd_GIF] is a record threaded through every function, and
    the LZW code table is a finite map from indices to entries (a slot
    that was never written has no binding).

    Wherever the C program has no defined result (an uninitialised
    variable is used, an array is accessed out of bounds, an [int]
    overflows, a null pointer is dereferenced) the model is [Stuck];
    loops that the C program may run forever take fuel and answer
    [OutOfFuel] when it is used up. *)

From Stdlib Require Import ZArith Lia List Bool String.
From Stdlib Require Strings.Byte.
From stdpp Require Import base option list gmap.

Local Open Scope Z_scope.

(** ** Results of a C computation *)

Inductive fault : Set :=
| UninitRead     (* the value of an uninitialised object is used *)
| OutOfBounds    (* an array index outside the allocated object *)
| DivByZero      (* [/] or [%] by zero *)
| IntOverflow    (* signed arithmetic or shift out of range of [int] *)
| NullDeref.     (* access through a null pointer *)

Inductive res (A : Type) : Type :=
| Ok (a : A)
| Stuck (f : fault)
| OutOfFuel.

Arguments Ok {A} a.
Arguments Stuck {A} f.
Arguments OutOfFuel {A}.

#[global] Instance res_ret : MRet res := fun _ a => Ok a.
#[global] Instance res_bind : MBind res := fun _ _ f m =>
  match m with
  | Ok a => f a
  | Stuck e => Stuck e
  | OutOfFuel => OutOfFuel
  end.

(** An object that may still be uninitialised; using it is a fault. *)
Definition use {A} (o : option A) : res A :=
  match o with
  | Some a => Ok a
  | None => Stuck UninitRead
  end.

(** ** C integer types *)

Definition INT_MAX : Z := 2147483647.

Definition u8 (z : Z) : Z := z mod 256.
Definition u16 (z : Z) : Z := z mod 65536.

(** The value of an [int] expression: defined when it fits. *)
Definition int (z : Z) : res Z :=
  if (- INT_MAX - 1 <=? z) && (z <=? INT_MAX) then Ok z else Stuck IntOverflow.

(** [a << n] on [int], for a non-negative [a]. *)
Definition shl (a n : Z) : res Z :=
  if (0 <=? n) && (n <? 32) then int (Z.shiftl a n) else Stuck IntOverflow.

Definition MIN (a b : Z) : Z := if a <? b then a else b.
Definition MAX (a b : Z) : Z := if a >? b then a else b.

Definition Z_of_byte (b : Byte.byte) : Z := Z.of_N (Byte.to_N b).

Definition byte_of_Z (z : Z) : Byte.byte :=
  match Byte.of_N (Z.to_N (u8 z)) with
  | Some b => b
  | None => Byte.x00
  end.

(** ** The file descriptor: contents and offset *)

Record File : Type := mkFile {
  data : list Byte.byte;
  pos : nat
}.

(** [read(fd, buf, n)]: the bytes obtained (fewer than [n] at the end
    of the file) and the file with its offset advanced past them. *)
Definition read (f : File) (n : nat) : list Z * File :=
  let bs := take n (drop (pos f) (data f)) in
  (Z_of_byte <$> bs, mkFile (data f) (pos f + length bs)).

(** [lseek(fd, n, SEEK_CUR)] *)
Definition lseek (f : File) (n : Z) : File :=
  mkFile (data f) (pos f + Z.to_nat n).

(** [read(fd, &v, 1)] into an object [v] that may be uninitialised
    ([None]): at the end of the file nothing is stored. *)
Definition read1 (f : File) (old : option Z) : option Z * File :=
  match read f 1 with
  | (b :: _, f') => (Some b, f')
  | ([], f') => (old, f')
  end.

(** [read(fd, &v, 1)] into an object that holds the value [old]. *)
Definition read1_into (f : File) (old : Z) : Z * File :=
  match read f 1 with
  | (b :: _, f') => (b, f')
  | ([], f') => (old, f')
  end.

(** ** The decoder object

    Modelled from the spec: [gifdec.h], which declares [gd_Palette],
    [gd_GCE] and [gd_GIF], is not among the sources.  The fields are
    those [gifdec.c] accesses; the palette is the spec's sequence of up
    to 256 RGB triplets (a [size] and [0x100 * 3] colour bytes), the
    frame raster the [width * height] bytes allocated behind the
    structure. *)

Module gd_Palette.
Record t : Type := mk {
  size : Z;
  colors : list Z
}.
Definition zero : t := mk 0 (replicate 768 0).
End gd_Palette.

Record gd_GCE : Type := mkGCE {
  delay : Z;
  tindex : Z;
  disposal : Z;
  input : Z;
  transparency : Z
}.

(** [gif->palette] points at one of the two palettes of the object
    (or nowhere, in a freshly zeroed object). *)
Inductive palette_ptr : Set := palette_null | palette_gct | palette_lct.

Record gd_GIF : Type := mkGIF {
  fd : File;
  width : Z;
  height : Z;
  loop_count : Z;
  gce : gd_GCE;
  palette : palette_ptr;
  lct : gd_Palette.t;
  gct : gd_Palette.t;
  frame : list Z;
  (* the trace of stores [gif->frame[i] = v], latest first; not a
     field of the C structure *)
  stores : list (Z * Z)
}.

Definition set_fd (g : gd_GIF) (f : File) : gd_GIF :=
  mkGIF f (width g) (height g) (loop_count g) (gce g) (palette g)
        (lct g) (gct g) (frame g) (stores g).
Definition set_loop_count (g : gd_GIF) (n : Z) : gd_GIF :=
  mkGIF (fd g) (width g) (height g) n (gce g) (palette g)
        (lct g) (gct g) (frame g) (stores g).
Definition set_gce (g : gd_GIF) (c : gd_GCE) : gd_GIF :=
  mkGIF (fd g) (width g) (height g) (loop_count g) c (palette g)
        (lct g) (gct g) (frame g) (stores g).
Definition set_palette (g : gd_GIF) (p : palette_ptr) : gd_GIF :=
  mkGIF (fd g) (width g) (height g) (loop_count g) (gce g) p
        (lct g) (gct g) (frame g) (stores g).
Definition set_lct (g : gd_GIF) (p : gd_Palette.t) : gd_GIF :=
  mkGIF (fd g) (width g) (height g) (loop_count g) (gce g) (palette g)
        p (gct g) (frame g) (stores g).
Definition set_gct (g : gd_GIF) (p : gd_Palette.t) : gd_GIF :=
  mkGIF (fd g) (width g) (height g) (loop_count g) (gce g) (palette g)
        (lct g) p (frame g) (stores g).

(** [gif->frame[i] = v] *)
Definition store_frame (g : gd_GIF) (i v : Z) : res gd_GIF :=
  if (0 <=? i) && (i <? Z.of_nat (length (frame g))) then
    Ok (mkGIF (fd g) (width g) (height g) (loop_count g) (gce g) (palette g)
              (lct g) (gct g) (<[Z.to_nat i := v]> (frame g))
              ((i, v) :: stores g))
  else Stuck OutOfBounds.

(** ** [read_num] *)

Definition read_num (f : File) : res (Z * File) :=
  match read f 2 with
  | ([b0; b1], f') => Ok (u16 (b0 + Z.shiftl (u16 b1) 8), f')
  | _ => Stuck UninitRead
  end.

(** ** Extensions *)

(** [discard_sub_blocks]: the [do ... while (size)] loop; [size] is
    uninitialised before the first [read] and keeps its last value
    when a later [read] is at the end of the file. *)
Fixpoint discard_loop (fuel : nat) (f : File) (size : option Z) : res File :=
  match fuel with
  | O => OutOfFuel
  | S fuel =>
      let '(size, f) := read1 f size in
      size ← use size;
      let f := lseek f size in
      if size =? 0 then Ok f else discard_loop fuel f (Some size)
  end.

Definition discard_sub_blocks (fuel : nat) (gif : gd_GIF) : res gd_GIF :=
  f ← discard_loop fuel (fd gif) None;
  Ok (set_fd gif f).

(** [read_plain_text_ext] (ignored extension) *)
Definition read_plain_text_ext (fuel : nat) (gif : gd_GIF) : res gd_GIF :=
  (* Discard plain text metadata. *)
  let gif := set_fd gif (lseek (fd gif) 13) in
  (* Discard plain text sub-blocks. *)
  discard_sub_blocks fuel gif.

(** [read_graphic_control_ext] *)
Definition read_graphic_control_ext (gif : gd_GIF) : res gd_GIF :=
  (* Discard block size (always 0x04). *)
  let f := lseek (fd gif) 1 in
  let '(rdit, f) := read1 f None in
  rdit ← use rdit;
  let disposal' := Z.land (Z.shiftr rdit 2) 3 in
  let input' := Z.land rdit 2 in
  let transparency' := Z.land rdit 1 in
  '(delay', f) ← read_num f;
  let '(tindex', f) := read1_into f (tindex (gce gif)) in
  (* Skip block terminator. *)
  let f := lseek f 1 in
  Ok (set_fd (set_gce gif (mkGCE delay' tindex' disposal' input' transparency')) f).

(** [read_comment_ext] (ignored extension) *)
Definition read_comment_ext (fuel : nat) (gif : gd_GIF) : res gd_GIF :=
  discard_sub_blocks fuel gif.

(** The bytes of ["NETSCAPE"]. *)
Definition NETSCAPE : list Z := [78; 69; 84; 83; 67; 65; 80; 69].

(** [read_application_ext] *)
Definition read_application_ext (fuel : nat) (gif : gd_GIF) : res gd_GIF :=
  (* Discard block size (always 0x0B). *)
  let f := lseek (fd gif) 1 in
  (* Application Identifier. *)
  let '(app_id, f) := read f 8 in
  (* Application Authentication Code. *)
  let '(_, f) := read f 3 in
  if (length app_id <? 8)%nat then Stuck UninitRead
  else if bool_decide (app_id = NETSCAPE) then
    (* Discard block size (0x03) and constant byte (0x01). *)
    let f := lseek f 2 in
    '(n, f) ← read_num f;
    (* Skip block terminator. *)
    let f := lseek f 1 in
    Ok (set_fd (set_loop_count gif n) f)
  else discard_sub_blocks fuel (set_fd gif f).

(** [read_ext] *)
Definition read_ext (fuel : nat) (gif : gd_GIF) : res gd_GIF :=
  let '(label, f) := read1 (fd gif) None in
  label ← use label;
  let gif := set_fd gif f in
  if label =? 0x01 then read_plain_text_ext fuel gif
  else if label =? 0xF9 then read_graphic_control_ext gif
  else if label =? 0xFE then read_comment_ext fuel gif
  else if label =? 0xFF then read_application_ext fuel gif
  else Ok gif.

(** ** The LZW code table *)

Module Entry.
Record t : Type := mk {
  length : Z;   (* uint16_t *)
  prefix : Z;   (* uint16_t *)
  suffix : Z    (* uint8_t *)
}.
End Entry.

(** [entries] is the array behind the structure: [bulk] slots, of
    which those never assigned are unbound. *)
Record Table : Type := mkTable {
  bulk : Z;
  nentries : Z;
  entries : gmap Z Entry.t
}.

(** [table->entries[i]], read as a whole [Entry]. *)
Definition table_get (table : Table) (i : Z) : res Entry.t :=
  if (0 <=? i) && (i <? bulk table) then use (entries table !! i)
  else Stuck OutOfBounds.

(** [table->entries[i] = e] *)
Definition table_set (table : Table) (i : Z) (e : Entry.t) : res Table :=
  if (0 <=? i) && (i <? bulk table) then
    Ok (mkTable (bulk table) (nentries table) (<[i := e]> (entries table)))
  else Stuck OutOfBounds.

(** [table->entries[i].suffix = v].  On a slot whose other fields
    were never assigned the slot stays unbound: its [length] and
    [prefix] are still indeterminate, and every read of a slot uses
    them. *)
Definition table_set_suffix (table : Table) (i : Z) (v : Z) : res Table :=
  if (0 <=? i) && (i <? bulk table) then
    match entries table !! i with
    | Some e =>
        Ok (mkTable (bulk table) (nentries table)
              (<[i := Entry.mk (Entry.length e) (Entry.prefix e) v]>
                 (entries table)))
    | None => Ok table
    end
  else Stuck OutOfBounds.

Definition set_nentries (table : Table) (n : Z) : Table :=
  mkTable (bulk table) n (entries table).

(** The [for] loop of [new_table]:
    [entries[key] = (Entry) {1, 0xFFF, key}] for [key] below [n]. *)
Fixpoint literals (n : nat) : gmap Z Entry.t :=
  match n with
  | O => ∅
  | S n => <[Z.of_nat n := Entry.mk 1 0xFFF (u8 (Z.of_nat n))]> (literals n)
  end.

Section Decoder.

(** Whether the allocator grants a request: for [malloc] and
    [realloc] of a code table the number of entries asked for, for
    the [calloc] of the decoder object the number of raster bytes. *)
Variable alloc_ok : Z → bool.

(** [new_table]; [None] is the null pointer of a failed [malloc]. *)
Definition new_table (key_size : Z) : res (option Table) :=
  a ← shl 1 (key_size + 1);
  let init_bulk := MAX a 0x100 in
  if alloc_ok init_bulk then
    n ← shl 1 key_size;
    Ok (Some (mkTable init_bulk (n + 2) (literals (Z.to_nat n))))
  else Ok None.

(** The tail of [add_entry], once the table has room. *)
Definition add_entry_store (table : Table) (length prefix suffix : Z)
  : res (Z * Table) :=
  table ← table_set table (nentries table)
            (Entry.mk (u16 length) (u16 prefix) (u8 suffix));
  n ← int (nentries table + 1);
  let table := set_nentries table n in
  if Z.land n (n - 1) =? 0 then Ok (1, table) else Ok (0, table).

(** [add_entry]: the return value and the table behind [*tablep]. *)
Definition add_entry (table : Table) (length prefix suffix : Z)
  : res (Z * Table) :=
  if nentries table =? bulk table then
    b ← int (bulk table * 2);
    let table := mkTable b (nentries table) (entries table) in
    if alloc_ok b then add_entry_store table length prefix suffix
    else Ok (-1, table)
  else add_entry_store table length prefix suffix.

(** ** [get_key] *)

(** The three objects [get_key] updates through its pointer
    arguments: [*sub_len], [*shift] and [*byte]. *)
Record BitSource : Type := mkBits {
  sub_len : Z;   (* uint8_t *)
  shift : Z;     (* uint8_t *)
  byte : Z       (* uint8_t *)
}.

(** "Update byte": a length byte when the sub-block is used up, then
    one data byte.  Both objects hold a value already, which a [read]
    at the end of the file leaves in place. *)
Definition update_byte (f : File) (b : BitSource) : BitSource * File :=
  let '(len, f) :=
    if sub_len b =? 0 then read1_into f (sub_len b) (* Must be nonzero! *)
    else (sub_len b, f) in
  let '(byt, f) := read1_into f (byte b) in
  (mkBits (u8 (len - 1)) (shift b) byt, f).

(** The [for] loop of [get_key], entered with [bits_read] and [key]. *)
Fixpoint get_key_loop (fuel : nat) (f : File) (key_size : Z) (b : BitSource)
    (bits_read key : Z) : res (Z * BitSource * File) :=
  if bits_read <? key_size then
    match fuel with
    | O => OutOfFuel
    | S fuel =>
        let rpad := Z.rem (shift b + bits_read) 8 in
        let '(b, f) := if rpad =? 0 then update_byte f b else (b, f) in
        let frag_size := MIN (key_size - bits_read) (8 - rpad) in
        v ← shl (u16 (Z.shiftr (byte b) rpad)) bits_read;
        get_key_loop fuel f key_size b (bits_read + frag_size)
          (u16 (Z.lor key v))
    end
  else Ok (key, b, f).

Definition get_key (f : File) (key_size : Z) (b : BitSource)
  : res (Z * BitSource * File) :=
  '(key, b, f) ← get_key_loop (Z.to_nat key_size) f key_size b 0 0;
  (* Clear extra bits to the left. *)
  m ← shl 1 key_size;
  let key := u16 (Z.land key (m - 1)) in
  Ok (key, mkBits (sub_len b) (u8 (Z.rem (shift b + key_size) 8)) (byte b), f).

(** ** [read_image_data] *)

(** The locals of [read_image_data] that change inside its loop.
    [table_is_full], [str_len] and [entry] start uninitialised;
    [table] is the pointer returned by [new_table], null ([None])
    when the allocation failed. *)
Record Lzw : Type := mkLzw {
  bits : BitSource;
  key_size : Z;
  table_is_full : option bool;
  frm_off : Z;
  str_len : option Z;
  key : Z;
  ret : Z;
  table : option Table;
  entry : option Entry.t
}.

Definition deref {A} (p : option A) : res A :=
  match p with
  | Some a => Ok a
  | None => Stuck NullDeref
  end.

(** The index [(y + p / w) * gif->width + x + p % w]; [/] and [%] of
    C truncate towards zero. *)
Definition pixel_index (gif_width x y w p : Z) : Z :=
  (y + Z.quot p w) * gif_width + x + Z.rem p w.

(** The inner [while (1)]: the string of [entry] is written from its
    last pixel to its first; the value is [entry] as the loop leaves
    it. *)
Fixpoint emit (fuel : nat) (gif : gd_GIF) (table : Table)
    (x y w frm_off : Z) (entry : Entry.t) : res (Entry.t * gd_GIF) :=
  match fuel with
  | O => OutOfFuel
  | S fuel =>
      p ← int (frm_off + Entry.length entry - 1);
      if w =? 0 then Stuck DivByZero
      else
        i ← int (pixel_index (width gif) x y w p);
        gif ← store_frame gif i (Entry.suffix entry);
        if Entry.prefix entry =? 0xFFF then Ok (entry, gif)
        else
          entry ← table_get table (Entry.prefix entry);
          emit fuel gif table x y w frm_off entry
  end.

(** The head of the outer loop, up to the next [get_key]: the reset
    on a clear code, or else the addition of an entry.  [None] is
    [return -1]. *)
Definition lzw_top (init_key_size clear : Z) (s : Lzw) : res (option Lzw) :=
  if key s =? clear then
    t ← deref (table s);
    n ← shl 1 (init_key_size - 1);
    Ok (Some (mkLzw (bits s) init_key_size (Some false) (frm_off s)
                (str_len s) (key s) (ret s)
                (Some (set_nentries t (n + 2))) (entry s)))
  else
    full ← use (table_is_full s);
    if negb full then
      l ← use (str_len s);
      e ← use (entry s);
      t ← deref (table s);
      '(r, t) ← add_entry t (l + 1) (key s) (Entry.suffix e);
      if r =? -1 then Ok None
      else if nentries t =? 0x1000 then
        Ok (Some (mkLzw (bits s) (key_size s) (Some true) (frm_off s)
                    (str_len s) (key s) 0 (Some t) (entry s)))
      else
        Ok (Some (mkLzw (bits s) (key_size s) (table_is_full s) (frm_off s)
                    (str_len s) (key s) r (Some t) (entry s)))
    else Ok (Some s).

(** How one turn of the outer loop ends. *)
Inductive flow : Type :=
| Continue (s : Lzw) (gif : gd_GIF)   (* back to the head of the loop *)
| Break (s : Lzw) (gif : gd_GIF)      (* the stop code *)
| Return (r : Z) (gif : gd_GIF).      (* [return -1] *)

(** The tail of a turn of the outer loop, from [if (ret == 1)] on;
    [key s] is the code just read, neither clear nor stop. *)
Definition lzw_string (fuel : nat) (x y w : Z) (s : Lzw) (gif : gd_GIF)
  : res (Lzw * gd_GIF) :=
  ks ← (if ret s =? 1 then int (key_size s + 1) else Ok (key_size s));
  t ← deref (table s);
  e ← table_get t (key s);
  let l := Entry.length e in
  '(e, gif) ← emit fuel gif t x y w (frm_off s) e;
  off ← int (frm_off s + l);
  t ← (if key s <? nentries t - 1 then
         full ← use (table_is_full s);
         if negb full then
           table_set_suffix t (nentries t - 1) (Entry.suffix e)
         else Ok t
       else Ok t);
  Ok (mkLzw (bits s) ks (table_is_full s) off (Some l) (key s) (ret s)
        (Some t) (Some e), gif).

(** One turn of the outer [while (1)]. *)
Definition lzw_iter (fuel : nat) (x y w init_key_size clear stop : Z)
    (s : Lzw) (gif : gd_GIF) : res flow :=
  o ← lzw_top init_key_size clear s;
  match o with
  | None => Ok (Return (-1) gif)
  | Some s =>
      '(k, b, f) ← get_key (fd gif) (key_size s) (bits s);
      let gif := set_fd gif f in
      let s := mkLzw b (key_size s) (table_is_full s) (frm_off s) (str_len s)
                 k (ret s) (table s) (entry s) in
      if k =? clear then Ok (Continue s gif)
      else if k =? stop then Ok (Break s gif)
      else
        '(s, gif) ← lzw_string fuel x y w s gif;
        Ok (Continue s gif)
  end.

(** The outer loop and the code after it.  [n] is the fuel handed to
    each inner loop. *)
Fixpoint lzw_loop (n fuel : nat) (x y w init_key_size clear stop : Z)
    (s : Lzw) (gif : gd_GIF) : res (Z * gd_GIF) :=
  match fuel with
  | O => OutOfFuel
  | S fuel =>
      fl ← lzw_iter n x y w init_key_size clear stop s gif;
      match fl with
      | Continue s gif => lzw_loop n fuel x y w init_key_size clear stop s gif
      | Break s gif =>
          let '(_, f) := read1_into (fd gif) (sub_len (bits s)) in
          (* Must be zero! *)
          Ok (0, set_fd gif f)
      | Return r gif => Ok (r, gif)
      end
  end.

(** The code of [read_image_data] before its loop: the constants
    [init_key_size], [clear] and [stop], the locals and the decoder
    as the loop is entered. *)
Definition lzw_init (gif : gd_GIF) : res (Z * Z * Z * Lzw * gd_GIF) :=
  let '(byt, f) := read1 (fd gif) None in
  byt ← use byt;
  let key_size := byt in
  c ← shl 1 key_size;
  let clear := u16 c in
  let stop := u16 (clear + 1) in
  t ← new_table key_size;
  let key_size := key_size + 1 in
  let init_key_size := key_size in
  '(k, b, f) ← get_key f key_size (mkBits 0 0 byt); (* clear code *)
  Ok (init_key_size, clear, stop,
      mkLzw b key_size None 0 None k 0 t None, set_fd gif f).

Definition read_image_data (fuel : nat) (gif : gd_GIF) (x y w : Z)
  : res (Z * gd_GIF) :=
  '(init_key_size, clear, stop, s, gif) ← lzw_init gif;
  lzw_loop fuel fuel x y w init_key_size clear stop s gif.

(** ** [read_image] *)

(** [read(fd, p->colors, n)]: the bytes read replace the head of the
    array. *)
Definition read_colors (f : File) (p : gd_Palette.t) (n : Z)
  : gd_Palette.t * File :=
  let '(bs, f) := read f (Z.to_nat n) in
  (gd_Palette.mk (gd_Palette.size p)
     (bs ++ drop (length bs) (gd_Palette.colors p)), f).

Definition read_image (fuel : nat) (gif : gd_GIF) : res (Z * gd_GIF) :=
  (* Image Descriptor. *)
  '(x, f) ← read_num (fd gif);
  '(y, f) ← read_num f;
  '(w, f) ← read_num f;
  '(h, f) ← read_num f;
  let '(fisrz, f) := read1 f None in
  fisrz ← use fisrz;
  let interlace := Z.land fisrz 0x40 in
  (* Local Color Table? *)
  if negb (Z.land fisrz 0x80 =? 0) then
    (* Read LCT *)
    sz ← shl 1 (Z.land fisrz 0x07 + 1);
    let '(p, f) := read_colors f (gd_Palette.mk sz (gd_Palette.colors (lct gif)))
                     (3 * sz) in
    let gif := set_palette (set_lct (set_fd gif f) p) palette_lct in
    (* Image Data. *)
    read_image_data fuel gif x y w
  else
    let gif := set_palette (set_fd gif f) palette_gct in
    read_image_data fuel gif x y w.

(** ** [gd_get_frame] *)

Definition sep_image : Z := 44.      (* ',' *)
Definition sep_trailer : Z := 59.    (* ';' *)
Definition sep_ext : Z := 33.        (* '!' *)

(** The [while (sep != ',')] loop and the code after it. *)
Fixpoint get_frame_loop (n fuel : nat) (gif : gd_GIF) (sep : Z)
  : res (Z * gd_GIF) :=
  if sep =? sep_image then
    '(r, gif) ← read_image n gif;
    if r =? -1 then Ok (-1, gif) else Ok (1, gif)
  else
    match fuel with
    | O => OutOfFuel
    | S fuel =>
        if sep =? sep_trailer then Ok (0, gif)
        else if sep =? sep_ext then
          gif ← read_ext n gif;
          let '(sep, f) := read1_into (fd gif) sep in
          get_frame_loop n fuel (set_fd gif f) sep
        else Ok (-1, gif)
    end.

Definition gd_get_frame (fuel : nat) (gif : gd_GIF) : res (Z * gd_GIF) :=
  let '(sep, f) := read1 (fd gif) None in
  sep ← use sep;
  get_frame_loop fuel fuel (set_fd gif f) sep.

(** ** [gd_open_gif] *)

(** The value of the local pointer [gif]: indeterminate until the
    [calloc], then null or the address of a decoder object. *)
Inductive gif_ptr : Type :=
| gif_indeterminate
| gif_null
| gif_at (g : gd_GIF).

(** [read(fd, buf, n)] into an array that holds [old]. *)
Definition read_over (f : File) (old : list Z) (n : nat) : list Z * File :=
  let '(bs, f) := read f n in
  (bs ++ drop (length bs) old, f).

Definition GIF_sig : list Z := [71; 73; 70].   (* "GIF" *)
Definition GIF_ver : list Z := [56; 57; 97].   (* "89a" *)

(** [gd_open_gif]; [file] is what [open] finds under the name, [None]
    when it returns -1.  The value is the text printed on [stderr]
    and the pointer returned.  After [goto fail] the function closes
    the descriptor and falls through to [ok: return gif], which
    returns the local [gif] as it stands. *)
Definition gd_open_gif (file : option (list Byte.byte))
  : res (list string * gif_ptr) :=
  match file with
  | None => Ok ([], gif_null)
  | Some bytes =>
      let f := mkFile bytes 0 in
      let gif := gif_indeterminate in
      (* Header *)
      let '(sigver, f) := read f 3 in
      if (length sigver <? 3)%nat then Stuck UninitRead
      else if negb (bool_decide (sigver = GIF_sig)) then
        Ok (["invalid signature"%string], gif)
      else
        (* Version *)
        let '(sigver, f) := read_over f sigver 3 in
        if negb (bool_decide (sigver = GIF_ver)) then
          Ok (["invalid version"%string], gif)
        else
          (* Width x Height *)
          '(width, f) ← read_num f;
          '(height, f) ← read_num f;
          (* FDSZ *)
          let '(fdsz, f) := read1 f None in
          fdsz ← use fdsz;
          (* Presence of GCT *)
          if Z.land fdsz 0x80 =? 0 then
            Ok (["no global color table"%string], gif)
          (* Color Space's Depth *)
          else if negb (Z.land (Z.shiftr fdsz 4) 7 =? 7) then
            Ok (["depth of color space is not 8 bits"%string], gif)
          else
            (* GCT Size *)
            gct_sz ← shl 1 (Z.land fdsz 0x07 + 1);
            (* Background Color Index *)
            let '(_, f) := read f 1 in
            (* Aspect Ratio *)
            let '(_, f) := read f 1 in
            (* Create gd_GIF Structure. *)
            n ← int (width * height);
            if alloc_ok n then
              (* Read GCT *)
              let '(p, f) := read_colors f
                               (gd_Palette.mk gct_sz
                                  (gd_Palette.colors gd_Palette.zero))
                               (3 * gct_sz) in
              Ok ([], gif_at (mkGIF f width height 0 (mkGCE 0 0 0 0 0)
                                palette_gct gd_Palette.zero p
                                (replicate (Z.to_nat n) 0) []))
            else Ok ([], gif_null)
  end.


(** * Notions used in the statements *)

(** ** Turns of the decoding loop *)

(** The locals and the decoder after [n] turns of the outer loop of
    [read_image_data], when each of these turns went back to the head
    of the loop and entered it in a state that satisfies [P]. *)
Fixpoint lzw_turns (P : Lzw → bool) (fuel n : nat)
    (x y w init_key_size clear stop : Z) (s : Lzw) (gif : gd_GIF)
  : option (Lzw * gd_GIF) :=
  match n with
  | O => Some (s, gif)
  | S n =>
      match lzw_turns P fuel n x y w init_key_size clear stop s gif with
      | Some (s, gif) =>
          match lzw_iter fuel x y w init_key_size clear stop s gif with
          | Ok (Continue s gif) => if P s then Some (s, gif) else None
          | _ => None
          end
      | None => None
      end
  end.

(** No condition on the turns. *)
Definition any_turn (s : Lzw) : bool := true.

(** The code just read is the clear code or a code of the table: it
    is below [table->nentries] as the turn looked it up. *)
Definition code_in_table (clear : Z) (s : Lzw) : bool :=
  (key s =? clear) ||
  match table s with
  | Some t => key s <? nentries t
  | None => false
  end.

(** The turn did not read a clear code while the last addition
    asked for a wider key ([ret] is 1). *)
Definition no_clear_on_grow (clear : Z) (s : Lzw) : bool :=
  negb ((key s =? clear) && (ret s =? 1)).

(** ** Strings of the code table *)

(** [chain m b e σ]: following [prefix] from the entry [e] passes only
    slots below [b], each one shorter by one, and ends at a literal;
    [σ] is the string of suffixes from that literal to [e]. *)
Inductive chain (m : gmap Z Entry.t) : Z → Entry.t → list Z → Prop :=
| chain_lit b e :
    Entry.prefix e = 0xFFF → Entry.length e = 1 →
    0 ≤ Entry.suffix e < 256 →
    chain m b e [Entry.suffix e]
| chain_cons b e e0 σ :
    0 ≤ Entry.prefix e < b → Entry.prefix e ≠ 0xFFF →
    m !! Entry.prefix e = Some e0 →
    Entry.length e = Entry.length e0 + 1 →
    chain m (Entry.prefix e) e0 σ →
    chain m b e (σ ++ [Entry.suffix e]).

(** The number of [prefix] steps from slot [i] to a literal, if there
    are at most [n]. *)
Fixpoint steps_to_literal (m : gmap Z Entry.t) (n : nat) (i : Z)
  : option nat :=
  match m !! i with
  | None => None
  | Some e =>
      if Entry.prefix e =? 0xFFF then Some O
      else
        match n with
        | O => None
        | S n => S <$> steps_to_literal m n (Entry.prefix e)
        end
  end.

(** [walk m e es]: the entries the emission loop passes from the
    entry [e], following [prefix] until an entry whose [prefix] is
    [0xFFF]; [es] lists them from the last one passed to [e], the
    order of the trace. *)
Inductive walk (m : gmap Z Entry.t) : Entry.t → list Entry.t → Prop :=
| walk_end e : Entry.prefix e = 0xFFF → walk m e [e]
| walk_step e e0 es :
    Entry.prefix e ≠ 0xFFF → m !! Entry.prefix e = Some e0 →
    walk m e0 es → walk m e (es ++ [e]).

(** The stores that write the string [σ] at the linear offsets from
    [off] on, in the order of the trace (latest first: the string is
    written from its end). *)
Definition placed (gif_width x y w off : Z) (σ : list Z) : list (Z * Z) :=
  imap (λ i v, (pixel_index gif_width x y w (off + Z.of_nat i), v)) σ.

(** A store into the frame rect [(x, y, w, h)] of a raster
    [gif_width] wide: the offset [i] is that of a cell of the raster,
    in one of its columns, whose row and column are those of the
    rect. *)
Definition in_rect (gif_width x y w h i : Z) : Prop :=
  ∃ row col, y ≤ row < y + h ∧ x ≤ col < x + w ∧ 0 ≤ col < gif_width ∧
             i = row * gif_width + col.

(** A data code for the literal width [K]: not the clear code [2^K]
    and not the stop code. *)
Definition is_data (K i : Z) : Prop := 0 ≤ i < 2 ^ K ∨ 2 ^ K + 2 ≤ i.

(** Every code of the table has a string. *)
Definition wf_table (K : Z) (t : Table) : Prop :=
  2 ^ K + 2 ≤ nentries t ≤ 0x1000 ∧ nentries t ≤ bulk t ∧
  ∀ i, is_data K i → i < nentries t →
    ∃ e σ, entries t !! i = Some e ∧ chain (entries t) i e σ.

(** ** Invariants of the decoding loop *)

(** The size of the table agrees with [table_is_full]. *)
Definition size_inv (K : Z) (s : Lzw) : Prop :=
  ∀ t, table s = Some t →
    2 ^ K + 2 ≤ nentries t ≤ 0x1000 ∧
    (table_is_full s = Some true → nentries t = 0x1000) ∧
    (table_is_full s = Some false → nentries t < 0x1000).

(** The width of the codes follows the size of the table. *)
Definition width_inv (K : Z) (s : Lzw) : Prop :=
  K + 1 ≤ key_size s ≤ 12 ∧
  (table_is_full s = Some true → ret s = 0) ∧
  ∀ t, table s = Some t → 2 ^ (key_size s - 1) ≤ nentries t.

(** The addition at the head of a turn made the size of the table a
    power of two below [0x1000]: the test of [add_entry] and the
    test for a full table in [read_image_data]. *)
Definition grows (t t1 : Table) : bool :=
  (nentries t1 =? nentries t + 1) &&
  (Z.land (nentries t1) (nentries t1 - 1) =? 0) &&
  negb (nentries t1 =? 0x1000).

(** The state at the head of the loop in a session whose codes were
    all codes of the table: the table is well formed; the strings
    emitted so far fill the linear offsets below [frm_off]; and after
    a turn that emitted a string, [key] is its code, [str_len] its
    length, [entry] the literal it starts with, and its stores are
    the latest of the trace. *)
Definition lzw_inv (K x y w : Z) (g0 : gd_GIF) (s : Lzw) (g : gd_GIF) : Prop :=
  0 ≤ key s < 65536 ∧ 0 ≤ frm_off s ∧ width g = width g0 ∧
  (table_is_full s = None ∨ is_Some (table s)) ∧
  (∃ out, Z.of_nat (length out) = frm_off s ∧
     stores g ≡ₚ placed (width g0) x y w 0 out ++ stores g0) ∧
  ∀ t, table s = Some t →
    wf_table K t ∧
    (key s ≠ 2 ^ K → table_is_full s ≠ None →
       is_data K (key s) ∧ key s < nentries t ∧
       ∃ e σ e1 rest,
         entries t !! key s = Some e ∧ chain (entries t) (key s) e σ ∧
         str_len s = Some (Entry.length e) ∧ entry s = Some e1 ∧
         0 ≤ Entry.suffix e1 < 256 ∧ head σ = Some (Entry.suffix e1) ∧
         stores g
         = placed (width g0) x y w (frm_off s - Z.of_nat (length σ)) σ ++ rest).


(** ** What an extension leaves alone *)

(** The two decoders differ at most in the file offset, the loop
    count and the graphic-control block. *)
Definition same_raster (g g' : gd_GIF) : Prop :=
  width g' = width g ∧ height g' = height g ∧ palette g' = palette g ∧
  lct g' = lct g ∧ gct g' = gct g ∧ frame g' = frame g ∧
  stores g' = stores g ∧ data (fd g') = data (fd g).

(** ** Input files for the examples *)

(** The allocator that grants every request, and the one that
    refuses every request. *)
Definition granted (_ : Z) : bool := true.
Definition refused (_ : Z) : bool := false.

Definition bytes_of (l : list Z) : list Byte.byte := byte_of_Z <$> l.

(** Codes with their widths, packed as an encoder packs them: the
    number they form, least significant bit first, and its number of
    bits. *)
Fixpoint pack_bits (cs : list (Z * Z)) : Z * Z :=
  match cs with
  | [] => (0, 0)
  | (c, n) :: cs => let '(v, m) := pack_bits cs in (c + v * 2 ^ n, n + m)
  end.

Fixpoint bytes_of_bits (n : nat) (v : Z) : list Z :=
  match n with
  | O => []
  | S n => v mod 256 :: bytes_of_bits n (v / 256)
  end.

Definition pack (cs : list (Z * Z)) : list Z :=
  let '(v, m) := pack_bits cs in bytes_of_bits (Z.to_nat ((m + 7) / 8)) v.

(** A header for a [W] by [H] screen (both below 256) with a global
    palette of two colours, black and white. *)
Definition gif_header (W H : Z) : list Z :=
  [71; 73; 70; 56; 57; 97; W; 0; H; 0; 0xF0; 0; 0; 0; 0; 0; 255; 255; 255].

(** The LZW data of an image: the literal width [K], the codes in
    one sub-block, and the terminator. *)
Definition image_data (K : Z) (cs : list (Z * Z)) : list Z :=
  let bs := pack cs in [K] ++ [Z.of_nat (length bs)] ++ bs ++ [0].

(** An image block with the rect [(x, y, w, h)] (all below 256), no
    local palette and no interlace. *)
Definition image_block (x y w h K : Z) (cs : list (Z * Z)) : list Z :=
  [44; x; 0; y; 0; w; 0; h; 0; 0] ++ image_data K cs.

(** A decoder as [gd_open_gif] leaves it for a [W] by [H] screen,
    reading [bytes]. *)
Definition decoder_on (W H : Z) (bytes : list Z) : gd_GIF :=
  mkGIF (mkFile (bytes_of bytes) 0) W H 0 (mkGCE 0 0 0 0 0) palette_gct
    gd_Palette.zero gd_Palette.zero (replicate (Z.to_nat (W * H)) 0) [].

(** [gd_open_gif] on a file, then the first [gd_get_frame]. *)
Definition first_frame (fuel : nat) (file : list Z) : res (Z * gd_GIF) :=
  '(_, p) ← gd_open_gif (Some (bytes_of file));
  match p with
  | gif_at g => gd_get_frame fuel g
  | _ => Stuck NullDeref
  end.

(** The locals and the decoder after [n] turns of the loop on the
    image data [bytes], from a decoder for a [W] by [H] screen. *)
Definition session (P : Z → Lzw → bool) (fuel n : nat) (W H x y w : Z)
    (bytes : list Z) : option (Z * Z * Z * Lzw * gd_GIF) :=
  match lzw_init (decoder_on W H bytes) with
  | Ok (ini, clear, stop, s0, g0) =>
      match lzw_turns (P clear) fuel n x y w ini clear stop s0 g0 with
      | Some (s, g) => Some (ini, clear, stop, s, g)
      | None => None
      end
  | _ => None
  end.

(** What is seen of a call of [gd_get_frame]: the value returned,
    the raster and the trace of stores. *)
Definition outcome (r : res (Z * gd_GIF)) : res (Z * list Z * list (Z * Z)) :=
  '(v, g) ← r; Ok (v, frame g, stores g).

(** An observation [f] of the state a session reached. *)
Definition view {A} (f : Z → Z → Z → Lzw → gd_GIF → A)
    (r : option (Z * Z * Z * Lzw * gd_GIF)) : option A :=
  match r with
  | Some (ini, clear, stop, s, g) => Some (f ini clear stop s g)
  | None => None
  end.

(** A decoder at a graphic control extension, past its label: the
    block size, the packed byte [0x09], the delay 10, the transparent
    index 7 and the terminator. *)
Definition gce_example : gd_GIF := decoder_on 1 1 [4; 9; 10; 0; 7; 0].

(** The codes of the pixels [0 1 0 1 0 1 0] for the literal width 2:
    the clear code, the literals 0 and 1, the code 6 of [0 1], the
    code 8 read while the table has 8 entries, and the stop code. *)
Definition abab_codes : list (Z * Z) :=
  [(4, 3); (0, 3); (1, 3); (6, 3); (8, 4); (5, 4)].

(** A decoder at the LZW data of these codes, for a 7 by 1 screen. *)
Definition abab_gif : gd_GIF := decoder_on 7 1 (image_data 2 abab_codes).

(** A decoder at a graphic control extension followed by the
    trailer. *)
Definition ext_gif : gd_GIF :=
  decoder_on 1 1 [33; 0xF9; 4; 9; 10; 0; 7; 0; 59].

(** A 2 by 2 screen and one image with the rect [(0, 0, 1, 1)] whose
    codes spell two pixels. *)
Definition two_pixels_file : list Z :=
  gif_header 2 2
  ++ image_block 0 0 1 1 2 [(4, 3); (1, 3); (1, 3); (5, 3)] ++ [59].

(** A 2 by 2 screen and one image with the rect [(1, 0, 2, 1)],
    which passes the right edge of the screen, whose codes spell two
    pixels. *)
Definition past_edge_file : list Z :=
  gif_header 2 2
  ++ image_block 1 0 2 1 2 [(4, 3); (1, 3); (1, 3); (5, 3)] ++ [59].

(** The clear code and the stop code for the literal width 12. *)
Definition wide_codes : list (Z * Z) := [(4096, 13); (4097, 13)].

Definition wide_file : list Z :=
  gif_header 1 1 ++ image_block 0 0 1 1 12 wide_codes ++ [59].

(** LZW data for the literal width 2, in sub-blocks of 255 bytes:
    the clear code, twice the literal 0, the clear code again, and
    then the literal 0 for as long as the data last. *)
Definition long_stream : list Z :=
  [2] ++ [255; 4; 8] ++ replicate 253 0
  ++ concat (replicate 12 (255 :: replicate 255 0)).

(** What the head of turn [n] of the session on [long_stream] finds:
    the first width, whether the code just read is the clear code,
    [ret], the size of the table and the width of the codes. *)
Definition stale_grow (n : nat)
  : option (Z * bool * Z * option Z * Z) :=
  view (λ ini clear _ s _,
          (ini, key s =? clear, ret s, nentries <$> table s, key_size s))
    (session code_in_table 10 n 64 64 0 0 64 long_stream).

(** A 2 by 1 screen and one image of that size whose first sub-block
    holds the single byte [0x4C] (the clear code, the literal 1 and
    the low bits of the next code); the length byte that follows is
    zero, and then come the bytes [0x0A], zero, and the trailer. *)
Definition zero_length_file : list Z :=
  gif_header 2 1
  ++ [44; 0; 0; 0; 0; 2; 0; 1; 0; 0; 2; 1; 76; 0; 10; 0; 59].

(** For the literal width 12: the clear code, the literal 4095, the
    code 4098 and the stop code. *)
Definition sentinel_codes : list (Z * Z) :=
  [(4096, 13); (4095, 13); (4098, 13); (4097, 13)].

(** For the literal width 2: the clear code, three literals 0, the
    clear code again, the literal 1, and twice the code 7. *)
Definition loop_codes : list (Z * Z) :=
  [(4, 3); (0, 3); (0, 3); (0, 3); (4, 4); (1, 3); (7, 3); (7, 3)].

Definition loop_file : list Z :=
  gif_header 4 4 ++ image_block 0 0 4 4 2 loop_codes ++ [59].

(** The header of a 1 by 1 GIF of the version [87a]. *)
Definition old_version_file : list Z :=
  [71; 73; 70; 56; 55; 97; 1; 0; 1; 0; 0xF0; 0; 0; 0; 0; 0; 255; 255; 255].

(** ** Chains of sub-blocks *)

(** A chain of data sub-blocks as it lies in a file: each block after
    its length byte, and the zero length byte that ends the chain. *)
Definition sub_blocks (bs : list (list Byte.byte)) : list Byte.byte :=
  concat ((λ b, byte_of_Z (Z.of_nat (length b)) :: b) <$> bs) ++ [Byte.x00].

(** The blocks a length byte can announce: 1 to 255 bytes. *)
Definition block_sizes (bs : list (list Byte.byte)) : Prop :=
  Forall (λ b : list Byte.byte, (0 < length b < 256)%nat) bs.

(** ** What a call leaves as it was *)

(** The same file, read further on (or as far). *)
Definition advanced (f f' : File) : Prop :=
  data f' = data f ∧ (pos f ≤ pos f')%nat.

(** What the decoding of an image data block leaves alone: all of the
    decoder but the file offset and the contents of the raster. *)
Definition image_kept (g g' : gd_GIF) : Prop :=
  width g' = width g ∧ height g' = height g ∧
  loop_count g' = loop_count g ∧ gce g' = gce g ∧
  palette g' = palette g ∧ lct g' = lct g ∧ gct g' = gct g ∧
  length (frame g') = length (frame g) ∧ advanced (fd g) (fd g').

(** What a call of [gd_get_frame] leaves alone, whatever it reads. *)
Definition screen_kept (g g' : gd_GIF) : Prop :=
  width g' = width g ∧ height g' = height g ∧ gct g' = gct g ∧
  length (frame g') = length (frame g) ∧ advanced (fd g) (fd g').

(** ** The bit stream of the image data *)

(** The value of a sequence of bytes, the first one lowest. *)
Fixpoint le_value (l : list Z) : Z :=
  match l with
  | [] => 0
  | x :: l => x + 256 * le_value l
  end.

(** The data bytes the fetches of [get_key] find among the bytes [bs]
    ahead, when [n] more bytes of the current sub-block are to come:
    whenever [n] is 0 the next byte is a length byte, which is passed
    over and sets [n] (a length of zero counts as 256, since [sub_len]
    wraps).  The data end where the file ends. *)
Fixpoint payload (n : Z) (bs : list Z) : list Z :=
  match bs with
  | [] => []
  | x :: rest =>
      if n =? 0 then
        match rest with
        | [] => []
        | d :: rest' => d :: payload (u8 (x - 1)) rest'
        end
      else x :: payload (u8 (n - 1)) rest
  end.

(** The data bytes ahead of a bit source. *)
Definition ahead (b : BitSource) (f : File) : list Z :=
  payload (sub_len b) (Z_of_byte <$> drop (pos f) (data f)).

(** The bits still to come when the next one is bit [r] of the
    current byte [byt] and [l] are the data bytes ahead, as a number
    whose lowest bit comes first; at [r = 0] the current byte is used
    up. *)
Definition stream_at (r byt : Z) (l : list Z) : Z :=
  if r =? 0 then le_value l else Z.shiftr byt r + 2 ^ (8 - r) * le_value l.

(** How many bits that are. *)
Definition left_at (r : Z) (l : list Z) : Z :=
  (if r =? 0 then 0 else 8 - r) + 8 * Z.of_nat (length l).

(** The bits a bit source has still to give between two calls of
    [get_key], and their number. *)
Definition bit_stream (b : BitSource) (f : File) : Z :=
  stream_at (shift b) (byte b) (ahead b f).

Definition bits_left (b : BitSource) (f : File) : Z :=
  left_at (shift b) (ahead b f).

(** A bit source as [get_key] leaves it. *)
Definition bits_wf (b : BitSource) : Prop :=
  0 ≤ sub_len b < 256 ∧ 0 ≤ shift b < 8 ∧ 0 ≤ byte b < 256.

(** Successive calls of [get_key] on one bit source, as the loop of
    [read_image_data] makes them, one for each of the widths [ws]:
    the keys read, and the bit source and the file afterwards. *)
Fixpoint get_keys (f : File) (b : BitSource) (ws : list Z)
  : res (list Z * BitSource * File) :=
  match ws with
  | [] => Ok ([], b, f)
  | ks :: ws =>
      '(k, b, f) ← get_key f ks b;
      '(l, b, f) ← get_keys f b ws;
      Ok (k :: l, b, f)
  end.

(** Codes with widths an encoder may pack: each code fits its width,
    of 1 to 16 bits. *)
Definition codes_fit (cs : list (Z * Z)) : Prop :=
  Forall (λ cn : Z * Z, 0 < cn.2 ≤ 16 ∧ 0 ≤ cn.1 < 2 ^ cn.2) cs.

(** ** LZW decoding over strings

    A reference to compare the loop of [read_image_data] with: it
    keeps the strings of the codes as lists of pixels, where the code
    keeps [prefix] links between table slots. *)

(** The keys the turns of the loop read: as [lzw_turns], with the
    list of the keys of the states entered. *)
Fixpoint lzw_codes (P : Lzw → bool) (fuel n : nat)
    (x y w init_key_size clear stop : Z) (s : Lzw) (gif : gd_GIF)
  : option (list Z * Lzw * gd_GIF) :=
  match n with
  | O => Some ([], s, gif)
  | S n =>
      match lzw_codes P fuel n x y w init_key_size clear stop s gif with
      | Some (ks, s, gif) =>
          match lzw_iter fuel x y w init_key_size clear stop s gif with
          | Ok (Continue s gif) =>
              if P s then Some (ks ++ [key s], s, gif) else None
          | _ => None
          end
      | None => None
      end
  end.

(** The string of the code [k] for the literal width [K] and the
    strings [d] of the codes from [2^K + 2] on.  A literal stands for
    its low byte, the [suffix] of its entry. *)
Definition ref_string (K : Z) (d : list (list Z)) (k : Z)
  : option (list Z) :=
  if (0 <=? k) && (k <? 2 ^ K) then Some [u8 k]
  else if 2 ^ K + 2 <=? k then d !! Z.to_nat (k - (2 ^ K + 2))
  else None.

(** Whether the codes are fewer than [0x1000]. *)
Definition ref_room (K : Z) (d : list (list Z)) : bool :=
  2 ^ K + 2 + Z.of_nat (length d) <? 0x1000.

(** A data code [k] after the string [prev]: its string, looked up
    with [prev] and its own first character as the string of the next
    free code, and the strings afterwards, where the next free code
    has got [prev] and the first character of the string of [k].  The
    one exception is the code 4095, the last to be added: it keeps
    [prev] and the first character of [prev]. *)
Definition ref_code (K : Z) (d : list (list Z)) (prev : option (list Z))
    (k : Z) : option (list (list Z) * list Z) :=
  match prev with
  | Some p =>
      if ref_room K d then
        σ ← ref_string K (d ++ [p ++ take 1 p]) k;
        Some (d ++ [p ++ take 1 (if ref_room K (d ++ [p]) then σ else p)], σ)
      else σ ← ref_string K d k; Some (d, σ)
  | None => σ ← ref_string K d k; Some (d, σ)
  end.

(** The state of the decoding over strings: the strings of the codes
    added, the string decoded last (none after a clear code), and the
    pixels so far. *)
Definition ref_state : Type := list (list Z) * option (list Z) * list Z.

Definition ref_step (K : Z) (st : option ref_state) (k : Z)
  : option ref_state :=
  '(d, prev, out) ← st;
  if k =? 2 ^ K then Some ([], None, out)
  else '(d', σ) ← ref_code K d prev k; Some (d', Some σ, out ++ σ).

(** The decoding of the codes that follow a clear code. *)
Definition lzw_ref (K : Z) (codes : list Z) : option ref_state :=
  foldl (ref_step K) (Some ([], None, [])) codes.

(** The code [k] of the table [t] has the string [σ]. *)
Definition code_string (t : Table) (k : Z) (σ : list Z) : Prop :=
  ∃ e, entries t !! k = Some e ∧ chain (entries t) k e σ.

(** The literals of the table [t] are those of [new_table], and the
    codes from [2^K + 2] on have the strings [d]. *)
Definition table_holds (K : Z) (t : Table) (d : list (list Z)) : Prop :=
  (∀ i, 0 ≤ i < 2 ^ K → entries t !! i = Some (Entry.mk 1 0xFFF (u8 i))) ∧
  ∀ j σ, d !! j = Some σ → code_string t (2 ^ K + 2 + Z.of_nat j) σ.

(** The state [s] at the head of the loop against the decoding over
    strings: after a clear code there are no strings; after a data
    code the table holds the strings [d] and the code has the string
    [prev]. *)
Definition dec_inv (K : Z) (s : Lzw) (d : list (list Z))
    (prev : option (list Z)) : Prop :=
  ∀ t, table s = Some t →
    table_holds K t d ∧
    if key s =? 2 ^ K then d = [] ∧ prev = None
    else
      table_is_full s ≠ None →
      nentries t = 2 ^ K + 2 + Z.of_nat (length d) ∧
      ∃ σ, prev = Some σ ∧ code_string t (key s) σ.

(** ** The raster and the trace *)

(** The raster [fr] after the stores [l], latest first. *)
Definition apply_stores (l : list (Z * Z)) (fr : list Z) : list Z :=
  foldr (λ iv fr, <[Z.to_nat iv.1 := iv.2]> fr) fr l.

(** From [g] to [g'] the raster changed by the stores the trace
    gained, each of them inside the raster. *)
Definition traced (g g' : gd_GIF) : Prop :=
  ∃ l, stores g' = l ++ stores g ∧ frame g' = apply_stores l (frame g) ∧
       Forall (λ iv, 0 ≤ iv.1 < Z.of_nat (length (frame g))) l.

(** ** More input files for the examples *)

(** A decoder at a chain of two sub-blocks, of two bytes and of one,
    and one at a sub-block of five bytes of which the file has two. *)
Definition chain_gif : gd_GIF := decoder_on 1 1 [2; 1; 2; 1; 3; 0; 59].
Definition truncated_gif : gd_GIF := decoder_on 1 1 [5; 1; 2].

(** A decoder at an application extension, past its label: the
    identifier ["NETSCAPE"], the code ["2.0"] and a loop count of 5. *)
Definition netscape_gif : gd_GIF :=
  decoder_on 1 1 ([11] ++ NETSCAPE ++ [50; 46; 48; 3; 1; 5; 0; 0; 59]).

(** A decoder at the label of a comment extension with one sub-block
    of two bytes. *)
Definition comment_gif : gd_GIF := decoder_on 1 1 [0xFE; 2; 104; 105; 0; 59].

(** A decoder at an extension with the label 2. *)
Definition unknown_ext_gif : gd_GIF := decoder_on 1 1 [33; 2; 0; 59].

(** A decoder at LZW data that start with the literal 0. *)
Definition no_clear_gif : gd_GIF :=
  decoder_on 1 1 (image_data 2 [(0, 3); (5, 3)]).

(** A decoder at an image descriptor, past the separator: the rect
    [(0, 0, 7, 1)], a local palette of two colours, and the data of
    [abab_codes]. *)
Definition local_palette_gif : gd_GIF :=
  decoder_on 7 1 ([0; 0; 0; 0; 7; 0; 1; 0; 0x80; 1; 2; 3; 4; 5; 6]
                  ++ image_data 2 abab_codes).

(** The file of [abab_gif] at the length byte of its sub-block. *)
Definition abab_bits : File := mkFile (bytes_of (image_data 2 abab_codes)) 1.


(** * Properties *)

(** ** The result monad *)

Lemma bind_Ok {A B} (m : res A) (f : A → res B) (b : B) :
  m ≫= f = Ok b → ∃ a, m = Ok a ∧ f a = Ok b.
Proof. destruct m as [a| |]; simpl; [eauto | discriminate..]. Qed.

Lemma use_Ok {A} (o : option A) (a : A) : use o = Ok a → o = Some a.
Proof. destruct o; simpl; congruence. Qed.

Lemma deref_Ok {A} (o : option A) (a : A) : deref o = Ok a → o = Some a.
Proof. destruct o; simpl; congruence. Qed.

Lemma int_Ok z z' : int z = Ok z' → z' = z ∧ - INT_MAX - 1 ≤ z ≤ INT_MAX.
Proof.
  unfold int.
  destruct (- INT_MAX - 1 <=? z) eqn:H1, (z <=? INT_MAX) eqn:H2;
    simpl; try discriminate.
  intros [= <-]. apply Z.leb_le in H1, H2. auto.
Qed.

Lemma int_fits z : - INT_MAX - 1 ≤ z ≤ INT_MAX → int z = Ok z.
Proof.
  intros [H1 H2]. unfold int.
  apply Z.leb_le in H1, H2. by rewrite H1, H2.
Qed.

Lemma shl_Ok a n z :
  shl a n = Ok z → z = a * 2 ^ n ∧ 0 ≤ n < 32 ∧ - INT_MAX - 1 ≤ z ≤ INT_MAX.
Proof.
  unfold shl.
  destruct (0 <=? n) eqn:H1, (n <? 32) eqn:H2; simpl; try discriminate.
  apply Z.leb_le in H1. apply Z.ltb_lt in H2.
  intros [-> ?]%int_Ok. rewrite Z.shiftl_mul_pow2 in * by done.
  repeat split; lia.
Qed.

Lemma shl_1_fits n : 0 ≤ n < 31 → shl 1 n = Ok (2 ^ n).
Proof.
  intros [H1 H2]. unfold shl.
  assert ((0 <=? n) = true) as -> by (by apply Z.leb_le).
  assert ((n <? 32) = true) as -> by (apply Z.ltb_lt; lia).
  simpl. rewrite Z.shiftl_mul_pow2, Z.mul_1_l by done.
  apply int_fits. unfold INT_MAX.
  assert (2 ^ n ≤ 2 ^ 30) by (apply Z.pow_le_mono_r; lia).
  assert (0 < 2 ^ n) by (apply Z.pow_pos_nonneg; lia).
  change (2 ^ 30) with 1073741824 in *. lia.
Qed.

(** ** Reading the file *)

Lemma Z_of_byte_range b : 0 ≤ Z_of_byte b < 256.
Proof.
  unfold Z_of_byte. pose proof (Byte.to_N_bounded b) as H. lia.
Qed.

Lemma read_1_some f b :
  data f !! pos f = Some b →
  read f 1 = ([Z_of_byte b], mkFile (data f) (pos f + 1)).
Proof.
  intros H. unfold read. by rewrite (drop_S _ _ _ H).
Qed.

Lemma read_1_none f :
  data f !! pos f = None → read f 1 = ([], mkFile (data f) (pos f + 0)).
Proof.
  intros H. unfold read. apply lookup_ge_None in H.
  by rewrite drop_ge by done.
Qed.

Lemma read_2_some f b0 b1 :
  data f !! pos f = Some b0 → data f !! S (pos f) = Some b1 →
  read f 2 = ([Z_of_byte b0; Z_of_byte b1], mkFile (data f) (pos f + 2)).
Proof.
  intros H0 H1. unfold read.
  by rewrite (drop_S _ _ _ H0), (drop_S _ _ _ H1).
Qed.

Lemma read_data f n : data (read f n).2 = data f.
Proof. done. Qed.

Lemma read1_data f o : data (read1 f o).2 = data f.
Proof. unfold read1. by destruct (read f 1) as [[|??] ?] eqn:E; inversion E. Qed.

Lemma read1_into_data f o : data (read1_into f o).2 = data f.
Proof. unfold read1_into. by destruct (read f 1) as [[|??] ?] eqn:E; inversion E. Qed.

(** ** Bits of a byte *)

Lemma land_pow2 a k :
  0 ≤ k → Z.land a (2 ^ k) = if Z.testbit a k then 2 ^ k else 0.
Proof.
  intros Hk. apply Z.bits_inj'. intros n Hn.
  rewrite Z.land_spec, Z.pow2_bits_eqb by done.
  destruct (Z.eqb_spec k n) as [->|Hne].
  - destruct (Z.testbit a n) eqn:E; simpl.
    + by rewrite Z.pow2_bits_true.
    + by rewrite Z.bits_0.
  - rewrite andb_false_r. destruct (Z.testbit a k).
    + rewrite Z.pow2_bits_false; [done | lia].
    + by rewrite Z.bits_0.
Qed.

Lemma read_num_some f b0 b1 :
  data f !! pos f = Some b0 → data f !! S (pos f) = Some b1 →
  read_num f = Ok (Z_of_byte b0 + 256 * Z_of_byte b1,
                   mkFile (data f) (pos f + 2)).
Proof.
  intros H0 H1. unfold read_num. rewrite (read_2_some _ _ _ H0 H1).
  pose proof (Z_of_byte_range b0). pose proof (Z_of_byte_range b1).
  unfold u16. rewrite (Z.mod_small (Z_of_byte b1)) by lia.
  rewrite Z.shiftl_mul_pow2 by done. change (2 ^ 8) with 256.
  rewrite Z.mod_small by lia. do 2 f_equal. lia.
Qed.

(** ** The graphic control extension *)

(** C3 (as amended): when the four bytes after the block size are
    present, [read_graphic_control_ext] succeeds, leaves everything but
    the graphic-control block and the file offset as it was, sets
    disposal to bits 3..2 of the packed byte (two bits: [(rdit / 4) mod
    4]), the input flag to non-zero exactly when bit 1 is set,
    transparency to bit 0, the delay to the 16-bit little-endian
    number that follows and the transparent index to the byte after it,
    and leaves the offset six bytes on, past the terminator. *)
Theorem read_graphic_control_ext_fields gif b1 b2 b3 b4 :
  data (fd gif) !! (pos (fd gif) + 1)%nat = Some b1 →
  data (fd gif) !! (pos (fd gif) + 2)%nat = Some b2 →
  data (fd gif) !! (pos (fd gif) + 3)%nat = Some b3 →
  data (fd gif) !! (pos (fd gif) + 4)%nat = Some b4 →
  ∃ c,
    read_graphic_control_ext gif
      = Ok (set_fd (set_gce gif c)
              (mkFile (data (fd gif)) (pos (fd gif) + 6))) ∧
    disposal c = (Z_of_byte b1 / 4) mod 4 ∧
    (input c ≠ 0 ↔ Z.testbit (Z_of_byte b1) 1 = true) ∧
    transparency c = (if Z.testbit (Z_of_byte b1) 0 then 1 else 0) ∧
    delay c = Z_of_byte b2 + 256 * Z_of_byte b3 ∧
    tindex c = Z_of_byte b4.
Proof.
  intros H1 H2 H3 H4. unfold read_graphic_control_ext, read1, read1_into.
  change (lseek (fd gif) 1) with (mkFile (data (fd gif)) (pos (fd gif) + 1)).
  rewrite (read_1_some (mkFile _ _) b1) by done. cbn [data pos mbind res_bind use].
  rewrite (read_num_some (mkFile _ _) b2 b3); cbn [data pos mbind res_bind].
  2: by replace (pos (fd gif) + 1 + 1)%nat with (pos (fd gif) + 2)%nat by lia.
  2: by replace (S (pos (fd gif) + 1 + 1))%nat with (pos (fd gif) + 3)%nat by lia.
  rewrite (read_1_some (mkFile _ _) b4); cbn [data pos].
  2: by replace (pos (fd gif) + 1 + 1 + 2)%nat with (pos (fd gif) + 4)%nat by lia.
  eexists. split.
  { unfold lseek. cbn [data pos]. do 3 f_equal.
    change (Z.to_nat 1) with 1%nat. lia. }
  cbn [disposal input transparency delay tindex]. repeat split.
  - change 3 with (Z.ones 2). by rewrite Z.land_ones, Z.shiftr_div_pow2.
  - change 2 with (2 ^ 1) at 1. rewrite land_pow2 by done.
    by destruct (Z.testbit _ 1).
  - change 2 with (2 ^ 1) at 1. rewrite land_pow2 by done.
    by destruct (Z.testbit _ 1).
  - change 1 with (2 ^ 0) at 1. rewrite land_pow2 by done.
    by destruct (Z.testbit _ 0).
Qed.

(** ** The bit source *)

Lemma u16_small z : 0 ≤ z < 65536 → u16 z = z.
Proof. intros. unfold u16. by apply Z.mod_small. Qed.

Lemma u8_small z : 0 ≤ z < 256 → u8 z = z.
Proof. intros. unfold u8. by apply Z.mod_small. Qed.

Lemma u16_range z : 0 ≤ u16 z < 65536.
Proof. unfold u16. by apply Z.mod_pos_bound. Qed.

Lemma u8_range z : 0 ≤ u8 z < 256.
Proof. unfold u8. by apply Z.mod_pos_bound. Qed.

(** A zero length byte followed by a data byte: the fetch takes both,
    and [sub_len] wraps from 0 to 255. *)
Lemma update_byte_zero_length f b z d :
  sub_len b = 0 →
  data f !! pos f = Some z → Z_of_byte z = 0 →
  data f !! S (pos f) = Some d →
  update_byte f b
  = (mkBits 255 (shift b) (Z_of_byte d), mkFile (data f) (pos f + 2)).
Proof.
  intros Hs Hz Hz0 Hd. unfold update_byte, read1_into. rewrite Hs.
  change (0 =? 0) with true. cbv iota.
  rewrite (read_1_some _ _ Hz), Hz0.
  rewrite (read_1_some (mkFile _ _) d); cbn [data pos].
  2: by replace (pos f + 1)%nat with (S (pos f)) by lia.
  do 2 f_equal. lia.
Qed.

(** A key that starts at a byte boundary with the sub-block used up,
    when the length byte read is zero: the byte after it is read as
    data, [sub_len] wraps to 255 and the key is returned (for a width
    of at most 8 bits, which one data byte fills). *)
Lemma get_key_zero_length_first_byte f b ks z d :
  0 < ks ≤ 8 →
  sub_len b = 0 → shift b = 0 →
  data f !! pos f = Some z → Z_of_byte z = 0 →
  data f !! S (pos f) = Some d →
  get_key f ks b
  = Ok (Z_of_byte d mod 2 ^ ks,
        mkBits 255 (ks mod 8) (Z_of_byte d),
        mkFile (data f) (pos f + 2)).
Proof.
  intros Hks Hs Hsh Hz Hz0 Hd. unfold get_key.
  destruct (Z.to_nat ks) as [|n] eqn:En; [lia|].
  cbn [get_key_loop].
  assert ((0 <? ks) = true) as -> by (apply Z.ltb_lt; lia).
  rewrite Hsh. change (Z.rem (0 + 0) 8) with 0. change (0 =? 0) with true.
  cbv iota. rewrite (update_byte_zero_length _ _ _ _ Hs Hz Hz0 Hd).
  cbn [byte]. pose proof (Z_of_byte_range d) as Hr.
  rewrite Z.shiftr_0_r, u16_small by lia.
  assert (shl (Z_of_byte d) 0 = Ok (Z_of_byte d)) as ->.
  { unfold shl. change ((0 <=? 0) && (0 <? 32)) with true. cbv iota.
    rewrite Z.shiftl_0_r. apply int_fits. unfold INT_MAX. lia. }
  cbn [mbind res_bind]. rewrite Z.lor_0_l, u16_small by lia.
  assert (MIN (ks - 0) (8 - 0) = ks) as ->.
  { unfold MIN. destruct (Z.ltb_spec (ks - 0) (8 - 0)); lia. }
  destruct n; cbn [get_key_loop];
    (assert ((0 + ks <? ks) = false) as -> by (apply Z.ltb_ge; lia));
    cbn [mbind res_bind].
  all: rewrite shl_1_fits by lia; cbn [mbind res_bind shift sub_len byte].
  all: rewrite Hsh.
  all: assert (0 < 2 ^ ks) by (apply Z.pow_pos_nonneg; lia).
  all: assert (2 ^ ks ≤ 2 ^ 8) by (apply Z.pow_le_mono_r; lia).
  all: change (2 ^ 8) with 256 in *.
  all: replace (2 ^ ks - 1) with (Z.ones ks)
         by (rewrite Z.ones_equiv; lia).
  all: rewrite Z.land_ones by lia.
  all: pose proof (Z.mod_pos_bound (Z_of_byte d) (2 ^ ks)).
  all: rewrite u16_small by lia.
  all: rewrite Z.add_0_l, Z.rem_mod_nonneg by lia.
  all: pose proof (Z.mod_pos_bound ks 8).
  all: by rewrite u8_small by lia.
Qed.

(** [get_key] never changes [*shift] before its last statement. *)
Lemma update_byte_shift f b : shift (update_byte f b).1 = shift b.
Proof.
  unfold update_byte.
  destruct (if sub_len b =? 0 then read1_into f (sub_len b) else (sub_len b, f))
    as [len f1].
  by destruct (read1_into f1 (byte b)).
Qed.

(** A 16-bit value shifted by less than 16 bits fits an [int]. *)
Lemma shl_u16_fits a n : 0 ≤ n ≤ 15 → ∃ v, shl (u16 a) n = Ok v.
Proof.
  intros Hn. unfold shl.
  assert (((0 <=? n) && (n <? 32)) = true) as ->.
  { apply andb_true_iff. split; [apply Z.leb_le | apply Z.ltb_lt]; lia. }
  eexists. apply int_fits. rewrite Z.shiftl_mul_pow2 by lia.
  pose proof (u16_range a) as Ha.
  assert (0 < 2 ^ n) by (apply Z.pow_pos_nonneg; lia).
  assert (2 ^ n ≤ 2 ^ 15) by (apply Z.pow_le_mono_r; lia).
  change (2 ^ 15) with 32768 in *. unfold INT_MAX. nia.
Qed.

(** The [for] loop of [get_key] has no failing case: for a width of at
    most 16 bits it returns, whatever the file holds. *)
Lemma get_key_loop_total fuel : ∀ f ks b br key,
  0 ≤ br → ks ≤ 16 → 0 ≤ shift b → (Z.to_nat (ks - br) ≤ fuel)%nat →
  ∃ r, get_key_loop fuel f ks b br key = Ok r.
Proof.
  induction fuel as [|fuel IH]; intros f ks b br key Hbr Hks Hsh Hfuel;
    cbn [get_key_loop]; destruct (Z.ltb_spec br ks) as [Hlt|Hge];
    try (by eexists); [lia|].
  pose proof (Z.rem_bound_pos (shift b + br) 8) as Hr.
  set (rpad := Z.rem (shift b + br) 8) in *.
  destruct (if rpad =? 0 then update_byte f b else (b, f)) as [b1 f1] eqn:E.
  assert (shift b1 = shift b) as Hsh1.
  { destruct (rpad =? 0).
    - pose proof (update_byte_shift f b) as Hu. by rewrite E in Hu.
    - by injection E as <- _. }
  destruct (shl_u16_fits (Z.shiftr (byte b1) rpad) br) as [v ->]; [lia|].
  cbn [mbind res_bind]. apply IH; [|done|lia|].
  - unfold MIN. destruct (_ <? _); lia.
  - unfold MIN. destruct (_ <? _); lia.
Qed.

(** So has [get_key]. *)
Lemma get_key_total f ks b :
  0 < ks ≤ 16 → 0 ≤ shift b → ∃ k b' f', get_key f ks b = Ok (k, b', f').
Proof.
  intros Hks Hsh. unfold get_key.
  destruct (get_key_loop_total (Z.to_nat ks) f ks b 0 0) as [[[k b1] f1] ->];
    [lia..|].
  cbn [mbind res_bind]. rewrite shl_1_fits by lia. cbn [mbind res_bind].
  by eexists _, _, _.
Qed.

(** C4 (as amended): when the loop of [get_key] still needs bits
    ([br < ks]), stands at a byte boundary and finds the sub-block
    used up ([sub_len] is 0), and the length byte it reads is zero,
    it does not fail: the length byte is taken as it is, the byte
    after it is read as data, [sub_len] wraps to 255, and the loop
    goes on with the bits of that byte; it then returns a key.
    [get_key] has no failing case at all for a width of at most 16
    bits: it returns a key whatever the file holds. *)
Theorem get_key_zero_length f b ks z d fuel br key :
  0 ≤ br < ks → ks ≤ 16 → 0 ≤ shift b →
  Z.rem (shift b + br) 8 = 0 → sub_len b = 0 →
  data f !! pos f = Some z → Z_of_byte z = 0 →
  data f !! S (pos f) = Some d →
  get_key_loop (S fuel) f ks b br key
  = get_key_loop fuel (mkFile (data f) (pos f + 2)) ks
      (mkBits 255 (shift b) (Z_of_byte d)) (br + MIN (ks - br) 8)
      (u16 (Z.lor key (Z.shiftl (Z_of_byte d) br))) ∧
  ((Z.to_nat (ks - br) ≤ S fuel)%nat →
   ∃ k b' f', get_key_loop (S fuel) f ks b br key = Ok (k, b', f')) ∧
  ∀ f0 b0, 0 ≤ shift b0 → ∃ k b' f', get_key f0 ks b0 = Ok (k, b', f').
Proof.
  intros Hbr Hks Hsh Hrem Hs Hz Hz0 Hd. split; [|split].
  - cbn [get_key_loop].
    assert ((br <? ks) = true) as -> by (apply Z.ltb_lt; lia).
    rewrite Hrem. change (0 =? 0) with true. cbv iota.
    rewrite (update_byte_zero_length _ _ _ _ Hs Hz Hz0 Hd). cbn [byte].
    pose proof (Z_of_byte_range d) as Hr.
    rewrite Z.shiftr_0_r, u16_small by lia.
    assert (shl (Z_of_byte d) br = Ok (Z.shiftl (Z_of_byte d) br)) as ->.
    { unfold shl.
      assert (((0 <=? br) && (br <? 32)) = true) as ->.
      { apply andb_true_iff. split; [apply Z.leb_le | apply Z.ltb_lt]; lia. }
      apply int_fits. rewrite Z.shiftl_mul_pow2 by lia.
      assert (0 < 2 ^ br) by (apply Z.pow_pos_nonneg; lia).
      assert (2 ^ br ≤ 2 ^ 15) by (apply Z.pow_le_mono_r; lia).
      change (2 ^ 15) with 32768 in *. unfold INT_MAX. nia. }
    cbn [mbind res_bind]. by rewrite Z.sub_0_r.
  - intros Hfuel.
    destruct (get_key_loop_total (S fuel) f ks b br key) as [[[k b1] f1] ->];
      [lia..|done|]. by eexists _, _, _.
  - intros f0 b0 Hsh0. apply get_key_total; [lia|done].
Qed.


(** ** Inversion of the decoding steps *)

Ltac bind_inv H :=
  let a := fresh "a" in
  let Ha := fresh "Ha" in
  apply bind_Ok in H as (a & Ha & H).

Lemma table_get_Ok t i e :
  table_get t i = Ok e → 0 ≤ i < bulk t ∧ entries t !! i = Some e.
Proof.
  unfold table_get.
  destruct (0 <=? i) eqn:H1, (i <? bulk t) eqn:H2; simpl; try discriminate.
  intros ?%use_Ok. apply Z.leb_le in H1. apply Z.ltb_lt in H2. auto.
Qed.

Lemma table_get_some t i e :
  0 ≤ i < bulk t → entries t !! i = Some e → table_get t i = Ok e.
Proof.
  intros [H1 H2] He. unfold table_get.
  apply Z.leb_le in H1. apply Z.ltb_lt in H2. by rewrite H1, H2, He.
Qed.

Lemma table_set_Ok t i e t' :
  table_set t i e = Ok t' →
  0 ≤ i < bulk t ∧ t' = mkTable (bulk t) (nentries t) (<[i := e]> (entries t)).
Proof.
  unfold table_set.
  destruct (0 <=? i) eqn:H1, (i <? bulk t) eqn:H2; simpl; try discriminate.
  intros [= <-]. apply Z.leb_le in H1. apply Z.ltb_lt in H2. auto.
Qed.

Lemma add_entry_store_Ok t l p c r t' :
  add_entry_store t l p c = Ok (r, t') →
  0 ≤ nentries t < bulk t ∧
  t' = mkTable (bulk t) (nentries t + 1)
         (<[nentries t := Entry.mk (u16 l) (u16 p) (u8 c)]> (entries t)) ∧
  r = (if Z.land (nentries t + 1) (nentries t) =? 0 then 1 else 0).
Proof.
  unfold add_entry_store. intros H. bind_inv H.
  apply table_set_Ok in Ha as [Hb ->]. cbn [nentries] in H.
  bind_inv H. apply int_Ok in Ha as [-> _].
  replace (nentries t + 1 - 1) with (nentries t) in H by lia.
  unfold set_nentries in H. cbn [bulk entries] in H.
  destruct (Z.land _ _ =? 0); injection H as <- <-; auto.
Qed.

(** [add_entry] when it does not report a failed allocation. *)
Lemma add_entry_Ok t l p c r t' :
  add_entry t l p c = Ok (r, t') → r ≠ -1 →
  0 ≤ nentries t < bulk t' ∧ bulk t ≤ bulk t' ∧
  nentries t' = nentries t + 1 ∧
  entries t'
  = <[nentries t := Entry.mk (u16 l) (u16 p) (u8 c)]> (entries t) ∧
  r = (if Z.land (nentries t + 1) (nentries t) =? 0 then 1 else 0).
Proof.
  unfold add_entry. intros H Hr.
  destruct (nentries t =? bulk t) eqn:E.
  - apply Z.eqb_eq in E. bind_inv H. apply int_Ok in Ha as [-> _].
    destruct (alloc_ok _); [|by injection H as <- _].
    apply add_entry_store_Ok in H as (Hb & -> & ->).
    cbn [bulk nentries entries] in *. repeat split; try done; lia.
  - apply add_entry_store_Ok in H as (Hb & -> & ->).
    cbn [bulk nentries entries] in *. repeat split; try done; lia.
Qed.

(** The three ways through the head of the loop. *)
Lemma lzw_top_Ok ini clear s s1 :
  lzw_top ini clear s = Ok (Some s1) →
  (key s = clear ∧ ∃ t n,
     table s = Some t ∧ shl 1 (ini - 1) = Ok n ∧
     s1 = mkLzw (bits s) ini (Some false) (frm_off s) (str_len s) (key s)
            (ret s) (Some (set_nentries t (n + 2))) (entry s)) ∨
  (key s ≠ clear ∧ table_is_full s = Some true ∧ s1 = s) ∨
  (key s ≠ clear ∧ table_is_full s = Some false ∧ ∃ l e t r t',
     str_len s = Some l ∧ entry s = Some e ∧ table s = Some t ∧
     add_entry t (l + 1) (key s) (Entry.suffix e) = Ok (r, t') ∧ r ≠ -1 ∧
     s1 = (if nentries t' =? 0x1000 then
             mkLzw (bits s) (key_size s) (Some true) (frm_off s) (str_len s)
               (key s) 0 (Some t') (entry s)
           else
             mkLzw (bits s) (key_size s) (table_is_full s) (frm_off s)
               (str_len s) (key s) r (Some t') (entry s))).
Proof.
  unfold lzw_top. intros H. destruct (Z.eqb_spec (key s) clear) as [E|E].
  - left. split; [done|]. bind_inv H. apply deref_Ok in Ha.
    bind_inv H. injection H as <-. eauto.
  - right. bind_inv H. apply use_Ok in Ha. destruct a; simpl in H.
    + left. by injection H as <-.
    + right. repeat (split; [done|]).
      bind_inv H. apply use_Ok in Ha0.
      bind_inv H. apply use_Ok in Ha1.
      bind_inv H. apply deref_Ok in Ha2.
      bind_inv H. destruct a2 as [r t'].
      destruct (Z.eqb_spec r (-1)) as [->|Hr]; [discriminate|].
      exists a, a0, a1, r, t'. repeat (split; [done|]).
      destruct (nentries t' =? 4096); by injection H as <-.
Qed.

(** A turn that goes back to the head of the loop. *)
Lemma lzw_iter_Continue fuel x y w ini clear stop s gif s' gif' :
  lzw_iter fuel x y w ini clear stop s gif = Ok (Continue s' gif') →
  ∃ s1 k b f,
    lzw_top ini clear s = Ok (Some s1) ∧
    get_key (fd gif) (key_size s1) (bits s1) = Ok (k, b, f) ∧
    let s2 := mkLzw b (key_size s1) (table_is_full s1) (frm_off s1)
                (str_len s1) k (ret s1) (table s1) (entry s1) in
    (k = clear ∧ s' = s2 ∧ gif' = set_fd gif f) ∨
    (k ≠ clear ∧ k ≠ stop ∧
     lzw_string fuel x y w s2 (set_fd gif f) = Ok (s', gif')).
Proof.
  unfold lzw_iter. intros H. bind_inv H. destruct a as [s1|]; [|discriminate].
  bind_inv H. destruct a as [[k b] f]. exists s1, k, b, f.
  repeat (split; [done|]).
  destruct (Z.eqb_spec k clear) as [->|Hc].
  - left. by injection H as <- <-.
  - right. destruct (Z.eqb_spec k stop) as [->|Hs]; [discriminate|].
    bind_inv H. destruct a as [s2 g2]. injection H as <- <-. auto.
Qed.

(** The tail of a turn, step by step. *)
Lemma lzw_string_Ok fuel x y w s gif s' gif' :
  lzw_string fuel x y w s gif = Ok (s', gif') →
  ∃ ks t e e1 off t',
    (if ret s =? 1 then int (key_size s + 1) else Ok (key_size s)) = Ok ks ∧
    table s = Some t ∧ table_get t (key s) = Ok e ∧
    emit fuel gif t x y w (frm_off s) e = Ok (e1, gif') ∧
    int (frm_off s + Entry.length e) = Ok off ∧
    (if key s <? nentries t - 1 then
       full ← use (table_is_full s);
       if negb full then
         table_set_suffix t (nentries t - 1) (Entry.suffix e1)
       else Ok t
     else Ok t) = Ok t' ∧
    s' = mkLzw (bits s) ks (table_is_full s) off (Some (Entry.length e))
           (key s) (ret s) (Some t') (Some e1).
Proof.
  unfold lzw_string. intros H.
  bind_inv H. bind_inv H. apply deref_Ok in Ha0. bind_inv H.
  bind_inv H. destruct a2 as [e1 g1]. bind_inv H. bind_inv H.
  injection H as <- <-. exists a, a0, a1, e1, a2, a3. auto 10.
Qed.

(** ** Powers of two *)

(** The test of [add_entry]: for a positive [n], [n & (n - 1)] is zero
    only if [n] is a power of two. *)
Lemma land_pred_0 n : 0 < n → Z.land n (n - 1) = 0 → n = 2 ^ Z.log2 n.
Proof.
  intros Hn H0. destruct (Z.log2_spec n Hn) as [Hl Hu].
  destruct (Z.eq_dec n (2 ^ Z.log2 n)) as [|Hne]; [done|exfalso].
  assert (Z.log2 (n - 1) = Z.log2 n) as Hlog.
  { apply Z.log2_unique; [apply Z.log2_nonneg | lia]. }
  assert (Z.testbit (Z.land n (n - 1)) (Z.log2 n) = true) as Hb.
  { rewrite Z.land_spec, Z.bit_log2 by done.
    rewrite <- Hlog. rewrite Z.bit_log2; [done|].
    assert (0 < 2 ^ Z.log2 n) by (apply Z.pow_pos_nonneg;
      [lia | apply Z.log2_nonneg]). lia. }
  rewrite H0, Z.bits_0 in Hb. discriminate.
Qed.

Lemma land_pred_pow2 j : 0 ≤ j → Z.land (2 ^ j) (2 ^ j - 1) = 0.
Proof.
  intros Hj. apply Z.bits_inj'. intros n Hn.
  rewrite Z.land_spec, Z.bits_0, Z.pow2_bits_eqb by done.
  destruct (Z.eqb_spec j n) as [->|]; [|done].
  replace (2 ^ n - 1) with (Z.ones n) by (rewrite Z.ones_equiv; lia).
  rewrite Z.ones_spec_high; [done | lia].
Qed.

Lemma pow2_lt_inv a b : 0 ≤ b → 2 ^ a < 2 ^ b → a < b.
Proof.
  intros Hb H. destruct (Z.lt_ge_cases a b) as [|Hge]; [done|].
  apply (Z.pow_le_mono_r 2) in Hge; lia.
Qed.

(** ** The start of a decoding session *)

Lemma read1_range f o b f' :
  read1 f o = (Some b, f') → (∀ z, o = Some z → 0 ≤ z < 256) → 0 ≤ b < 256.
Proof.
  unfold read1, read. destruct (take 1 (drop (pos f) (data f))) as [|c l];
    simpl; intros [= Hb _] Ho; [eauto|]. subst b. apply Z_of_byte_range.
Qed.

Lemma get_key_range f ks b k b' f' :
  get_key f ks b = Ok (k, b', f') → 0 ≤ k < 65536.
Proof.
  unfold get_key. intros H. bind_inv H. destruct a as [[k0 b0] f0].
  bind_inv H. injection H as <- _ _. apply u16_range.
Qed.

Lemma literals_lookup n i :
  literals n !! i
  = if bool_decide (0 ≤ i < Z.of_nat n)
    then Some (Entry.mk 1 0xFFF (u8 i)) else None.
Proof.
  induction n as [|n IH]; cbn [literals].
  - rewrite lookup_empty. by case_bool_decide; [lia|].
  - destruct (decide (Z.of_nat n = i)) as [Heq|Hne].
    + clear IH. rewrite <- Heq, lookup_insert_eq.
      by case_bool_decide; [|lia].
    + rewrite lookup_insert_ne, IH by done. clear IH.
      repeat case_bool_decide; try done; lia.
Qed.

Lemma pow2_bounds K : 0 ≤ K ≤ 11 → 1 ≤ 2 ^ K ≤ 2048.
Proof.
  intros HK. assert (0 < 2 ^ K) by (apply Z.pow_pos_nonneg; lia).
  assert (2 ^ K ≤ 2 ^ 11) by (apply Z.pow_le_mono_r; lia).
  change (2 ^ 11) with 2048 in *. lia.
Qed.

Lemma new_table_wf K t :
  0 ≤ K ≤ 11 → new_table K = Ok (Some t) →
  wf_table K t ∧ nentries t = 2 ^ K + 2.
Proof.
  intros HK H. unfold new_table in H. pose proof (pow2_bounds K HK) as HP.
  rewrite !shl_1_fits in H by lia. cbn [mbind res_bind] in H.
  destruct (alloc_ok _); [|discriminate]. injection H as <-.
  split; [|done]. unfold wf_table. cbn [nentries bulk entries].
  assert (2 ^ (K + 1) = 2 * 2 ^ K) as Hp.
  { rewrite Z.pow_add_r by lia. change (2 ^ 1) with 2. lia. }
  split; [lia|]. split.
  { unfold MAX. rewrite Hp.
    destruct (Z.gtb_spec (2 * 2 ^ K) 256); [|lia].
    destruct (Z.eq_dec (2 ^ K) 1); lia. }
  intros i [Hi|Hi] Hn; [|lia].
  exists (Entry.mk 1 0xFFF (u8 i)), [u8 i]. split.
  - rewrite literals_lookup. case_bool_decide; [done|lia].
  - apply (chain_lit _ _ (Entry.mk 1 0xFFF (u8 i))); [done..|apply u8_range].
Qed.

(** What [lzw_init] establishes when the width [init_key_size] it
    computes is at most 12: the literal width [K] is at most 11. *)
Lemma lzw_init_Ok gif ini clear stop s0 gif0 :
  lzw_init gif = Ok (ini, clear, stop, s0, gif0) → ini ≤ 12 →
  ∃ K, 0 ≤ K ≤ 11 ∧ ini = K + 1 ∧ clear = 2 ^ K ∧ stop = 2 ^ K + 1 ∧
    key_size s0 = ini ∧ ret s0 = 0 ∧ frm_off s0 = 0 ∧
    table_is_full s0 = None ∧ str_len s0 = None ∧ entry s0 = None ∧
    0 ≤ key s0 < 65536 ∧
    (∀ t, table s0 = Some t → wf_table K t ∧ nentries t = 2 ^ K + 2) ∧
    stores gif0 = stores gif ∧ frame gif0 = frame gif ∧
    width gif0 = width gif.
Proof.
  unfold lzw_init. intros H Hini.
  destruct (read1 (fd gif) None) as [byt f] eqn:Er.
  bind_inv H. apply use_Ok in Ha as ->.
  apply read1_range in Er as HK; [|done].
  bind_inv H. apply shl_Ok in Ha as (-> & _ & _).
  bind_inv H. rename a0 into t. bind_inv H. destruct a0 as [[k b] f'].
  injection H as <- <- <- <- <-.
  rewrite Z.mul_1_l in *.
  exists a. assert (0 ≤ a ≤ 11) as HK' by lia.
  pose proof (pow2_bounds a HK') as HP.
  rewrite !u16_small by (rewrite ?u16_small; lia).
  repeat (split; [done || lia|]). split.
  { by eapply get_key_range. }
  split; [|done]. cbn [table]. intros t' ->. by apply new_table_wf.
Qed.

(** ** The size of the table and the width of the codes *)

Lemma lzw_top_size K s s1 :
  0 ≤ K ≤ 11 → size_inv K s →
  lzw_top (K + 1) (2 ^ K) s = Ok (Some s1) →
  size_inv K s1 ∧
  bits s1 = bits s ∧ frm_off s1 = frm_off s ∧ str_len s1 = str_len s ∧
  key s1 = key s ∧ entry s1 = entry s ∧
  ((key s = 2 ^ K ∧ key_size s1 = K + 1 ∧ ret s1 = ret s ∧
    table_is_full s1 = Some false ∧
    ∃ t, table s = Some t ∧ table s1 = Some (set_nentries t (2 ^ K + 2))) ∨
   (key s ≠ 2 ^ K ∧ table_is_full s = Some true ∧ s1 = s) ∨
   (key s ≠ 2 ^ K ∧ table_is_full s = Some false ∧
    key_size s1 = key_size s ∧
    ∃ t t1, table s = Some t ∧ table s1 = Some t1 ∧
      nentries t1 = nentries t + 1 ∧
      ret s1 = (if grows t t1 then 1 else 0) ∧
      table_is_full s1 = Some (nentries t1 =? 0x1000))).
Proof.
  intros HK Hinv H. pose proof (pow2_bounds K HK) as HP.
  apply lzw_top_Ok in H as [(Hk & t & n & Ht & Hn & ->)|
    [(Hk & Hf & ->)|(Hk & Hf & l & e & t & r & t' & Hl & He & Ht & Ha & Hr & ->)]].
  - replace (K + 1 - 1) with K in Hn by lia.
    rewrite shl_1_fits in Hn by lia. injection Hn as <-.
    split; [|repeat (split; [done|]); left; eauto 10].
    intros t1 [= <-]. cbn. repeat split; try lia; done.
  - split; [done|]. repeat (split; [done|]). right. left. done.
  - destruct (Hinv t Ht) as (Hn & _ & Hnf). specialize (Hnf Hf).
    apply add_entry_Ok in Ha as (Hb & Hbu & Hn' & He' & ->); [|done].
    assert (grows t t' = (Z.land (nentries t + 1) (nentries t) =? 0)
                         && negb (nentries t' =? 4096)) as Hg.
    { unfold grows. rewrite Hn', Z.eqb_refl.
      by replace (nentries t + 1 - 1) with (nentries t) by lia. }
    destruct (Z.eqb_spec (nentries t') 4096) as [E|E]; cbn.
    + split.
      { intros t1 [= <-]. repeat split; try lia. done. }
      repeat (split; [done|]). right. right.
      repeat (split; [done|]). exists t, t'.
      assert ((nentries t' =? 4096) = true) as Hq by (by apply Z.eqb_eq).
      rewrite Hg, andb_false_r, ?Hq. by repeat (split; [done|]).
    + split.
      { intros t1 [= <-]. rewrite Hf. repeat split; try lia; done. }
      repeat (split; [done|]). right. right.
      repeat (split; [done|]). exists t, t'.
      assert ((nentries t' =? 4096) = false) as Hq by (by apply Z.eqb_neq).
      rewrite Hg, andb_true_r, ?Hq. by repeat (split; [done|]).
Qed.

Lemma table_set_suffix_Ok t i v t' :
  table_set_suffix t i v = Ok t' →
  nentries t' = nentries t ∧ bulk t' = bulk t ∧ 0 ≤ i < bulk t ∧
  ((entries t !! i = None ∧ t' = t) ∨
   ∃ e, entries t !! i = Some e ∧
     entries t' = <[i := Entry.mk (Entry.length e) (Entry.prefix e) v]>
                    (entries t)).
Proof.
  unfold table_set_suffix.
  destruct (0 <=? i) eqn:H1, (i <? bulk t) eqn:H2; simpl; try discriminate.
  apply Z.leb_le in H1. apply Z.ltb_lt in H2.
  destruct (entries t !! i) as [e|] eqn:E; intros [= <-]; eauto 10.
Qed.

(** What the tail of a turn does to the locals other than the
    contents of the table. *)
Lemma lzw_string_fields fuel x y w s gif s' gif' :
  lzw_string fuel x y w s gif = Ok (s', gif') →
  bits s' = bits s ∧ table_is_full s' = table_is_full s ∧
  key s' = key s ∧ ret s' = ret s ∧
  key_size s' = (if ret s =? 1 then key_size s + 1 else key_size s) ∧
  ∃ t t' e e1,
    table s = Some t ∧ table s' = Some t' ∧
    nentries t' = nentries t ∧ bulk t' = bulk t ∧
    (table_is_full s = Some true → t' = t) ∧
    table_get t (key s) = Ok e ∧
    emit fuel gif t x y w (frm_off s) e = Ok (e1, gif').
Proof.
  intros H. apply lzw_string_Ok in H
    as (ks & t & e & e1 & off & t' & Hks & Ht & He & Hem & Hoff & Hp & ->).
  cbn. repeat (split; [done|]). split.
  { destruct (ret s =? 1); [by apply int_Ok in Hks as [-> _] | congruence]. }
  exists t, t', e, e1. repeat (split; [done|]).
  destruct (key s <? nentries t - 1).
  - bind_inv Hp. apply use_Ok in Ha. rewrite Ha. destruct a; simpl in Hp.
    + injection Hp as <-. done.
    + apply table_set_suffix_Ok in Hp as (? & ? & _). by repeat split.
  - injection Hp as <-. done.
Qed.

(** An invariant of the turns of the loop. *)
Lemma lzw_turns_inv (I : Lzw → gd_GIF → Prop) P fuel x y w ini clear stop
    s0 g0 :
  I s0 g0 →
  (∀ s g s' g', I s g →
     lzw_iter fuel x y w ini clear stop s g = Ok (Continue s' g') →
     P s' = true → I s' g') →
  ∀ n s g,
    lzw_turns P fuel n x y w ini clear stop s0 g0 = Some (s, g) → I s g.
Proof.
  intros H0 Hstep n. induction n as [|n IH]; intros s g H; cbn in H.
  - by injection H as <- <-.
  - destruct (lzw_turns _ _ n _ _ _ _ _ _ _ _) as [[s1 g1]|]; [|done].
    destruct (lzw_iter _ _ _ _ _ _ _ _ _) as [[s2 g2| |]| |] eqn:E; try done.
    destruct (P s2) eqn:EP; [|done]. injection H as <- <-. eauto.
Qed.

Lemma size_inv_step K fuel x y w s g s' g' :
  0 ≤ K ≤ 11 → size_inv K s →
  lzw_iter fuel x y w (K + 1) (2 ^ K) (2 ^ K + 1) s g = Ok (Continue s' g') →
  size_inv K s'.
Proof.
  intros HK Hinv H.
  apply lzw_iter_Continue in H as (s1 & k & b & f & Htop & _ & H).
  apply lzw_top_size in Htop as (Hinv1 & _); [|done..]. cbn zeta in H.
  destruct H as [(_ & -> & _)|(_ & _ & H)]; [done|].
  apply lzw_string_fields in H
    as (_ & Hf & _ & _ & _ & t & t' & _ & _ & Ht & Ht' & Hn & _).
  cbn in Hf, Ht. intros t2 Ht2. rewrite Ht' in Ht2. injection Ht2 as <-.
  rewrite Hf, Hn. by apply Hinv1.
Qed.

(** C6 (as amended): in a session whose first code width is at most 12
    (a literal width of at most 11), [nentries] never exceeds [0x1000]
    in a state the loop reaches; a turn entered with the clear code
    resets [nentries] to [(1 << init_key_size - 1) + 2]; and a turn
    entered with [0x1000] entries and another code leaves the table
    as it is, and unless it reads a clear code it emits the string of
    its code from that table. *)
Theorem nentries_bounded gif ini clear stop s0 g0 fuel n x y w s g t :
  lzw_init gif = Ok (ini, clear, stop, s0, g0) → ini ≤ 12 →
  lzw_turns any_turn fuel n x y w ini clear stop s0 g0 = Some (s, g) →
  table s = Some t →
  nentries t ≤ 0x1000 ∧
  ∀ s' g',
    lzw_iter fuel x y w ini clear stop s g = Ok (Continue s' g') →
    (key s = clear →
       ∃ t', table s' = Some t' ∧ nentries t' = 2 ^ (ini - 1) + 2) ∧
    (key s ≠ clear → nentries t = 0x1000 →
       table s' = Some t ∧
       (key s' = clear ∨
        ∃ e e1 g1, table_get t (key s') = Ok e ∧
          emit fuel g1 t x y w (frm_off s) e = Ok (e1, g'))).
Proof.
  intros Hinit Hini Hrun Ht.
  apply lzw_init_Ok in Hinit
    as (K & HK & -> & -> & -> & _ & _ & _ & Hfull0 & _ & _ & _ & Ht0 & _);
    [|done].
  assert (size_inv K s) as Hinv.
  { revert Hrun. apply (lzw_turns_inv (λ s _, size_inv K s)).
    - intros t0 Ht0'. destruct (Ht0 t0 Ht0') as [(Hn & _) Hn'].
      rewrite Hn', Hfull0. pose proof (pow2_bounds K HK).
      repeat split; try lia; intros; congruence.
    - intros s1 g1 s2 g2 Hi Hs _. by eapply size_inv_step. }
  destruct (Hinv t Ht) as (Hn & Hft & Hff). split; [lia|].
  intros s' g' H.
  apply lzw_iter_Continue in H as (s1 & k & b & f & Htop & _ & H).
  apply lzw_top_size in Htop
    as (_ & _ & Hoff & _ & _ & _ & Hc); [|done..]. cbn zeta in H.
  replace (K + 1 - 1) with K by lia. split.
  - intros Hk. destruct Hc as [(_ & _ & _ & _ & t1 & Ht1 & Ht1')|
      [(? & _)|(? & _)]]; [|done..].
    destruct H as [(_ & -> & _)|(_ & _ & H)]; cbn; [eauto|].
    apply lzw_string_fields in H
      as (_ & _ & _ & _ & _ & t2 & t' & _ & _ & Ht2 & Ht' & Hn' & _).
    cbn in Ht2. rewrite Ht1' in Ht2. injection Ht2 as <-. eauto.
  - intros Hk Hfull.
    destruct Hc as [(? & _)|[(_ & Hf & ->)|(_ & Hf & _)]]; [done| |].
    2: { specialize (Hff Hf). lia. }
    destruct H as [(-> & -> & _)|(_ & _ & H)]; cbn; [auto|].
    apply lzw_string_fields in H
      as (_ & _ & Hk' & _ & _ & t2 & t' & e & e1 & Ht2 & Ht' & _ & _ & Hsame
          & He & Hem).
    cbn in Ht2, Hsame, He, Hem, Hk'. rewrite Ht in Ht2. injection Ht2 as <-.
    rewrite Hsame in Ht' by done. split; [done|]. right.
    rewrite Hk'. eauto.
Qed.

Lemma grows_pow2 t t1 :
  0 ≤ nentries t → nentries t1 ≤ 0x1000 → grows t t1 = true →
  ∃ j, 0 ≤ j < 12 ∧ nentries t1 = 2 ^ j.
Proof.
  unfold grows. intros Hn Hn1 H.
  apply andb_true_iff in H as [H Hne]. apply andb_true_iff in H as [He Hl].
  apply Z.eqb_eq in He, Hl. apply negb_true_iff, Z.eqb_neq in Hne.
  apply land_pred_0 in Hl; [|lia]. exists (Z.log2 (nentries t1)).
  split; [|done]. split; [apply Z.log2_nonneg|].
  apply pow2_lt_inv; [done|]. rewrite <- Hl. change (2 ^ 12) with 4096. lia.
Qed.

(** One turn of the loop, for the width of the codes. *)
Lemma width_inv_step K fuel x y w s g s' g' :
  0 ≤ K ≤ 11 → size_inv K s → width_inv K s →
  no_clear_on_grow (2 ^ K) s = true →
  lzw_iter fuel x y w (K + 1) (2 ^ K) (2 ^ K + 1) s g = Ok (Continue s' g') →
  width_inv K s' ∧
  ∀ t t', table s = Some t → table s' = Some t' →
    key_size s'
    = (if key s =? 2 ^ K then K + 1 else key_size s)
      + (if negb (key s' =? 2 ^ K) && grows t t' then 1 else 0).
Proof.
  intros HK Hsz (Hks & Hfr & Hlow) HP H. pose proof (pow2_bounds K HK) as HP2.
  apply lzw_iter_Continue in H as (s1 & k & b & f & Htop & _ & H).
  apply lzw_top_size in Htop
    as (Hsz1 & _ & _ & _ & _ & _ & Hc); [|done..]. cbn zeta in H.
  assert (∀ t : Table, grows t t = false) as Hng'.
  { intros t. unfold grows.
    destruct (Z.eqb_spec (nentries t) (nentries t + 1)); [lia|done]. }
  destruct Hc as [(Hk & Hks1 & Hret1 & Hf1 & t & Ht & Ht1)|
    [(Hk & Hf & ->)|(Hk & Hf & Hks1 & t & t1 & Ht & Ht1 & Hn1 & Hret1 & Hf1)]].
  - (* the turn starts with the clear code *)
    apply (proj2 (Z.eqb_eq _ _)) in Hk as Hkb. rewrite Hkb.
    unfold no_clear_on_grow in HP. rewrite Hkb in HP. cbn in HP.
    apply negb_true_iff in HP. destruct (Hsz t Ht) as (Hn & _).
    assert (∀ t' : Table, nentries t' = 2 ^ K + 2 → grows t t' = false) as Hng.
    { intros t' Hn'. unfold grows. rewrite Hn'.
      destruct (Z.eqb_spec (2 ^ K + 2) (nentries t + 1)); [lia|done]. }
    destruct H as [(-> & -> & _)|(Hkc & _ & H)]; cbn.
    + rewrite Z.eqb_refl. cbn. split; [|intros; lia].
      unfold width_inv. cbn. rewrite Hks1, Hf1, Ht1.
      split; [lia|]. split; [done|]. intros ? [= <-]. cbn.
      replace (K + 1 - 1) with K by lia. lia.
    + apply lzw_string_fields in H
        as (_ & Hf' & Hk' & Hr' & Hks' & t2 & t' & _ & _ & Ht2 & Ht' & Hn' & _).
      cbn in Hf', Hk', Hr', Hks', Ht2. rewrite Hret1, HP, Hks1 in Hks'.
      rewrite Ht1 in Ht2. injection Ht2 as <-. cbn in Hn'. split.
      * unfold width_inv. rewrite Hks', Hf', Hf1, Ht'.
        split; [lia|]. split; [done|]. intros ? [= <-].
        rewrite Hn'. replace (K + 1 - 1) with K by lia. lia.
      * intros t0 t0' Ht0 Ht0'. rewrite Ht in Ht0. rewrite Ht' in Ht0'.
        injection Ht0 as <-. injection Ht0' as <-.
        rewrite Hng, andb_false_r by done. lia.
  - (* the table is full *)
    apply (proj2 (Z.eqb_neq _ _)) in Hk as Hkb. rewrite Hkb.
    specialize (Hfr Hf).
    destruct H as [(-> & -> & _)|(Hkc & _ & H)]; cbn.
    + split; [done|]. intros t t' Ht Ht'. rewrite Ht in Ht'.
      injection Ht' as <-. rewrite Hng', andb_false_r. lia.
    + apply lzw_string_fields in H
        as (_ & Hf' & Hk' & Hr' & Hks' & t2 & t' & _ & _ & Ht2 & Ht' & Hn' & _
            & Hsame & _).
      cbn in Hf', Hk', Hr', Hks', Ht2, Hsame. rewrite Hfr in Hks'. cbn in Hks'.
      rewrite (Hsame Hf) in *. split.
      * unfold width_inv. rewrite Hks', Hf', Hr', Ht'.
        split; [lia|]. split; [done|]. intros ? [= <-]. by apply Hlow.
      * intros t0 t0' Ht0 Ht0'. rewrite Ht2 in Ht0. rewrite Ht' in Ht0'.
        injection Ht0 as <-. injection Ht0' as <-.
        rewrite Hng', andb_false_r. lia.
  - (* an entry is added *)
    apply (proj2 (Z.eqb_neq _ _)) in Hk as Hkb. rewrite Hkb.
    destruct (Hsz t Ht) as (Hn & _).
    destruct (Hsz1 t1 Ht1) as (Hn1' & Hfull1 & _).
    specialize (Hlow t Ht).
    destruct H as [(-> & -> & _)|(Hkc & _ & H)]; cbn.
    + rewrite Z.eqb_refl. cbn. split; [|intros; lia].
      unfold width_inv. cbn. rewrite Hks1, Hf1, Hret1, Ht1.
      split; [lia|]. split.
      * intros [= Hq]. unfold grows. by rewrite Hq, andb_false_r.
      * intros ? [= <-]. lia.
    + apply lzw_string_fields in H
        as (_ & Hf' & Hk' & Hr' & Hks' & t2 & t' & _ & _ & Ht2 & Ht' & Hn' & _).
      cbn in Hf', Hk', Hr', Hks', Ht2. rewrite Ht1 in Ht2. injection Ht2 as <-.
      assert (grows t t' = grows t t1) as Hgg by (unfold grows; by rewrite Hn').
      rewrite Hks1, Hret1 in Hks'.
      assert ((k =? 2 ^ K) = false) as Hkc' by (by apply Z.eqb_neq).
      destruct (grows t t1) eqn:Hg; cbn in Hks'.
      * apply grows_pow2 in Hg as (j & Hj & Hpow); [|lia..].
        assert (key_size s - 1 < j) as Hlt.
        { apply pow2_lt_inv; [lia|]. rewrite <- Hpow. lia. }
        split.
        -- unfold width_inv. rewrite Hks', Hf', Hf1, Hr', Hret1, Ht'.
           split; [lia|]. split.
           ++ intros [= Hq]. apply Z.eqb_eq in Hq. rewrite Hq in Hpow.
              change 4096 with (2 ^ 12) in Hpow.
              apply Z.pow_inj_r in Hpow; lia.
           ++ intros ? [= <-]. rewrite Hn', Hpow.
              apply Z.pow_le_mono_r; lia.
        -- intros t0 t0' Ht0 Ht0'. rewrite Ht in Ht0. rewrite Ht' in Ht0'.
           injection Ht0 as <-. injection Ht0' as <-.
           rewrite Hk', Hkc', Hgg. cbn. lia.
      * split.
        -- unfold width_inv. rewrite Hks', Hf', Hf1, Hr', Hret1, Ht'.
           split; [lia|]. split; [done|]. intros ? [= <-]. lia.
        -- intros t0 t0' Ht0 Ht0'. rewrite Ht in Ht0. rewrite Ht' in Ht0'.
           injection Ht0 as <-. injection Ht0' as <-.
           rewrite Hgg, andb_false_r. lia.
Qed.

(** C2 (as amended): in a session whose first code width
    [init_key_size] is at most 12, and in which no clear code is
    read while the last addition asked for a wider key, the width
    [key_size] stays between [init_key_size] and 12; and each turn
    leaves it at its value ([init_key_size] after a clear code) plus
    one exactly when the turn added an entry that made the size of
    the table a power of two below [0x1000] and then read a code
    other than the clear code: the width grows after that code is
    read and before its string is looked up. *)
Theorem key_size_bounded gif ini clear stop s0 g0 fuel n x y w s g :
  lzw_init gif = Ok (ini, clear, stop, s0, g0) → ini ≤ 12 →
  lzw_turns (no_clear_on_grow clear) fuel n x y w ini clear stop s0 g0
    = Some (s, g) →
  ini ≤ key_size s ≤ 12 ∧
  ∀ s' g' t t',
    lzw_iter fuel x y w ini clear stop s g = Ok (Continue s' g') →
    table s = Some t → table s' = Some t' →
    key_size s'
    = (if key s =? clear then ini else key_size s)
      + (if negb (key s' =? clear) && grows t t' then 1 else 0).
Proof.
  intros Hinit Hini Hrun.
  apply lzw_init_Ok in Hinit
    as (K & HK & -> & -> & -> & Hks0 & Hret0 & _ & Hfull0 & _ & _ & _ & Ht0 & _);
    [|done].
  pose proof (pow2_bounds K HK) as HP.
  assert (size_inv K s ∧ width_inv K s ∧ no_clear_on_grow (2 ^ K) s = true)
    as (Hsz & Hw & HPs).
  { revert Hrun.
    apply (lzw_turns_inv (λ s _, size_inv K s ∧ width_inv K s ∧
                                 no_clear_on_grow (2 ^ K) s = true)).
    - split; [|split].
      + intros t0 Ht0'. destruct (Ht0 t0 Ht0') as [(Hn & _) Hn'].
        rewrite Hn', Hfull0. repeat split; try lia; intros; congruence.
      + unfold width_inv. rewrite Hks0, Hfull0. split; [lia|].
        split; [done|]. intros t0 Ht0'. destruct (Ht0 t0 Ht0') as [_ ->].
        replace (K + 1 - 1) with K by lia. lia.
      + unfold no_clear_on_grow. rewrite Hret0. cbn. by rewrite andb_false_r.
    - intros s1 g1 s2 g2 (Hsz & Hw & HPs) Hs HP2. split; [|split; [|done]].
      + by eapply size_inv_step.
      + by eapply width_inv_step. }
  split; [apply Hw|]. intros s' g' t t' Hs Ht Ht'.
  eapply width_inv_step in Hs as [_ Hs]; [|done..]. by apply Hs.
Qed.

(** ** Strings of the table *)

Lemma chain_length m b e σ :
  chain m b e σ → Z.of_nat (length σ) = Entry.length e.
Proof.
  induction 1 as [b e Hp Hl Hs|b e e0 σ Hb Hp He Hl Hc IH]; [by rewrite Hl|].
  rewrite length_app, Hl, <- IH. cbn. lia.
Qed.

Lemma chain_head m b e σ :
  chain m b e σ → ∃ c, head σ = Some c ∧ 0 ≤ c < 256.
Proof.
  induction 1 as [b e Hp Hl Hs|b e e0 σ Hb Hp He Hl Hc (c & Hc' & Hr)];
    [by eexists|].
  exists c. split; [|done]. by destruct σ.
Qed.

Lemma chain_mono m b b' e σ : chain m b e σ → b ≤ b' → chain m b' e σ.
Proof.
  intros H Hb. destruct H; [by apply chain_lit|].
  eapply chain_cons; [lia|done..].
Qed.

(** A store into a slot that the chain does not pass. *)
Lemma chain_insert m b e σ n e' :
  chain m b e σ → b ≤ n → chain (<[n := e']> m) b e σ.
Proof.
  induction 1 as [b e Hp Hl Hs|b e e0 σ Hb Hp He Hl Hc IH]; intros Hn;
    [by apply chain_lit|].
  eapply chain_cons; [done..| |done|apply IH; lia].
  rewrite lookup_insert_ne; [done|lia].
Qed.

Lemma chain_size m b e σ : chain m b e σ → 0 ≤ b → Z.of_nat (length σ) ≤ b + 1.
Proof.
  induction 1 as [b e Hp Hl Hs|b e e0 σ Hb Hp He Hl Hc IH]; intros Hb0;
    [cbn; lia|].
  rewrite length_app. cbn. lia.
Qed.

Lemma chain_steps m b e σ i n :
  chain m b e σ → m !! i = Some e → (length σ ≤ S n)%nat →
  steps_to_literal m n i = Some (length σ - 1)%nat.
Proof.
  intros H. revert i n.
  induction H as [b e Hp Hl Hs|b e e0 σ Hb Hp He Hl Hc IH]; intros i n Hi Hn.
  - destruct n; cbn; by rewrite Hi, Hp.
  - assert (0 < length σ)%nat.
    { apply chain_head in Hc as (c & Hc & _). destruct σ; [done|cbn; lia]. }
    rewrite length_app in *. cbn in Hn. destruct n as [|n]; [lia|].
    cbn. rewrite Hi. destruct (Z.eqb_spec (Entry.prefix e) 4095); [done|].
    rewrite (IH _ n He) by lia. cbn. f_equal. lia.
Qed.

(** ** The emission loop *)

Lemma store_frame_Ok g i v g' :
  store_frame g i v = Ok g' →
  0 ≤ i < Z.of_nat (length (frame g)) ∧
  g' = mkGIF (fd g) (width g) (height g) (loop_count g) (gce g) (palette g)
         (lct g) (gct g) (<[Z.to_nat i := v]> (frame g)) ((i, v) :: stores g).
Proof.
  unfold store_frame.
  destruct (0 <=? i) eqn:H1, (i <? _) eqn:H2; simpl; try discriminate.
  intros [= <-]. apply Z.leb_le in H1. apply Z.ltb_lt in H2. auto.
Qed.

Lemma placed_snoc W x y w off σ c :
  placed W x y w off (σ ++ [c])
  = placed W x y w off σ
    ++ [(pixel_index W x y w (off + Z.of_nat (length σ)), c)].
Proof.
  unfold placed. rewrite imap_app. cbn. do 4 f_equal. lia.
Qed.

Lemma placed_length W x y w off σ : length (placed W x y w off σ) = length σ.
Proof. unfold placed. apply length_imap. Qed.

(** What the emission loop has done when it returns: the string of
    the entry is stored at the linear offsets from [frm_off] on, and
    the entry left in [entry] is the literal the string starts
    with. *)
Lemma emit_chain t x y w off b e σ :
  chain (entries t) b e σ →
  ∀ fuel gif e1 gif',
    emit fuel gif t x y w off e = Ok (e1, gif') →
    stores gif' = placed (width gif) x y w off σ ++ stores gif ∧
    Entry.prefix e1 = 0xFFF ∧ 0 ≤ Entry.suffix e1 < 256 ∧
    head σ = Some (Entry.suffix e1) ∧
    width gif' = width gif ∧ fd gif' = fd gif ∧
    length (frame gif') = length (frame gif) ∧ w ≠ 0.
Proof.
  induction 1 as [b e Hp Hl Hs|b e e0 σ Hb Hp He Hl Hc IH];
    intros [|fuel] gif e1 gif' H; try discriminate; cbn [emit] in H.
  - bind_inv H. apply int_Ok in Ha as [-> _].
    destruct (Z.eqb_spec w 0) as [|Hw]; [discriminate|].
    bind_inv H. apply int_Ok in Ha as [-> _].
    bind_inv H. apply store_frame_Ok in Ha as [_ ->].
    rewrite Hp in H. cbn in H. injection H as <- <-. cbn.
    rewrite length_insert. repeat split; try done; try lia.
    unfold placed. cbn. do 3 f_equal. lia.
  - bind_inv H. apply int_Ok in Ha as [-> _].
    destruct (Z.eqb_spec w 0) as [|Hw]; [discriminate|].
    bind_inv H. apply int_Ok in Ha as [-> _].
    bind_inv H. apply store_frame_Ok in Ha as [_ ->].
    destruct (Z.eqb_spec (Entry.prefix e) 4095) as [|_]; [done|].
    bind_inv H. apply table_get_Ok in Ha as [_ Ha].
    rewrite He in Ha. injection Ha as <-.
    apply IH in H as (Hst & Hp1 & Hs1 & Hh & HW & Hfd & Hfr & _). cbn in *.
    rewrite length_insert in Hfr. repeat split; try done; try lia.
    + rewrite Hst, placed_snoc, <- app_assoc. cbn. do 4 f_equal.
      apply chain_length in Hc. lia.
    + destruct σ; [done|]. done.
Qed.

Lemma bind_fuel {A B} (m : res A) (f : A → res B) :
  m ≠ OutOfFuel → (∀ a, m = Ok a → f a ≠ OutOfFuel) → m ≫= f ≠ OutOfFuel.
Proof. destruct m; cbn; auto. Qed.

Lemma int_fuel z : int z ≠ OutOfFuel.
Proof. unfold int. by destruct (_ && _). Qed.

Lemma store_frame_fuel g i v : store_frame g i v ≠ OutOfFuel.
Proof. unfold store_frame. by destruct (_ && _). Qed.

(** With fuel for the length of the string the loop does not run
    out of it. *)
Lemma emit_fuel t x y w off b e σ :
  chain (entries t) b e σ → b ≤ bulk t →
  ∀ fuel gif, (length σ ≤ fuel)%nat →
    emit fuel gif t x y w off e ≠ OutOfFuel.
Proof.
  induction 1 as [b e Hp Hl Hs|b e e0 σ Hb Hp He Hl Hc IH];
    intros Hbulk [|fuel] gif Hf; rewrite ?length_app in Hf; cbn in Hf;
    try lia; cbn [emit].
  - apply bind_fuel; [apply int_fuel|]. intros p _.
    destruct (w =? 0); [done|].
    apply bind_fuel; [apply int_fuel|]. intros i _.
    apply bind_fuel; [apply store_frame_fuel|]. intros g _. by rewrite Hp.
  - apply bind_fuel; [apply int_fuel|]. intros p _.
    destruct (w =? 0); [done|].
    apply bind_fuel; [apply int_fuel|]. intros i _.
    apply bind_fuel; [apply store_frame_fuel|]. intros g _.
    destruct (Z.eqb_spec (Entry.prefix e) 4095) as [|_]; [done|].
    rewrite (table_get_some _ _ e0) by (done || lia). cbn.
    apply IH; lia.
Qed.

(** ** The table stays well formed *)

Lemma chain_unique m b e σ b' σ' : chain m b e σ → chain m b' e σ' → σ = σ'.
Proof.
  intros H. revert b' σ'.
  induction H as [b e Hp Hl Hs|b e e0 σ Hb Hp He Hl Hc IH]; intros b' σ' H';
    destruct H' as [b' e Hp' Hl' Hs'|b' e e0' σ' Hb' Hp' He' Hl' Hc'];
    try done.
  rewrite He in He'. injection He' as <-. f_equal. by eapply IH.
Qed.

Lemma wf_table_reset K t :
  wf_table K t → wf_table K (set_nentries t (2 ^ K + 2)).
Proof.
  intros (Hn & Hb & Hc). unfold wf_table. cbn. split; [lia|]. split; [lia|].
  intros i Hi Hlt. apply Hc; [done|lia].
Qed.

(** The entry [add_entry] appends after the code [k] of string [σ]
    spells [σ] and the suffix given. *)
Lemma wf_table_add K t k e σ c r t' :
  0 ≤ K ≤ 11 → wf_table K t → nentries t < 0x1000 →
  is_data K k → k < nentries t →
  entries t !! k = Some e → chain (entries t) k e σ → 0 ≤ c < 256 →
  add_entry t (Entry.length e + 1) k c = Ok (r, t') → r ≠ -1 →
  wf_table K t' ∧ nentries t' = nentries t + 1 ∧
  entries t' !! nentries t = Some (Entry.mk (Entry.length e + 1) k c) ∧
  chain (entries t') (nentries t) (Entry.mk (Entry.length e + 1) k c)
    (σ ++ [c]) ∧
  ∀ i, i < nentries t → entries t' !! i = entries t !! i.
Proof.
  intros HK (Hn & Hb & Hc) Hfull Hk Hkn He Hch Hcr Ha Hr.
  pose proof (pow2_bounds K HK) as HP.
  apply add_entry_Ok in Ha as (Hb' & Hbu & Hn' & He' & _); [|done].
  assert (0 ≤ k) as Hk0 by (destruct Hk; lia).
  pose proof (chain_size _ _ _ _ Hch Hk0) as Hsz.
  pose proof (chain_length _ _ _ _ Hch) as Hlen.
  rewrite !u16_small, u8_small in He' by lia.
  set (en := Entry.mk (Entry.length e + 1) k c) in *.
  assert (chain (entries t') (nentries t) en (σ ++ [c])) as Hnew.
  { rewrite He'. apply (chain_cons _ _ en e σ); cbn; [lia|lia| |done|].
    - rewrite lookup_insert_ne; [done|lia].
    - apply chain_insert; [done|lia]. }
  split; [|split; [done|split; [by rewrite He', lookup_insert_eq|split; [done|]]]].
  - unfold wf_table. rewrite Hn'. split; [lia|]. split; [lia|].
    intros i Hi Hlt. destruct (Z.eq_dec i (nentries t)) as [->|Hne].
    + exists en, (σ ++ [c]). split; [|done]. by rewrite He', lookup_insert_eq.
    + destruct (Hc i Hi) as (ei & σi & Hei & Hci); [lia|].
      exists ei, σi. rewrite He'. split.
      * rewrite lookup_insert_ne; [done|lia].
      * apply chain_insert; [done|lia].
  - intros i Hi. rewrite He', lookup_insert_ne; [done|lia].
Qed.

(** The fix-up of the suffix of the last entry. *)
Lemma wf_table_patch K t v t' :
  wf_table K t → 0 ≤ v < 256 →
  table_set_suffix t (nentries t - 1) v = Ok t' →
  wf_table K t' ∧ nentries t' = nentries t ∧
  ∀ i σ e, i < nentries t - 1 → entries t !! i = Some e →
    chain (entries t) i e σ →
    entries t' !! i = Some e ∧ chain (entries t') i e σ.
Proof.
  intros Hwf Hv H. assert (wf_table K t) as (Hn & Hb & Hc) by done.
  apply table_set_suffix_Ok in H
    as (Hn' & Hb' & Hrg & [[Hnone ->]|(e & He & He')]).
  { split; [done|]. split; [done|]. auto. }
  assert (∀ i σ e0, i < nentries t - 1 → entries t !! i = Some e0 →
            chain (entries t) i e0 σ →
            entries t' !! i = Some e0 ∧ chain (entries t') i e0 σ) as Hlow.
  { intros i σ e0 Hlt Hei Hci. rewrite He'. split.
    - rewrite lookup_insert_ne; [done|lia].
    - apply chain_insert; [done|lia]. }
  split; [|done].
  unfold wf_table. rewrite Hn', Hb'. repeat (split; [done|]).
  intros i Hi Hlt. destruct (Z.eq_dec i (nentries t - 1)) as [->|Hne].
  - destruct (Hc _ Hi Hlt) as (e0 & σ & He0 & Hch).
    rewrite He in He0. injection He0 as <-.
    set (e2 := Entry.mk _ _ v) in He'.
    assert (entries t' !! (nentries t - 1) = Some e2) as He2
      by (by rewrite He', lookup_insert_eq).
    inversion Hch as [b e1 Hp Hl Hs|b e1 e0 σ0 Hbd Hp He0 Hl Hc0]; subst.
    + exists e2, [v]. split; [done|]. by apply (chain_lit _ _ e2).
    + exists e2, (σ0 ++ [v]). split; [done|].
      apply (chain_cons _ _ e2 e0 σ0); cbn; try done.
      * rewrite He', lookup_insert_ne; [done|lia].
      * rewrite He'. apply chain_insert; [done|lia].
  - destruct (Hc _ Hi Hlt) as (e0 & σ & He0 & Hch).
    exists e0, σ. apply Hlow; [lia|done..].
Qed.

(** ** Sessions of codes of the table *)

Lemma placed_app W x y w off σ1 σ2 :
  placed W x y w off (σ1 ++ σ2)
  = placed W x y w off σ1 ++ placed W x y w (off + Z.of_nat (length σ1)) σ2.
Proof.
  unfold placed. rewrite imap_app. f_equal. apply imap_ext.
  intros i v _. cbn. do 2 f_equal. lia.
Qed.

(** The head of a turn keeps the table well formed. *)
Lemma lzw_top_valid K x y w g0 s g s1 :
  0 ≤ K ≤ 11 → size_inv K s → lzw_inv K x y w g0 s g →
  lzw_top (K + 1) (2 ^ K) s = Ok (Some s1) →
  ∃ t t1 full1,
    table s = Some t ∧ table s1 = Some t1 ∧ wf_table K t1 ∧
    table_is_full s1 = Some full1 ∧
    (key s ≠ 2 ^ K → table_is_full s = Some false →
       ∃ e σ e1,
         entries t !! key s = Some e ∧ chain (entries t) (key s) e σ ∧
         entry s = Some e1 ∧ head σ = Some (Entry.suffix e1) ∧
         nentries t1 = nentries t + 1 ∧
         entries t1 !! nentries t
         = Some (Entry.mk (Entry.length e + 1) (key s) (Entry.suffix e1)) ∧
         chain (entries t1) (nentries t)
           (Entry.mk (Entry.length e + 1) (key s) (Entry.suffix e1))
           (σ ++ [Entry.suffix e1])).
Proof.
  intros HK Hsz (Hkey & Hoff & HW & Hft & _ & Htab) Htop.
  pose proof (pow2_bounds K HK) as HP.
  apply lzw_top_Ok in Htop as [(Hk & t & n & Ht & Hn & ->)|
    [(Hk & Hf & ->)|(Hk & Hf & l & e1 & t & r & t' & Hl & He1 & Ht & Ha & Hr & ->)]].
  - replace (K + 1 - 1) with K in Hn by lia.
    rewrite shl_1_fits in Hn by lia. injection Hn as <-.
    exists t, (set_nentries t (2 ^ K + 2)), false. cbn.
    repeat (split; [done|]). split; [|done].
    apply wf_table_reset. by apply Htab.
  - destruct Hft as [Hft|[t Ht]]; [congruence|].
    exists t, t, true. repeat (split; [done|]).
    split; [by apply Htab|]. split; [done|]. congruence.
  - destruct (Htab t Ht) as (Hwf & Hd).
    destruct Hd as (Hdk & Hkn & e & σ & e1' & rest & He & Hch & Hsl & He1' & Hs1
                    & Hh & _); [done|congruence|].
    rewrite Hl in Hsl. injection Hsl as ->.
    rewrite He1 in He1'. injection He1' as <-.
    destruct (Hsz t Ht) as (_ & _ & Hnf). specialize (Hnf Hf).
    eapply wf_table_add in Ha as (Hwf' & Hn' & Hnew & Hchn & _); try done.
    exists t, t', (nentries t' =? 4096).
    repeat (split; [done|]).
    split; [by destruct (nentries t' =? 4096)|].
    split; [by destruct (nentries t' =? 4096)|].
    split; [destruct (nentries t' =? 4096); cbn; by rewrite ?Hf|].
    intros _ _. exists e, σ, e1. by repeat (split; [done|]).
Qed.

(** One turn of the loop in a session of codes of the table: either
    it reads a clear code and stores nothing, or it reads a data code
    of the table, stores its string at the linear offsets from
    [frm_off] on and advances [frm_off] by its length. *)
Lemma valid_turn K fuel x y w g0 s g s' g' :
  0 ≤ K ≤ 11 → size_inv K s → lzw_inv K x y w g0 s g →
  lzw_iter fuel x y w (K + 1) (2 ^ K) (2 ^ K + 1) s g = Ok (Continue s' g') →
  code_in_table (2 ^ K) s' = true →
  lzw_inv K x y w g0 s' g' ∧
  ∃ s1 t1,
    lzw_top (K + 1) (2 ^ K) s = Ok (Some s1) ∧ table s1 = Some t1 ∧
    ((key s' = 2 ^ K ∧ stores g' = stores g ∧ frm_off s' = frm_off s ∧
      table s' = Some t1) ∨
     (key s' ≠ 2 ^ K ∧ is_data K (key s') ∧ key s' < nentries t1 ∧
      ∃ e σ e1 t' full1,
        table_is_full s1 = Some full1 ∧
        entries t1 !! key s' = Some e ∧ chain (entries t1) (key s') e σ ∧
        emit fuel (set_fd g (fd g')) t1 x y w (frm_off s) e = Ok (e1, g') ∧
        stores g' = placed (width g0) x y w (frm_off s) σ ++ stores g ∧
        frm_off s' = frm_off s + Z.of_nat (length σ) ∧
        entry s' = Some e1 ∧ head σ = Some (Entry.suffix e1) ∧
        table s' = Some t' ∧ nentries t' = nentries t1 ∧
        entries t' !! key s' = Some e ∧ chain (entries t') (key s') e σ ∧
        (if (key s' <? nentries t1 - 1) && negb full1
         then table_set_suffix t1 (nentries t1 - 1) (Entry.suffix e1) = Ok t'
         else t' = t1))).
Proof.
  intros HK Hsz Hinv H Hcode. pose proof (pow2_bounds K HK) as HP.
  apply lzw_iter_Continue in H as (s1 & k & b & f & Htop & Hget & H).
  pose proof (lzw_top_size _ _ _ HK Hsz Htop)
    as (_ & _ & Hoff1 & _ & _ & _ & _).
  pose proof (lzw_top_valid _ _ _ _ _ _ _ _ HK Hsz Hinv Htop)
    as (t & t1 & full1 & Ht & Ht1 & Hwf1 & Hf1 & _).
  destruct Hinv as (Hkey & Hoff & HW & Hft & (out & Hout & Hperm) & Htab).
  apply get_key_range in Hget as Hk. cbn zeta in H.
  destruct H as [(-> & -> & ->)|(Hkc & Hks & H)].
  - (* a clear code *)
    split.
    + unfold lzw_inv. cbn. rewrite Hoff1, Ht1, Hf1.
      repeat (split; [done || lia|]). split; [eauto|]. split; [eauto|].
      intros ? [= <-]. split; [done|]. done.
    + exists s1, t1. repeat (split; [done|]). left. cbn. by rewrite Hoff1.
  - (* a data code *)
    apply lzw_string_Ok in H
      as (ks & t2 & e & e1 & off & t' & Hks' & Ht2 & He & Hem & Hoff' & Hp & ->).
    cbn in Hks', Ht2, He, Hem, Hoff', Hp, Hcode.
    rewrite Ht1 in Ht2. injection Ht2 as <-.
    apply table_get_Ok in He as [Hkb He].
    apply int_Ok in Hoff' as [-> _].
    assert ((k =? 2 ^ K) = false) as Hkc' by (by apply Z.eqb_neq).
    unfold code_in_table in Hcode. cbn in Hcode. rewrite Hkc' in Hcode.
    cbn in Hcode. apply Z.ltb_lt in Hcode.
    assert (nentries t' = nentries t1 ∧ wf_table K t' ∧
            (∀ i σ e0, i < nentries t1 - 1 → entries t1 !! i = Some e0 →
               chain (entries t1) i e0 σ →
               entries t' !! i = Some e0 ∧ chain (entries t') i e0 σ) ∧
            ((k <? nentries t1 - 1) = false → t' = t1) ∧
            (if (k <? nentries t1 - 1) && negb full1
             then table_set_suffix t1 (nentries t1 - 1) (Entry.suffix e1)
                  = Ok t'
             else t' = t1) ∧
            ∃ σ, chain (entries t1) k e σ ∧
              stores g' = placed (width g0) x y w (frm_off s) σ ++ stores g ∧
              0 ≤ Entry.suffix e1 < 256 ∧ head σ = Some (Entry.suffix e1) ∧
              width g' = width g0)
      as (Hn' & Hwf' & Hlow & Hsame & Hpatch & σ & Hch & Hst & Hs1 & Hh & HW').
    { assert (is_data K k) as Hd by (unfold is_data; lia).
      assert (∃ σ, chain (entries t1) k e σ) as [σ Hch].
      { destruct Hwf1 as (_ & _ & Hc).
        destruct (Hc k Hd) as (e' & σ & He' & Hch).
        - destruct (k <? nentries t1 - 1) eqn:E.
          + apply Z.ltb_lt in E. lia.
          + injection Hp as <-. done.
        - rewrite He in He'. injection He' as <-. eauto. }
      pose proof (emit_chain _ _ _ _ _ _ _ _ Hch _ _ _ _ Hem)
        as (Hst & _ & Hs1 & Hh & HW' & _).
      cbn in Hst, HW'. rewrite Hoff1, HW in Hst. rewrite HW in HW'.
      assert (∃ σ0, chain (entries t1) k e σ0 ∧
         stores g' = placed (width g0) x y w (frm_off s) σ0 ++ stores g ∧
         0 ≤ Entry.suffix e1 < 256 ∧ head σ0 = Some (Entry.suffix e1) ∧
         width g' = width g0) as Hex by eauto 10.
      destruct (k <? nentries t1 - 1) eqn:E; cbn [andb].
      - bind_inv Hp. apply use_Ok in Ha. rewrite Hf1 in Ha.
        injection Ha as ->. destruct a; cbn [negb] in Hp.
        + injection Hp as <-. cbn [negb].
          split; [done|]. split; [done|]. split; [auto|]. by repeat split.
        + cbn [negb].
          pose proof (wf_table_patch _ _ _ _ Hwf1 Hs1 Hp) as (? & ? & ?).
          split; [done|]. split; [done|]. split; [auto|]. by repeat split.
      - injection Hp as <-.
        split; [done|]. split; [done|]. split; [auto|]. by repeat split. }
    assert (Z.of_nat (length σ) = Entry.length e) as Hlen
      by (by eapply chain_length).
    assert (entries t' !! k = Some e ∧ chain (entries t') k e σ) as [He' Hch'].
    { destruct (k <? nentries t1 - 1) eqn:E.
      - apply Z.ltb_lt in E. by apply Hlow.
      - by rewrite (Hsame eq_refl). }
    split.
    + unfold lzw_inv. cbn. rewrite Hoff1.
      repeat (split; [done || lia|]). split; [eauto|]. split.
      { exists (out ++ σ). rewrite length_app. split; [lia|].
        rewrite Hst, Hperm, placed_app, Hout, Z.add_0_l.
        rewrite (app_assoc (placed _ _ _ _ _ σ)).
        rewrite (Permutation_app_comm (placed _ _ _ _ _ σ)).
        by rewrite <- app_assoc. }
      intros ? [= <-]. split; [done|]. intros _ _.
      split; [unfold is_data; lia|]. split; [lia|].
      exists e, σ, e1, (stores g). repeat (split; [done|]).
      rewrite Hst. do 2 f_equal. lia.
    + exists s1, t1. repeat (split; [done|]). right. cbn.
      split; [done|]. split; [unfold is_data; lia|]. split; [lia|].
      exists e, σ, e1, t', full1. rewrite Hoff1. repeat (split; [done|]).
      split.
      { pose proof (emit_chain _ _ _ _ _ _ _ _ Hch _ _ _ _ Hem)
          as (_ & _ & _ & _ & _ & Hfd & _). cbn in Hfd.
        by rewrite Hfd, <- Hoff1. }
      repeat (split; [done || lia|]). done.
Qed.

(** The turns counted by [lzw_turns] are the turns of [lzw_loop]. *)
Lemma lzw_loop_turns P fuel n m x y w ini clear stop s0 g0 s g :
  lzw_turns P fuel n x y w ini clear stop s0 g0 = Some (s, g) →
  lzw_loop fuel (n + m) x y w ini clear stop s0 g0
  = lzw_loop fuel m x y w ini clear stop s g.
Proof.
  revert m s g. induction n as [|n IH]; intros m s g H; cbn in H.
  - by injection H as <- <-.
  - destruct (lzw_turns _ _ n _ _ _ _ _ _ _ _) as [[s1 g1]|] eqn:E1; [|done].
    destruct (lzw_iter _ _ _ _ _ _ _ _ _) as [[s2 g2| |]| |] eqn:E; try done.
    destruct (P s2); [|done]. injection H as <- <-.
    replace (S n + m)%nat with (n + S m)%nat by lia.
    rewrite (IH (S m) s1 g1 eq_refl). cbn. by rewrite E.
Qed.

(** A session of codes of the table keeps its invariants. *)
Lemma valid_session gif ini clear stop s0 g0 fuel n x y w s g :
  lzw_init gif = Ok (ini, clear, stop, s0, g0) → ini ≤ 12 →
  lzw_turns (code_in_table clear) fuel n x y w ini clear stop s0 g0
    = Some (s, g) →
  ∃ K, 0 ≤ K ≤ 11 ∧ ini = K + 1 ∧ clear = 2 ^ K ∧ stop = 2 ^ K + 1 ∧
    size_inv K s ∧ lzw_inv K x y w g0 s g ∧
    width g0 = width gif ∧ stores g0 = stores gif.
Proof.
  intros Hinit Hini Hrun.
  apply lzw_init_Ok in Hinit
    as (K & HK & -> & -> & -> & Hks0 & Hret0 & Hoff0 & Hfull0 & Hsl0 & He0
        & Hkey0 & Ht0 & Hst0 & _ & HW0); [|done].
  pose proof (pow2_bounds K HK) as HP.
  exists K. repeat (split; [done|]).
  assert (size_inv K s ∧ lzw_inv K x y w g0 s g) as [? ?]; [|done].
  revert Hrun.
  apply (lzw_turns_inv (λ s g, size_inv K s ∧ lzw_inv K x y w g0 s g)).
  - split.
    + intros t0 Ht0'. destruct (Ht0 t0 Ht0') as [(Hn & _) Hn'].
      rewrite Hn', Hfull0. repeat split; try lia; intros; congruence.
    + unfold lzw_inv. rewrite Hoff0, Hfull0.
      repeat (split; [done || lia|]). split; [by left|]. split.
      { by exists []. }
      intros t0 Ht0'. split; [by apply Ht0|]. done.
  - intros s1 g1 s2 g2 [Hsz Hinv] Hs HP2. split.
    + by eapply size_inv_step.
    + by eapply valid_turn.
Qed.

(** ** The pixels written *)

Lemma pixel_index_eq W x y w p :
  0 ≤ p → 0 < w →
  pixel_index W x y w p = (y + p / w) * W + (x + p mod w).
Proof.
  intros Hp Hw. unfold pixel_index.
  rewrite Z.quot_div_nonneg, Z.rem_mod_nonneg by lia. lia.
Qed.

Lemma placed_in_rect W x y w h off σ i v :
  0 ≤ off → 0 < w → 0 ≤ x → x + w ≤ W →
  off + Z.of_nat (length σ) ≤ w * h →
  (i, v) ∈ placed W x y w off σ → in_rect W x y w h i.
Proof.
  intros Hoff Hw Hx HxW Hle Hin. unfold placed in Hin.
  apply elem_of_lookup_imap_1 in Hin as (j & c & Heq & Hj).
  injection Heq as -> ->. apply lookup_lt_Some in Hj.
  set (p := off + Z.of_nat j). assert (0 ≤ p < w * h) as Hp by lia.
  rewrite pixel_index_eq by lia.
  exists (y + p / w), (x + p mod w).
  pose proof (Z.mod_pos_bound p w Hw).
  assert (0 ≤ p / w) by (apply Z.div_pos; lia).
  assert (p / w < h) by (apply Z.div_lt_upper_bound; lia).
  repeat split; lia.
Qed.

(** C1 (as amended): in a session whose first code width is at most
    12 and whose codes are all codes of the table, the stores into
    the frame are, up to their order, those of a pixel sequence [out]
    placed at the linear offsets [0 .. frm_off - 1]: their number is
    [frm_off], the total length of the strings emitted; and when the
    rect lies within the columns of the screen ([x + w ≤ width]) and
    [frm_off] is at most [w * h], each of them lies inside the frame
    rect.  Nothing compares [frm_off] with [w * h], or [x + w] with
    the width of the screen. *)
Theorem pixel_writes_in_rect gif ini clear stop s0 g0 fuel n x y w h s g :
  lzw_init gif = Ok (ini, clear, stop, s0, g0) → ini ≤ 12 →
  lzw_turns (code_in_table clear) fuel n x y w ini clear stop s0 g0
    = Some (s, g) →
  0 < w →
  ∃ out,
    Z.of_nat (length out) = frm_off s ∧
    stores g ≡ₚ placed (width gif) x y w 0 out ++ stores gif ∧
    Z.of_nat (length (stores g))
    = frm_off s + Z.of_nat (length (stores gif)) ∧
    (0 ≤ x → x + w ≤ width gif → frm_off s ≤ w * h →
     ∀ i v, (i, v) ∈ placed (width gif) x y w 0 out →
       in_rect (width gif) x y w h i).
Proof.
  intros Hinit Hini Hrun Hw.
  destruct (valid_session _ _ _ _ _ _ _ _ _ _ _ _ _ Hinit Hini Hrun)
    as (K & HK & _ & _ & _ & _ & Hinv & HW & Hst).
  destruct Hinv as (_ & _ & _ & _ & (out & Hout & Hperm) & _).
  rewrite HW, Hst in Hperm. exists out. repeat (split; [done|]). split.
  - rewrite Hperm, length_app, placed_length. lia.
  - intros Hx HxW Hle i v Hin.
    eapply (placed_in_rect _ _ _ _ _ 0 out); [lia|done..|lia|done].
Qed.

(** In a session whose first code width is at most 12 and whose
    codes are all codes of the table, the pixels a turn stores are
    those of the string [σ] of its code, the pixel [σ_i] at the
    linear index [p = frm_off + i]. *)
Lemma string_placement gif ini clear stop s0 g0 fuel n x y w s g s' g' :
  lzw_init gif = Ok (ini, clear, stop, s0, g0) → ini ≤ 12 →
  lzw_turns (code_in_table clear) fuel n x y w ini clear stop s0 g0
    = Some (s, g) →
  lzw_iter fuel x y w ini clear stop s g = Ok (Continue s' g') →
  code_in_table clear s' = true → key s' ≠ clear → 0 < w →
  ∃ t e σ,
    table s' = Some t ∧ entries t !! key s' = Some e ∧
    chain (entries t) (key s') e σ ∧
    frm_off s' = frm_off s + Z.of_nat (length σ) ∧
    stores g'
    = imap (λ i v, let p := frm_off s + Z.of_nat i in
                   ((y + p / w) * width gif + (x + p mod w), v)) σ
      ++ stores g.
Proof.
  intros Hinit Hini Hrun Hs Hcode Hk Hw.
  destruct (valid_session _ _ _ _ _ _ _ _ _ _ _ _ _ Hinit Hini Hrun)
    as (K & HK & -> & -> & -> & Hsz & Hinv & HW & Hst).
  pose proof Hinv as (_ & Hoff & _).
  destruct (valid_turn _ _ _ _ _ _ _ _ _ _ HK Hsz Hinv Hs Hcode)
    as (_ & s1 & t1 & _ & _ & [(? & _)|(_ & _ & _ & H)]); [done|].
  destruct H as (e & σ & e1 & t' & full1 & _ & _ & _ & _ & Hstores & Hoff' & _
                 & _ & Ht' & _ & He' & Hch' & _).
  exists t', e, σ. repeat (split; [done|]).
  rewrite Hstores, HW. f_equal. unfold placed. apply imap_ext.
  intros i v _. cbn. f_equal. apply pixel_index_eq; lia.
Qed.

(** ** The placement of a pixel *)





(** On a string of the table the walk passes the entries of its
    pixels: the entry of pixel [i] has the length [i + 1]. *)
Lemma chain_walk m b e σ :
  chain m b e σ →
  ∃ es, walk m e es ∧ Entry.suffix <$> es = σ ∧
    ∀ i e', es !! i = Some e' → Entry.length e' = Z.of_nat i + 1.
Proof.
  induction 1 as [b e Hp Hl Hs|b e e0 σ Hb Hp He Hl Hc (es & Hw & Hσ & Hlen)].
  - exists [e]. split; [by apply walk_end|]. split; [done|].
    intros [|i] e' Hi; [|done]. injection Hi as <-. by rewrite Hl.
  - exists (es ++ [e]). split; [by eapply walk_step|].
    split; [by rewrite fmap_app, Hσ|].
    intros i e' Hi. apply lookup_app_Some in Hi as [Hi|[Hge Hi]]; [auto|].
    apply list_lookup_singleton_Some in Hi as [Hi <-].
    apply chain_length in Hc. rewrite <- Hσ, length_fmap in Hc. lia.
Qed.



(** ** The walk along the prefixes *)

(** With fuel for the length of the string, and when each of its
    pixels falls inside the raster, the emission loop returns. *)
Lemma emit_Ok t x y w off b e σ :
  chain (entries t) b e σ → b ≤ bulk t → 0 < w → 0 ≤ off →
  off + Z.of_nat (length σ) ≤ INT_MAX →
  ∀ fuel gif, (length σ ≤ fuel)%nat →
    Z.of_nat (length (frame gif)) ≤ INT_MAX →
    (∀ p, off ≤ p < off + Z.of_nat (length σ) →
       0 ≤ pixel_index (width gif) x y w p < Z.of_nat (length (frame gif))) →
    ∃ e1 gif', emit fuel gif t x y w off e = Ok (e1, gif').
Proof.
  induction 1 as [b e Hp Hl Hs|b e e0 σ Hb Hp He Hl Hc IH];
    intros Hbulk Hw Hoff Hmax [|fuel] gif Hf Hfr Hin;
    rewrite ?length_app in *; cbn in Hf, Hmax, Hin; try lia; cbn [emit].
  - rewrite Hl, int_fits by (unfold INT_MAX in *; lia). cbn.
    destruct (Z.eqb_spec w 0); [lia|].
    specialize (Hin off ltac:(lia)).
    replace (off + 1 - 1) with off by lia.
    rewrite int_fits by (unfold INT_MAX in *; lia). cbn.
    unfold store_frame.
    destruct (Z.leb_spec 0 (pixel_index (width gif) x y w off)); [|lia].
    destruct (Z.ltb_spec (pixel_index (width gif) x y w off)
                (Z.of_nat (length (frame gif)))); [|lia].
    cbn. rewrite Hp. cbn. eauto.
  - pose proof (chain_length _ _ _ _ Hc) as Hlen.
    rewrite Hl, <- Hlen, int_fits by (unfold INT_MAX in *; lia). cbn.
    destruct (Z.eqb_spec w 0); [lia|].
    replace (off + (Z.of_nat (length σ) + 1) - 1)
      with (off + Z.of_nat (length σ)) by lia.
    pose proof (Hin (off + Z.of_nat (length σ)) ltac:(lia)) as Hlast.
    rewrite int_fits by (unfold INT_MAX in *; lia). cbn.
    unfold store_frame.
    destruct (Z.leb_spec 0 (pixel_index (width gif) x y w
                              (off + Z.of_nat (length σ)))); [|lia].
    destruct (Z.ltb_spec (pixel_index (width gif) x y w
                            (off + Z.of_nat (length σ)))
                (Z.of_nat (length (frame gif)))); [|lia].
    cbn. destruct (Z.eqb_spec (Entry.prefix e) 4095); [done|].
    rewrite (table_get_some _ _ e0) by (done || lia). cbn.
    apply IH; cbn; rewrite ?length_insert; try lia.
    intros p Hp'. apply Hin. lia.
Qed.

(** C8 (as amended): in a session whose first code width is at most
    12 and whose codes so far were all codes of the table, for every
    data code [C] below [nentries] as a turn looks its code up,
    following [prefix] from entry [C] reaches a literal in less than
    [entry.length] steps; so with that much fuel the emission loop
    does not run on, whenever it returns it has written exactly
    [entry.length] pixels and stopped at a literal, and it does
    return when these pixels fall inside the raster. *)
Theorem prefix_walk_terminates gif ini clear stop s0 g0 fuel n x y w s g s1
    t1 C :
  lzw_init gif = Ok (ini, clear, stop, s0, g0) → ini ≤ 12 →
  lzw_turns (code_in_table clear) fuel n x y w ini clear stop s0 g0
    = Some (s, g) →
  lzw_top ini clear s = Ok (Some s1) → table s1 = Some t1 →
  0 ≤ C < nentries t1 → C ≠ clear → C ≠ stop →
  ∃ e k,
    table_get t1 C = Ok e ∧ 1 ≤ Entry.length e ∧
    steps_to_literal (entries t1) (Z.to_nat (Entry.length e)) C = Some k ∧
    Z.of_nat k < Entry.length e ∧
    ∀ fuel' g1 off,
      (Z.to_nat (Entry.length e) ≤ fuel')%nat →
      emit fuel' g1 t1 x y w off e ≠ OutOfFuel ∧
      (∀ e1 g1', emit fuel' g1 t1 x y w off e = Ok (e1, g1') →
         Z.of_nat (length (stores g1'))
         = Z.of_nat (length (stores g1)) + Entry.length e ∧
         Entry.prefix e1 = 0xFFF) ∧
      (0 < w → 0 ≤ off → off + Entry.length e ≤ INT_MAX →
       Z.of_nat (length (frame g1)) ≤ INT_MAX →
       (∀ p, off ≤ p < off + Entry.length e →
          0 ≤ pixel_index (width g1) x y w p
            < Z.of_nat (length (frame g1))) →
       ∃ e1 g1', emit fuel' g1 t1 x y w off e = Ok (e1, g1')).
Proof.
  intros Hinit Hini Hrun Htop Ht1 HC Hcl Hst.
  destruct (valid_session _ _ _ _ _ _ _ _ _ _ _ _ _ Hinit Hini Hrun)
    as (K & HK & -> & -> & -> & Hsz & Hinv & _).
  destruct (lzw_top_valid _ _ _ _ _ _ _ _ HK Hsz Hinv Htop)
    as (t & t1' & full1 & _ & Ht1' & Hwf & _).
  rewrite Ht1 in Ht1'. injection Ht1' as <-.
  destruct Hwf as (Hn & Hb & Hc).
  destruct (Hc C) as (e & σ & He & Hch); [unfold is_data; lia|lia|].
  pose proof (chain_length _ _ _ _ Hch) as Hlen.
  assert (0 < length σ)%nat as Hpos.
  { apply chain_head in Hch as (c & Hc' & _). destruct σ; [done|cbn; lia]. }
  exists e, (length σ - 1)%nat.
  split; [apply table_get_some; [lia|done]|]. split; [lia|]. split.
  { eapply chain_steps; [done..|lia]. }
  split; [lia|]. intros fuel' g1 off Hfuel. split; [|split].
  - eapply emit_fuel; [done| |lia]. lia.
  - intros e1 g1' Hem.
    apply (emit_chain _ _ _ _ _ _ _ _ Hch) in Hem as (Hst' & Hp & _).
    rewrite Hst', length_app, placed_length. split; [lia|done].
  - intros Hw Hoff Hmax Hfr Hin.
    eapply emit_Ok; [done| |done..| | |done| ]; try lia.
    intros p Hp. apply Hin. lia.
Qed.

(** ** The code of the entry being added *)

(** C5 (as amended): in a session whose first code width is at most
    12 and whose codes are all codes of the table, take a turn that
    adds an entry (it follows a turn that emitted a string [σ], and
    the table is not full).  The head of the turn stores at slot
    [nentries] the entry of length [|σ| + 1] with the previous code
    as prefix and the first character of [σ] as suffix.  When the
    code then read equals that [nentries] (its value at the head of
    the turn, the index of the entry just added), the string emitted
    is [σ] followed by the first character of [σ].  When the code
    read is smaller, the suffix of the added entry is set after the
    emission to the first character of the string just emitted,
    unless the addition made the table full. *)
Theorem kwkwk_string gif ini clear stop s0 g0 fuel n x y w s g s' g' t :
  lzw_init gif = Ok (ini, clear, stop, s0, g0) → ini ≤ 12 →
  lzw_turns (code_in_table clear) fuel n x y w ini clear stop s0 g0
    = Some (s, g) →
  lzw_iter fuel x y w ini clear stop s g = Ok (Continue s' g') →
  code_in_table clear s' = true →
  table s = Some t → key s ≠ clear → table_is_full s = Some false →
  key s' ≠ clear →
  ∃ σ σ' c c' rest t',
    head σ = Some c ∧ head σ' = Some c' ∧
    stores g
    = placed (width gif) x y w (frm_off s - Z.of_nat (length σ)) σ ++ rest ∧
    stores g' = placed (width gif) x y w (frm_off s) σ' ++ stores g ∧
    table s' = Some t' ∧ key s' ≤ nentries t ∧
    (key s' = nentries t →
       σ' = σ ++ [c] ∧
       entries t' !! nentries t
       = Some (Entry.mk (Z.of_nat (length σ) + 1) (key s) c)) ∧
    (key s' < nentries t →
       entries t' !! nentries t
       = Some (Entry.mk (Z.of_nat (length σ) + 1) (key s)
                 (if nentries t + 1 =? 0x1000 then c else c'))).
Proof.
  intros Hinit Hini Hrun Hs Hcode Ht Hk Hfull Hk'.
  destruct (valid_session _ _ _ _ _ _ _ _ _ _ _ _ _ Hinit Hini Hrun)
    as (K & HK & -> & -> & -> & Hsz & Hinv & HW & Hst).
  destruct (valid_turn _ _ _ _ _ _ _ _ _ _ HK Hsz Hinv Hs Hcode)
    as (_ & s1 & t1 & Htop & Ht1 & [(? & _)|(_ & _ & Hlt & H)]); [done|].
  destruct H as (e' & σ' & e1' & t' & full1 & Hf1 & He' & Hch' & _ & Hstores
                 & _ & _ & Hh' & Ht' & Hn' & He't' & _ & Hpatch).
  destruct (lzw_top_valid _ _ _ _ _ _ _ _ HK Hsz Hinv Htop)
    as (t0 & t1' & full1' & Ht0 & Ht1' & Hwf1 & Hf1' & Hadd).
  rewrite Ht in Ht0. injection Ht0 as <-.
  rewrite Ht1 in Ht1'. injection Ht1' as <-.
  rewrite Hf1 in Hf1'. injection Hf1' as <-.
  destruct (Hadd Hk Hfull)
    as (e & σ & e1 & He & Hch & He1 & Hh & Hn1 & Hnew & Hchn).
  pose proof (chain_length _ _ _ _ Hch) as Hlen.
  assert (full1 = (nentries t1 =? 4096)) as Hfull1.
  { apply lzw_top_size in Htop as (_ & _ & _ & _ & _ & _ & Hc); [|done..].
    destruct Hc as [(? & _)|[(_ & ? & _)|(_ & _ & _ & ? & ? & Ht'' & Ht1'' & _ & _ & Hf)]];
      [done|congruence|].
    rewrite Ht1 in Ht1''. injection Ht1'' as <-. congruence. }
  destruct Hinv as (_ & _ & _ & _ & _ & Htab).
  destruct (Htab t Ht) as (_ & Hd).
  destruct Hd as (_ & _ & e0 & σ0 & e10 & rest & He0 & Hch0 & _ & _ & _ & _ & Hst0);
    [done|congruence|].
  rewrite He in He0. injection He0 as <-.
  rewrite (chain_unique _ _ _ _ _ _ Hch0 Hch) in Hst0. rewrite HW in *.
  exists σ, σ', (Entry.suffix e1), (Entry.suffix e1'), rest, t'.
  repeat (split; [done|]). split; [lia|]. rewrite Hlen. split.
  - intros Heq. rewrite Heq, Hnew in He'. injection He' as <-.
    rewrite Heq in Hch', He't'. split; [by eapply chain_unique|done].
  - intros Hlt'. rewrite Hn1 in Hpatch.
    assert ((key s' <? nentries t + 1 - 1) = true) as Hb
      by (apply Z.ltb_lt; lia).
    rewrite Hb, Hfull1, Hn1 in Hpatch. cbn [andb] in Hpatch.
    destruct (nentries t + 1 =? 4096); cbn [negb] in Hpatch.
    + by rewrite Hpatch.
    + apply table_set_suffix_Ok in Hpatch as (_ & _ & _ & [[Hnone _]|(e2 & He2 & ->)]).
      * replace (nentries t + 1 - 1) with (nentries t) in Hnone by lia.
        congruence.
      * replace (nentries t + 1 - 1) with (nentries t) in * by lia.
        rewrite Hnew in He2. injection He2 as <-.
        by rewrite lookup_insert_eq.
Qed.

(** ** Extensions and the trailer *)

Lemma same_raster_refl g : same_raster g g.
Proof. by repeat split. Qed.

Lemma same_raster_trans g1 g2 g3 :
  same_raster g1 g2 → same_raster g2 g3 → same_raster g1 g3.
Proof.
  intros (?&?&?&?&?&?&?&?) (?&?&?&?&?&?&?&?). repeat split; congruence.
Qed.

Lemma discard_loop_data fuel f size f' :
  discard_loop fuel f size = Ok f' → data f' = data f.
Proof.
  revert f size. induction fuel as [|fuel IH]; intros f size H; [done|].
  cbn [discard_loop] in H.
  destruct (read1 f size) as [sz f1] eqn:E.
  assert (data f1 = data f) as Hd by (by rewrite <- (read1_data f size), E).
  bind_inv H. destruct (a =? 0).
  - by injection H as <-.
  - apply IH in H. cbn in H. congruence.
Qed.

Lemma discard_sub_blocks_same fuel g g' :
  discard_sub_blocks fuel g = Ok g' → same_raster g g'.
Proof.
  unfold discard_sub_blocks. intros H. bind_inv H. injection H as <-.
  apply discard_loop_data in Ha. by repeat split.
Qed.

Lemma read_num_data f n f' : read_num f = Ok (n, f') → data f' = data f.
Proof.
  unfold read_num, read.
  destruct (take 2 (drop (pos f) (data f))) as [|b0 [|b1 [|]]]; cbn;
    try discriminate. by intros [= _ <-].
Qed.

Lemma read_ext_same fuel g g' : read_ext fuel g = Ok g' → same_raster g g'.
Proof.
  unfold read_ext. intros H.
  destruct (read1 (fd g) None) as [label f] eqn:E.
  assert (data f = data (fd g)) as Hd by (by rewrite <- (read1_data (fd g) None), E).
  bind_inv H.
  assert (same_raster g (set_fd g f)) as H0 by (by repeat split).
  destruct (a =? 1); [|destruct (a =? 249); [|destruct (a =? 254);
    [|destruct (a =? 255)]]].
  - apply discard_sub_blocks_same in H. eapply same_raster_trans; [done|].
    eapply same_raster_trans; [|done]. by repeat split.
  - unfold read_graphic_control_ext in H. cbn [fd set_fd] in H.
    destruct (read1 (lseek f 1) None) as [rdit f1] eqn:E1.
    pose proof (read1_data (lseek f 1) None) as Hd1.
    rewrite E1 in Hd1. cbn in Hd1.
    bind_inv H. bind_inv H. destruct a1 as [d f2].
    apply read_num_data in Ha1.
    destruct (read1_into f2 _) as [ti f3] eqn:E3.
    assert (data f3 = data f2) as Hd3
      by (by rewrite <- (read1_into_data f2 (tindex (gce (set_fd g f)))), E3).
    injection H as <-. repeat split; cbn; congruence.
  - apply discard_sub_blocks_same in H. by eapply same_raster_trans.
  - unfold read_application_ext in H. cbn [fd set_fd] in H.
    destruct (read (lseek f 1) 8) as [app_id f1] eqn:E1.
    pose proof (read_data (lseek f 1) 8) as Hd1.
    rewrite E1 in Hd1. cbn in Hd1.
    destruct (read f1 3) as [auth f2] eqn:E2.
    assert (data f2 = data f1) as Hd2 by (by rewrite <- (read_data f1 3), E2).
    destruct (length app_id <? 8)%nat; [done|].
    destruct (bool_decide _).
    + bind_inv H. destruct a0 as [n f3]. apply read_num_data in Ha0.
      cbn in Ha0. injection H as <-. repeat split; cbn; congruence.
    + apply discard_sub_blocks_same in H. eapply same_raster_trans; [|done].
      repeat split; cbn; congruence.
  - by injection H as <-.
Qed.

Lemma get_frame_loop_trailer n fuel g sep g' :
  get_frame_loop n fuel g sep = Ok (0, g') → same_raster g g'.
Proof.
  revert g sep. induction fuel as [|fuel IH]; intros g sep H;
    cbn [get_frame_loop] in H.
  - destruct (sep =? sep_image); [|done].
    bind_inv H. destruct a as [r g1]. by destruct (r =? -1).
  - destruct (sep =? sep_image).
    { bind_inv H. destruct a as [r g1]. by destruct (r =? -1). }
    destruct (sep =? sep_trailer).
    { injection H as <-. apply same_raster_refl. }
    destruct (sep =? sep_ext); [|done].
    bind_inv H. apply read_ext_same in Ha.
    destruct (read1_into (fd a) sep) as [sep' f] eqn:E.
    assert (data f = data (fd a)) as Hd
      by (by rewrite <- (read1_into_data (fd a) sep), E).
    apply IH in H. eapply same_raster_trans; [done|].
    eapply same_raster_trans; [|done]. by repeat split.
Qed.

(** C10: a call of [gd_get_frame] that returns 0 leaves the frame
    raster, the trace of its stores, the palettes and the pointer to
    the active one (and the dimensions and the contents of the file)
    as they were; and so does every extension block that [read_ext]
    reads: only the file offset, the loop count and the
    graphic-control block can differ afterwards. *)
Theorem trailer_keeps_raster fuel g g' :
  gd_get_frame fuel g = Ok (0, g') ∨ read_ext fuel g = Ok g' →
  same_raster g g'.
Proof.
  intros [H|H]; [|by eapply read_ext_same].
  unfold gd_get_frame in H.
  destruct (read1 (fd g) None) as [sep f] eqn:E.
  assert (data f = data (fd g)) as Hd by (by rewrite <- (read1_data (fd g) None), E).
  bind_inv H. apply get_frame_loop_trailer in H.
  eapply same_raster_trans; [|done]. by repeat split.
Qed.

(** ** Entries that are their own prefix *)

(** An entry whose prefix is its own slot: the walk never reaches a
    literal and the emission loop never returns. *)
Lemma steps_self_loop m i e n :
  m !! i = Some e → Entry.prefix e = i → i ≠ 0xFFF →
  steps_to_literal m n i = None.
Proof.
  intros He Hp Hi. induction n as [|n IH]; cbn; rewrite He, Hp;
    destruct (Z.eqb_spec i 4095); try done.
  by rewrite <- Hp at 1; rewrite Hp, IH.
Qed.

Lemma emit_self_loop t x y w off e :
  Entry.prefix e ≠ 0xFFF → table_get t (Entry.prefix e) = Ok e →
  ∀ fuel g r, emit fuel g t x y w off e ≠ Ok r.
Proof.
  intros Hp He fuel. induction fuel as [|fuel IH]; intros g r H; [done|].
  cbn [emit] in H. bind_inv H. destruct (w =? 0); [done|].
  bind_inv H. bind_inv H.
  destruct (Z.eqb_spec (Entry.prefix e) 4095); [done|].
  rewrite He in H. cbn in H. by eapply IH.
Qed.

(** ** Opening a file *)

(** Whenever [gd_open_gif] reports an error on [stderr], the pointer
    it returns is the local [gif] before any assignment. *)
Lemma gd_open_gif_error_pointer file msgs p :
  gd_open_gif file = Ok (msgs, p) → msgs ≠ [] → p = gif_indeterminate.
Proof.
  unfold gd_open_gif. destruct file as [bytes|]; [|by intros [= <- <-]].
  destruct (read _ 3) as [sigver f].
  destruct (length sigver <? 3)%nat; [done|].
  destruct (negb (bool_decide (sigver = GIF_sig))); [by intros [= <- <-]|].
  destruct (read_over f sigver 3) as [ver f1].
  destruct (negb (bool_decide (ver = GIF_ver))); [by intros [= <- <-]|].
  intros H. bind_inv H. destruct a as [W f2].
  bind_inv H. destruct a as [H' f3].
  destruct (read1 f3 None) as [fdsz f4].
  bind_inv H. destruct (Z.land a 128 =? 0); [by injection H as <- <-|].
  destruct (negb _); [by injection H as <- <-|].
  bind_inv H. destruct (read f4 1) as [? f5]. destruct (read f5 1) as [? f6].
  bind_inv H. destruct (alloc_ok a1).
  - destruct (read_colors _ _ _). by injection H as <- <-.
  - by injection H as <- <-.
Qed.

(** On success the decoder has the global palette of
    [1 << (gct_exp + 1)] entries, active, and a raster of
    [width * height] zeros that nothing was stored into. *)
Lemma gd_open_gif_success file msgs g :
  gd_open_gif file = Ok (msgs, gif_at g) →
  msgs = [] ∧ palette g = palette_gct ∧
  (∃ e, 0 ≤ e < 8 ∧ gd_Palette.size (gct g) = 2 ^ (e + 1)) ∧
  frame g = replicate (Z.to_nat (width g * height g)) 0 ∧ stores g = [].
Proof.
  unfold gd_open_gif. destruct file as [bytes|]; [|done].
  destruct (read _ 3) as [sigver f].
  destruct (length sigver <? 3)%nat; [done|].
  destruct (negb (bool_decide (sigver = GIF_sig))); [done|].
  destruct (read_over f sigver 3) as [ver f1].
  destruct (negb (bool_decide (ver = GIF_ver))); [done|].
  intros H. bind_inv H. destruct a as [W f2].
  bind_inv H. destruct a as [H' f3].
  destruct (read1 f3 None) as [fdsz f4].
  bind_inv H. destruct (Z.land a 128 =? 0); [done|].
  destruct (negb _); [done|].
  bind_inv H. destruct (read f4 1) as [? f5]. destruct (read f5 1) as [? f6].
  bind_inv H. apply int_Ok in Ha3 as [-> _].
  destruct (alloc_ok _); [|done].
  destruct (read_colors _ _ _) as [pal f7] eqn:Ec. injection H as <- <-.
  cbn. repeat (split; [done|]). split; [|done].
  unfold read_colors in Ec. destruct (read f6 _). injection Ec as <- _. cbn.
  apply shl_Ok in Ha2 as (-> & _ & _). exists (Z.land a 7).
  split; [|by rewrite Z.mul_1_l].
  change 7 with (Z.ones 3). rewrite Z.land_ones by done.
  apply Z.mod_pos_bound. done.
Qed.

(** * Further properties *)

(** ** Bytes at the file offset *)

Lemma Z_of_byte_of_Z z : 0 ≤ z < 256 → Z_of_byte (byte_of_Z z) = z.
Proof.
  intros Hz. unfold Z_of_byte, byte_of_Z. rewrite u8_small by done.
  destruct (Byte.of_N (Z.to_N z)) as [b|] eqn:E.
  - apply Byte.to_of_N in E. lia.
  - apply Byte.of_N_None_iff in E. lia.
Qed.

Lemma read_at f bs rest n :
  drop (pos f) (data f) = bs ++ rest → length bs = n →
  read f n = (Z_of_byte <$> bs, mkFile (data f) (pos f + n)).
Proof.
  intros H <-. unfold read. by rewrite H, take_app_length.
Qed.

Lemma lookup_at f b rest :
  drop (pos f) (data f) = b :: rest → data f !! pos f = Some b.
Proof.
  intros H. rewrite <- (Nat.add_0_r (pos f)), <- lookup_drop. by rewrite H.
Qed.

Lemma drop_at (l : list Byte.byte) p bs rest n :
  drop p l = bs ++ rest → length bs = n → drop (p + n) l = rest.
Proof.
  intros H <-. by rewrite <- drop_drop, H, drop_app_length.
Qed.

(** ** [read_num] *)

(** X1: [read_num] reads back a 16-bit number stored low byte first,
    and leaves the offset two bytes on. *)
Theorem read_num_little_endian f n :
  0 ≤ n < 65536 →
  data f !! pos f = Some (byte_of_Z (n mod 256)) →
  data f !! S (pos f) = Some (byte_of_Z (n / 256)) →
  read_num f = Ok (n, mkFile (data f) (pos f + 2)).
Proof.
  intros Hn H0 H1. rewrite (read_num_some _ _ _ H0 H1).
  rewrite !Z_of_byte_of_Z.
  - do 2 f_equal. rewrite (Z.div_mod n 256) at 3 by lia. lia.
  - split; [apply Z.div_pos; lia | apply Z.div_lt_upper_bound; lia].
  - apply Z.mod_pos_bound. lia.
Qed.

(** ** [discard_sub_blocks] *)

Lemma sub_blocks_cons b bs :
  sub_blocks (b :: bs)
  = byte_of_Z (Z.of_nat (length b)) :: b ++ sub_blocks bs.
Proof. unfold sub_blocks. cbn. by rewrite <- app_assoc. Qed.

Lemma discard_loop_chain bs : ∀ fuel f size rest,
  block_sizes bs →
  drop (pos f) (data f) = sub_blocks bs ++ rest →
  (length bs < fuel)%nat →
  discard_loop fuel f size
  = Ok (mkFile (data f) (pos f + length (sub_blocks bs))).
Proof.
  induction bs as [|b bs IH]; intros fuel f size rest Hbs Hd Hfuel;
    (destruct fuel as [|fuel]; [cbn in Hfuel; lia|]); cbn [discard_loop].
  - unfold read1. rewrite (read_1_some f Byte.x00 (lookup_at f Byte.x00 rest Hd)).
    cbn. unfold lseek. cbn. do 2 f_equal. lia.
  - apply Forall_cons in Hbs as [Hb Hbs].
    rewrite sub_blocks_cons in *. cbn [app] in Hd. rewrite <- app_assoc in Hd.
    unfold read1. rewrite (read_1_some f _ (lookup_at _ _ _ Hd)).
    rewrite Z_of_byte_of_Z by lia. cbn [use mbind res_bind].
    destruct (Z.eqb_spec (Z.of_nat (length b)) 0) as [|_]; [lia|].
    rewrite (IH fuel _ _ rest Hbs); cbn [data pos lseek].
    + do 2 f_equal. cbn [length]. rewrite length_app, Nat2Z.id. lia.
    + rewrite Nat2Z.id.
      replace (pos f + 1 + length b)%nat with (pos f + (1 + length b))%nat
        by lia.
      by apply (drop_at _ _ (byte_of_Z (Z.of_nat (length b)) :: b)).
    + cbn in Hfuel. lia.
Qed.

(** X2: on a chain of sub-blocks, [discard_sub_blocks] moves the
    offset to the byte after the zero length byte that ends the chain,
    and changes nothing else. *)
Theorem discard_sub_blocks_chain fuel gif bs rest :
  block_sizes bs →
  drop (pos (fd gif)) (data (fd gif)) = sub_blocks bs ++ rest →
  (length bs < fuel)%nat →
  discard_sub_blocks fuel gif
  = Ok (set_fd gif (mkFile (data (fd gif))
                      (pos (fd gif) + length (sub_blocks bs)))).
Proof.
  intros Hbs Hd Hfuel. unfold discard_sub_blocks.
  by rewrite (discard_loop_chain bs fuel _ None rest).
Qed.

Lemma discard_loop_past_end fuel : ∀ f size,
  size ≠ 0 → (length (data f) ≤ pos f)%nat →
  discard_loop fuel f (Some size) = OutOfFuel.
Proof.
  induction fuel as [|fuel IH]; intros f size Hs Hp; [done|].
  cbn [discard_loop]. unfold read1.
  rewrite read_1_none by by apply lookup_ge_None.
  cbn [use mbind res_bind]. destruct (Z.eqb_spec size 0); [done|].
  apply IH; [done|]. cbn. lia.
Qed.

(** X3: when the sub-block announced at the offset reaches the end of
    the file or goes past it, [discard_sub_blocks] never returns: each
    further [read] is at the end of the file and leaves the last size
    in place, and the loop seeks on by it for ever. *)
Theorem discard_sub_blocks_truncated gif b :
  data (fd gif) !! pos (fd gif) = Some b → Z_of_byte b ≠ 0 →
  (length (data (fd gif)) ≤ pos (fd gif) + 1 + Z.to_nat (Z_of_byte b))%nat →
  ∀ fuel, discard_sub_blocks fuel gif = OutOfFuel.
Proof.
  intros Hb Hnz Hlen fuel. unfold discard_sub_blocks.
  destruct fuel as [|fuel]; [done|]. cbn [discard_loop]. unfold read1.
  rewrite (read_1_some _ _ Hb). cbn [use mbind res_bind].
  destruct (Z.eqb_spec (Z_of_byte b) 0); [done|].
  by rewrite discard_loop_past_end.
Qed.

(** ** Extensions *)

(** X4: an application extension whose identifier is ["NETSCAPE"]
    sets the loop count to the 16-bit number stored low byte first in
    the 15th and 16th byte after the label, and leaves the offset 17
    bytes on; the block sizes, the authentication code and the byte
    before the count are not looked at. *)
Theorem read_application_ext_netscape fuel gif sz auth skip lo hi rest :
  length auth = 3%nat → length skip = 2%nat →
  drop (pos (fd gif)) (data (fd gif))
  = sz :: bytes_of NETSCAPE ++ auth ++ skip ++ [lo; hi] ++ rest →
  read_application_ext fuel gif
  = Ok (set_fd (set_loop_count gif (Z_of_byte lo + 256 * Z_of_byte hi))
          (mkFile (data (fd gif)) (pos (fd gif) + 17))).
Proof.
  intros Ha Hs Hd. unfold read_application_ext.
  change (lseek (fd gif) 1) with (mkFile (data (fd gif)) (pos (fd gif) + 1)).
  pose proof (drop_at _ _ [sz] _ 1 Hd eq_refl) as H1.
  rewrite (read_at (mkFile _ _) (bytes_of NETSCAPE) _ 8 H1 eq_refl).
  cbn [data pos].
  pose proof (drop_at _ _ (bytes_of NETSCAPE) _ 8 H1 eq_refl) as H2.
  rewrite (read_at (mkFile _ _) auth _ 3 H2 Ha). cbn [data pos].
  pose proof (drop_at _ _ auth _ 3 H2 Ha) as H3.
  pose proof (drop_at _ _ skip _ 2 H3 Hs) as H4.
  change (Z_of_byte <$> bytes_of NETSCAPE) with NETSCAPE.
  change (length NETSCAPE <? 8)%nat with false. cbv iota.
  rewrite bool_decide_eq_true_2 by done.
  change (lseek ?f 2) with (mkFile (data f) (pos f + 2)). cbn [data pos].
  rewrite (read_num_some (mkFile _ _) lo hi); cbn [data pos].
  - cbn [mbind res_bind]. unfold lseek. cbn [data pos]. do 3 f_equal. lia.
  - by apply (lookup_at (mkFile _ _) lo (hi :: rest)).
  - rewrite <- Nat.add_1_r.
    apply (lookup_at (mkFile _ _) hi rest).
    by apply (drop_at _ _ [lo] _ 1 H4).
Qed.

(** X5: [read_ext] skips a plain text extension, a comment extension
    and an application extension with another identifier than
    ["NETSCAPE"] whole: the label, the fixed part (13 bytes, none, 12
    bytes) and the chain of sub-blocks; only the offset changes. *)
Theorem read_ext_skips fuel gif label hdr bs rest :
  (label = 0x01 ∧ length hdr = 13%nat) ∨
  (label = 0xFE ∧ hdr = []) ∨
  (label = 0xFF ∧ length hdr = 12%nat ∧
   Z_of_byte <$> take 8 (drop 1 hdr) ≠ NETSCAPE) →
  block_sizes bs → (length bs < fuel)%nat →
  drop (pos (fd gif)) (data (fd gif))
  = byte_of_Z label :: hdr ++ sub_blocks bs ++ rest →
  read_ext fuel gif
  = Ok (set_fd gif
          (mkFile (data (fd gif))
             (pos (fd gif) + 1 + length hdr + length (sub_blocks bs)))).
Proof.
  intros Hl Hbs Hfuel Hd. unfold read_ext, read1.
  rewrite (read_1_some _ _ (lookup_at _ _ _ Hd)).
  pose proof (drop_at _ _ [byte_of_Z label] _ 1 Hd eq_refl) as H1.
  destruct Hl as [[-> Hh]|[[-> ->]|(-> & Hh & Hid)]];
    rewrite Z_of_byte_of_Z by lia; cbn [use mbind res_bind];
    match goal with |- context [?a =? ?b] => change (a =? b) with false end;
    cbv iota.
  - change (1 =? 1) with true. cbv iota. unfold read_plain_text_ext.
    cbn [set_fd fd width height loop_count gce palette lct gct frame stores].
    change (lseek ?f 13) with (mkFile (data f) (pos f + 13)). cbn [data pos].
    pose proof (drop_at _ _ hdr _ 13 H1 Hh) as H2.
    unfold discard_sub_blocks.
    rewrite (discard_loop_chain bs fuel _ None rest Hbs); [|done|done].
    cbn [mbind res_bind].
    cbn [set_fd fd width height loop_count gce palette lct gct frame stores
         data pos]. rewrite Hh. do 3 f_equal.
  - change (254 =? 249) with false. change (254 =? 254) with true. cbv iota.
    unfold read_comment_ext.
    unfold discard_sub_blocks.
    rewrite (discard_loop_chain bs fuel _ None rest Hbs); [|done|done].
    cbn [mbind res_bind].
    cbn [set_fd fd width height loop_count gce palette lct gct frame stores
         data pos length]. do 3 f_equal. lia.
  - change (255 =? 249) with false. change (255 =? 254) with false.
    change (255 =? 255) with true. cbv iota.
    unfold read_application_ext.
    cbn [set_fd fd width height loop_count gce palette lct gct frame stores].
    change (lseek ?f 1) with (mkFile (data f) (pos f + 1)). cbn [data pos].
    destruct hdr as [|h0 hdr]; [done|]. cbn [drop] in Hid.
    rewrite <- (take_drop 8 hdr) in H1. cbn [app] in H1.
    rewrite <- app_assoc in H1.
    pose proof (drop_at _ _ [h0] _ 1 H1 eq_refl) as H2.
    assert (length (take 8 hdr) = 8%nat) as Ht.
    { rewrite length_take. cbn in Hh. lia. }
    rewrite (read_at (mkFile _ _) (take 8 hdr) _ 8 H2 Ht). cbn [data pos].
    pose proof (drop_at _ _ (take 8 hdr) _ 8 H2 Ht) as H3.
    assert (length (drop 8 hdr) = 3%nat) as Ht3.
    { rewrite length_drop. cbn in Hh. lia. }
    rewrite (read_at (mkFile _ _) (drop 8 hdr) _ 3 H3 Ht3). cbn [data pos].
    pose proof (drop_at _ _ (drop 8 hdr) _ 3 H3 Ht3) as H4.
    rewrite length_fmap, Ht. change (8 <? 8)%nat with false. cbv iota.
    rewrite bool_decide_eq_false_2 by done.
    unfold discard_sub_blocks.
    rewrite (discard_loop_chain bs fuel _ None rest Hbs); [|done|done].
    cbn [mbind res_bind].
    cbn [set_fd fd width height loop_count gce palette lct gct frame stores
         data pos]. rewrite Hh. do 3 f_equal. lia.
Qed.

(** X6: an extension with a label other than the four known ones is
    not skipped: [read_ext] takes the label alone, the byte after it
    is read as the next separator, and when it is none of [','],
    [';'] and ['!'] [gd_get_frame] returns -1. *)
Theorem gd_get_frame_unknown_extension fuel gif label c rest :
  Z_of_byte label ≠ 0x01 → Z_of_byte label ≠ 0xF9 →
  Z_of_byte label ≠ 0xFE → Z_of_byte label ≠ 0xFF →
  Z_of_byte c ≠ sep_image → Z_of_byte c ≠ sep_trailer →
  Z_of_byte c ≠ sep_ext →
  drop (pos (fd gif)) (data (fd gif))
  = byte_of_Z sep_ext :: label :: c :: rest →
  (2 ≤ fuel)%nat →
  read_ext fuel (set_fd gif (mkFile (data (fd gif)) (pos (fd gif) + 1)))
  = Ok (set_fd gif (mkFile (data (fd gif)) (pos (fd gif) + 2))) ∧
  gd_get_frame fuel gif
  = Ok (-1, set_fd gif (mkFile (data (fd gif)) (pos (fd gif) + 3))).
Proof.
  intros Hl1 Hl2 Hl3 Hl4 Hc1 Hc2 Hc3 Hd Hfuel.
  pose proof (drop_at _ _ [byte_of_Z sep_ext] _ 1 Hd eq_refl) as H1.
  pose proof (drop_at _ _ [label] _ 1 H1 eq_refl) as H2.
  replace (pos (fd gif) + 1 + 1)%nat with (pos (fd gif) + 2)%nat in H2 by lia.
  assert (read_ext fuel (set_fd gif (mkFile (data (fd gif)) (pos (fd gif) + 1)))
          = Ok (set_fd gif (mkFile (data (fd gif)) (pos (fd gif) + 2)))) as He.
  { unfold read_ext, read1.
    cbn [set_fd fd width height loop_count gce palette lct gct frame stores].
    rewrite (read_1_some (mkFile _ _) label);
      [|by apply (lookup_at (mkFile _ _) label (c :: rest))].
    cbn [use mbind res_bind data pos].
    destruct (Z.eqb_spec (Z_of_byte label) 1); [done|].
    destruct (Z.eqb_spec (Z_of_byte label) 249); [done|].
    destruct (Z.eqb_spec (Z_of_byte label) 254); [done|].
    destruct (Z.eqb_spec (Z_of_byte label) 255); [done|].
    cbn [set_fd fd width height loop_count gce palette lct gct frame stores].
    do 3 f_equal. lia. }
  split; [done|].
  unfold gd_get_frame, read1.
  rewrite (read_1_some _ _ (lookup_at _ _ _ Hd)).
  rewrite Z_of_byte_of_Z by done. cbn [use mbind res_bind].
  destruct fuel as [|[|fuel]]; [lia..|].
  cbn [get_frame_loop]. change (sep_ext =? sep_image) with false.
  change (sep_ext =? sep_trailer) with false.
  change (sep_ext =? sep_ext) with true. cbv iota.
  rewrite He. cbn [mbind res_bind]. unfold read1_into.
  cbn [set_fd fd width height loop_count gce palette lct gct frame stores].
  rewrite (read_1_some (mkFile _ _) c);
    [|by apply (lookup_at (mkFile _ _) c rest)].
  cbn [data pos].
  destruct (Z.eqb_spec (Z_of_byte c) sep_image); [done|].
  destruct (Z.eqb_spec (Z_of_byte c) sep_trailer); [done|].
  destruct (Z.eqb_spec (Z_of_byte c) sep_ext); [done|].
  unfold set_fd. cbn [fd width height loop_count gce palette lct gct frame
                      stores].
  by replace (pos (fd gif) + 2 + 1)%nat with (pos (fd gif) + 3)%nat by lia.
Qed.

(** ** The code table *)

(** X7: [add_entry] reports -1 only when the table is at its bulk and
    the reallocation is refused, and then no entry is stored.
    Otherwise it returns 0 or 1, the new entry (its fields cut to
    their C types) is under the old [nentries], every other slot is as
    before, [nentries] is one more and still within the bulk, which is
    doubled only when the table was at its bulk; and 1 is returned
    exactly when the new [nentries] is a power of two. *)
Theorem add_entry_lookup t l p c r t' :
  add_entry t l p c = Ok (r, t') →
  (r = -1 ∧ nentries t = bulk t ∧ alloc_ok (bulk t * 2) = false ∧
   entries t' = entries t ∧ nentries t' = nentries t) ∨
  ((r = 0 ∨ r = 1) ∧
   0 ≤ nentries t ∧ nentries t' = nentries t + 1 ∧ nentries t' ≤ bulk t' ∧
   (if nentries t =? bulk t
    then bulk t' = bulk t * 2 ∧ alloc_ok (bulk t * 2) = true
    else bulk t' = bulk t) ∧
   entries t' !! nentries t
   = Some (Entry.mk (l mod 65536) (p mod 65536) (c mod 256)) ∧
   (∀ i, i ≠ nentries t → entries t' !! i = entries t !! i) ∧
   (r = 1 ↔ ∃ j, 0 ≤ j ∧ nentries t' = 2 ^ j)).
Proof.
  intros H.
  assert (∀ ta, add_entry_store ta l p c = Ok (r, t') →
    (r = 0 ∨ r = 1) ∧ 0 ≤ nentries ta ∧
    nentries t' = nentries ta + 1 ∧ nentries t' ≤ bulk t' ∧
    bulk t' = bulk ta ∧
    entries t' !! nentries ta
    = Some (Entry.mk (l mod 65536) (p mod 65536) (c mod 256)) ∧
    (∀ i, i ≠ nentries ta → entries t' !! i = entries ta !! i) ∧
    (r = 1 ↔ ∃ j, 0 ≤ j ∧ nentries t' = 2 ^ j)) as Hstore.
  { intros ta Hs. apply add_entry_store_Ok in Hs as (Hb & -> & ->).
    cbn [bulk nentries entries].
    split; [destruct (_ =? 0); auto|]. split; [lia|]. split; [done|].
    split; [lia|]. split; [done|]. split; [by rewrite lookup_insert_eq|].
    split; [intros i Hi; by rewrite lookup_insert_ne|].
    replace (Z.land (nentries ta + 1) (nentries ta))
      with (Z.land (nentries ta + 1) (nentries ta + 1 - 1)) by (f_equal; lia).
    destruct (Z.eqb_spec (Z.land (nentries ta + 1) (nentries ta + 1 - 1)) 0)
      as [E|E].
    - split; [intros _|done]. exists (Z.log2 (nentries ta + 1)).
      split; [apply Z.log2_nonneg|]. apply land_pred_0; [lia|done].
    - split; [done|]. intros (j & Hj & Hn). rewrite Hn in E.
      by rewrite land_pred_pow2 in E. }
  unfold add_entry in H. destruct (Z.eqb_spec (nentries t) (bulk t)) as [E|E].
  - bind_inv H. apply int_Ok in Ha as [-> _].
    destruct (alloc_ok (bulk t * 2)) eqn:Ea.
    + right. apply Hstore in H as (? & ? & ? & ? & ? & ? & ? & ?).
      cbn [bulk nentries entries] in *. auto 10.
    + left. by injection H as <- <-.
  - right. apply Hstore in H as (? & ? & ? & ? & ? & ? & ? & ?). auto 10.
Qed.

(** X8: a table [new_table] returns has [max (2^(K+1), 256)] slots for
    a literal width [K] between 0 and 29, counts [2^K + 2] entries,
    and holds under each code below [2^K] the literal of length 1
    with the prefix [0xFFF] and the code cut to a byte as its suffix;
    every other slot, those of the clear and the stop code included,
    is left unassigned. *)
Theorem new_table_literals K t :
  new_table K = Ok (Some t) →
  0 ≤ K ≤ 29 ∧ alloc_ok (bulk t) = true ∧
  bulk t = Z.max (2 ^ (K + 1)) 256 ∧
  nentries t = 2 ^ K + 2 ∧ nentries t ≤ bulk t ∧
  ∀ i, entries t !! i
       = if bool_decide (0 ≤ i < 2 ^ K)
         then Some (Entry.mk 1 0xFFF (i mod 256)) else None.
Proof.
  unfold new_table. intros H. bind_inv H.
  apply shl_Ok in Ha as (-> & Hk & Hr).
  destruct (alloc_ok _) eqn:Ea; [|discriminate]. bind_inv H.
  apply shl_Ok in Ha as (-> & Hk' & Hr'). injection H as <-.
  cbn [bulk nentries entries]. rewrite !Z.mul_1_l in *.
  assert (0 < 2 ^ K) as Hp by (apply Z.pow_pos_nonneg; lia).
  assert (2 ^ (K + 1) = 2 * 2 ^ K) as Hp1.
  { rewrite Z.pow_add_r by lia. change (2 ^ 1) with 2. lia. }
  assert (MAX (2 ^ (K + 1)) 256 = Z.max (2 ^ (K + 1)) 256) as HM.
  { unfold MAX. destruct (Z.gtb_spec (2 ^ (K + 1)) 256); lia. }
  rewrite HM in *.
  assert (K ≤ 29) as HK.
  { destruct (Z.le_gt_cases K 29) as [|Hgt]; [done|exfalso].
    assert (2 ^ 30 ≤ 2 ^ K) by (apply Z.pow_le_mono_r; lia).
    change (2 ^ 30) with 1073741824 in *. unfold INT_MAX in *. lia. }
  split; [lia|]. split; [done|]. split; [done|]. split; [done|].
  split.
  { destruct (Z.eq_dec K 0) as [->|]; [cbn; lia|].
    assert (2 ^ 1 ≤ 2 ^ K) by (apply Z.pow_le_mono_r; lia).
    change (2 ^ 1) with 2 in *. lia. }
  intros i. rewrite literals_lookup, Z2Nat.id by lia. done.
Qed.

(** ** [read_image_data] at its edges *)

(** X9: when the first code of the image data is not the clear code,
    [read_image_data] tests [table_is_full] before anything was
    assigned to it: the behaviour of the C program is undefined. *)
Theorem read_image_data_first_code gif ini clear stop s0 g0 fuel x y w :
  lzw_init gif = Ok (ini, clear, stop, s0, g0) → key s0 ≠ clear →
  read_image_data (S fuel) gif x y w = Stuck UninitRead.
Proof.
  intros Hi Hk. unfold read_image_data. rewrite Hi. cbn [mbind res_bind].
  cbn [lzw_loop]. unfold lzw_iter, lzw_top.
  destruct (Z.eqb_spec (key s0) clear); [done|].
  unfold lzw_init in Hi. destruct (read1 (fd gif) None) as [o f].
  bind_inv Hi. bind_inv Hi. bind_inv Hi.
  apply bind_Ok in Hi as ([[k b] f0] & _ & Hi). by injection Hi as _ _ _ <- _.
Qed.

(** X10: when [malloc] refuses the code table, [new_table] returns
    null and [read_image_data] does not test it: the first turn of
    the loop goes through the null pointer (or, after a first code
    other than the clear code, uses [table_is_full] unassigned).  The
    -1 of an out-of-memory is not returned. *)
Theorem read_image_data_null_table gif kb fuel x y w :
  data (fd gif) !! pos (fd gif) = Some kb → Z_of_byte kb ≤ 15 →
  alloc_ok (MAX (2 ^ (Z_of_byte kb + 1)) 0x100) = false →
  read_image_data (S fuel) gif x y w = Stuck NullDeref ∨
  read_image_data (S fuel) gif x y w = Stuck UninitRead.
Proof.
  intros Hkb HK Ha. pose proof (Z_of_byte_range kb) as Hr.
  unfold read_image_data, lzw_init, read1.
  rewrite (read_1_some _ _ Hkb). cbn [use mbind res_bind].
  unfold new_table. rewrite !shl_1_fits by lia. cbn [mbind res_bind].
  rewrite Ha. cbn [mbind res_bind].
  destruct (get_key_total (mkFile (data (fd gif)) (pos (fd gif) + 1))
              (Z_of_byte kb + 1) (mkBits 0 0 (Z_of_byte kb)))
    as (k & b & f & ->); [lia|done|].
  cbn [mbind res_bind lzw_loop]. unfold lzw_iter, lzw_top.
  cbn [key table table_is_full].
  destruct (k =? _); [by left | by right].
Qed.

(** ** What decoding leaves as it was *)

Lemma advanced_refl f : advanced f f.
Proof. by split. Qed.

Lemma advanced_trans f1 f2 f3 :
  advanced f1 f2 → advanced f2 f3 → advanced f1 f3.
Proof. intros [? ?] [? ?]. split; [congruence | lia]. Qed.

Lemma read_advanced f n : advanced f (read f n).2.
Proof. split; cbn; [done | lia]. Qed.

Lemma lseek_advanced f n : advanced f (lseek f n).
Proof. split; cbn; [done | lia]. Qed.

Lemma read1_advanced f o : advanced f (read1 f o).2.
Proof.
  unfold read1. pose proof (read_advanced f 1) as H.
  by destruct (read f 1) as [[|??] ?].
Qed.

Lemma read1_into_advanced f o : advanced f (read1_into f o).2.
Proof.
  unfold read1_into. pose proof (read_advanced f 1) as H.
  by destruct (read f 1) as [[|??] ?].
Qed.

Lemma read_num_advanced f n f' : read_num f = Ok (n, f') → advanced f f'.
Proof.
  unfold read_num. pose proof (read_advanced f 2) as H.
  destruct (read f 2) as [[|?[|?[|??]]] ?]; try done.
  by intros [= _ <-].
Qed.

Lemma update_byte_advanced f b : advanced f (update_byte f b).2.
Proof.
  unfold update_byte.
  assert (advanced f (if sub_len b =? 0 then read1_into f (sub_len b)
                      else (sub_len b, f)).2) as H.
  { destruct (_ =? 0); [apply read1_into_advanced | apply advanced_refl]. }
  destruct (if sub_len b =? 0 then _ else _) as [len f1].
  pose proof (read1_into_advanced f1 (byte b)) as H1.
  destruct (read1_into f1 (byte b)) as [byt f2].
  by eapply advanced_trans.
Qed.

Lemma get_key_loop_advanced fuel : ∀ f ks b br key k b' f',
  get_key_loop fuel f ks b br key = Ok (k, b', f') → advanced f f'.
Proof.
  induction fuel as [|fuel IH]; intros f ks b br key k b' f';
    cbn [get_key_loop]; destruct (br <? ks);
    try discriminate; try (intros [= _ _ <-]; apply advanced_refl).
  assert (advanced f (if Z.rem (shift b + br) 8 =? 0 then update_byte f b
                      else (b, f)).2) as H.
  { destruct (_ =? 0); [apply update_byte_advanced | apply advanced_refl]. }
  destruct (if Z.rem (shift b + br) 8 =? 0 then _ else _) as [b1 f1].
  intros Hk. bind_inv Hk. apply IH in Hk. by eapply advanced_trans.
Qed.

Lemma get_key_advanced f ks b k b' f' :
  get_key f ks b = Ok (k, b', f') → advanced f f'.
Proof.
  unfold get_key. intros H.
  apply bind_Ok in H as ([[k0 b0] f0] & Hl & H). bind_inv H.
  injection H as _ _ <-. by eapply get_key_loop_advanced.
Qed.

Lemma image_kept_refl g : image_kept g g.
Proof. repeat split; done. Qed.

Lemma image_kept_trans g1 g2 g3 :
  image_kept g1 g2 → image_kept g2 g3 → image_kept g1 g3.
Proof.
  intros (?&?&?&?&?&?&?&?&?) (?&?&?&?&?&?&?&?&?).
  repeat split; try congruence; by eapply advanced_trans.
Qed.

Lemma image_kept_set_fd g f : advanced (fd g) f → image_kept g (set_fd g f).
Proof. intros H. by repeat split; try apply H. Qed.

Lemma emit_kept fuel : ∀ gif t x y w off e e1 gif',
  emit fuel gif t x y w off e = Ok (e1, gif') →
  image_kept gif gif' ∧ fd gif' = fd gif.
Proof.
  induction fuel as [|fuel IH]; intros gif t x y w off e e1 gif' H;
    [done|]. cbn [emit] in H. bind_inv H.
  destruct (w =? 0); [done|]. bind_inv H. bind_inv H.
  apply store_frame_Ok in Ha1 as [Hi ->].
  assert (image_kept gif
            (mkGIF (fd gif) (width gif) (height gif) (loop_count gif)
               (gce gif) (palette gif) (lct gif) (gct gif)
               (<[Z.to_nat a0 := Entry.suffix e]> (frame gif))
               ((a0, Entry.suffix e) :: stores gif))) as Hk.
  { repeat split; cbn; try done. by rewrite length_insert. }
  destruct (Entry.prefix e =? 0xFFF).
  - by injection H as <- <-.
  - bind_inv H. apply IH in H as [H1 H2]. split; [|done].
    by eapply image_kept_trans.
Qed.

Lemma lzw_string_kept fuel x y w s gif s' gif' :
  lzw_string fuel x y w s gif = Ok (s', gif') → image_kept gif gif'.
Proof.
  intros H. apply lzw_string_Ok in H as (ks & t & e & e1 & off & t' & _ & _ &
    _ & He & _). by apply emit_kept in He as [? _].
Qed.

Lemma lzw_iter_kept fuel x y w ini clear stop s gif fl :
  lzw_iter fuel x y w ini clear stop s gif = Ok fl →
  match fl with
  | Continue _ gif' | Break _ gif' => image_kept gif gif'
  | Return r gif' => r = -1 ∧ gif' = gif
  end.
Proof.
  unfold lzw_iter. intros H. bind_inv H. destruct a as [s1|].
  - apply bind_Ok in H as ([[k b] f] & Hg & H).
    apply get_key_advanced in Hg. apply image_kept_set_fd in Hg.
    destruct (k =? clear); [by injection H as <-|].
    destruct (k =? stop); [by injection H as <-|].
    apply bind_Ok in H as ([s2 g2] & Hs & H). injection H as <-.
    apply lzw_string_kept in Hs. by eapply image_kept_trans.
  - by injection H as <-.
Qed.

Lemma lzw_loop_kept n fuel : ∀ x y w ini clear stop s gif r gif',
  lzw_loop n fuel x y w ini clear stop s gif = Ok (r, gif') →
  image_kept gif gif' ∧ (r = 0 ∨ r = -1).
Proof.
  induction fuel as [|fuel IH]; intros x y w ini clear stop s gif r gif' H;
    [done|]. cbn [lzw_loop] in H. bind_inv H.
  apply lzw_iter_kept in Ha. destruct a as [s1 g1|s1 g1|r1 g1].
  - apply IH in H as [H ?]. split; [|done]. by eapply image_kept_trans.
  - pose proof (read1_into_advanced (fd g1) (sub_len (bits s1))) as Hr.
    destruct (read1_into (fd g1) (sub_len (bits s1))) as [z f].
    injection H as <- <-. split; [|by left].
    eapply image_kept_trans; [done|]. by apply image_kept_set_fd.
  - destruct Ha as [-> ->]. injection H as <- <-.
    split; [apply image_kept_refl | by right].
Qed.

Lemma lzw_init_kept gif ini clear stop s0 g0 :
  lzw_init gif = Ok (ini, clear, stop, s0, g0) → image_kept gif g0.
Proof.
  unfold lzw_init. intros Hi.
  pose proof (read1_advanced (fd gif) None) as H1.
  destruct (read1 (fd gif) None) as [o f]. bind_inv Hi. bind_inv Hi.
  bind_inv Hi. apply bind_Ok in Hi as ([[k b] f0] & Hg & Hi).
  injection Hi as _ _ _ _ <-. apply get_key_advanced in Hg.
  apply image_kept_set_fd. by eapply advanced_trans.
Qed.

Lemma lzw_session_kept gif ini clear stop s0 g0 n fuel x y w r gif' :
  lzw_init gif = Ok (ini, clear, stop, s0, g0) →
  lzw_loop n fuel x y w ini clear stop s0 g0 = Ok (r, gif') →
  (r = 0 ∨ r = -1) ∧ image_kept gif gif'.
Proof.
  intros Hi H. apply lzw_loop_kept in H as [Hk Hr]. split; [done|].
  apply lzw_init_kept in Hi. by eapply image_kept_trans.
Qed.

(** X11: [read_image_data] returns 0 or -1, and changes nothing of
    the decoder but the contents of the raster and the file offset,
    which does not move back: the dimensions, the loop count, the
    graphic-control block, the palettes and the length of the raster
    stay, and so do the contents of the file. *)
Theorem read_image_data_keeps fuel gif x y w r gif' :
  read_image_data fuel gif x y w = Ok (r, gif') →
  (r = 0 ∨ r = -1) ∧ image_kept gif gif'.
Proof.
  unfold read_image_data. intros H.
  apply bind_Ok in H as ([[[[ini clear] stop] s0] g0] & Hi & H).
  by eapply lzw_session_kept.
Qed.

(** ** [read_image] *)

Lemma read_colors_advanced f p n : advanced f (read_colors f p n).2.
Proof.
  unfold read_colors. pose proof (read_advanced f (Z.to_nat n)) as H.
  by destruct (read f (Z.to_nat n)).
Qed.

Lemma screen_kept_trans g1 g2 g3 :
  screen_kept g1 g2 → screen_kept g2 g3 → screen_kept g1 g3.
Proof.
  intros (?&?&?&?&?) (?&?&?&?&?).
  repeat split; try congruence; by eapply advanced_trans.
Qed.

Lemma image_kept_screen g g' : image_kept g g' → screen_kept g g'.
Proof. intros (?&?&?&?&?&?&?&?&[??]). by repeat split. Qed.

Ltac image_data_inv H Hr Hk :=
  let Hi := fresh "Hi" in
  unfold read_image_data in H;
  apply bind_Ok in H as ([[[[? ?] ?] ?] ?] & Hi & H);
  apply (lzw_session_kept _ _ _ _ _ _ _ _ _ _ _ _ _ Hi) in H as [Hr Hk].

Lemma read_image_kept fuel gif r gif' :
  read_image fuel gif = Ok (r, gif') →
  (r = 0 ∨ r = -1) ∧ screen_kept gif gif' ∧
  loop_count gif' = loop_count gif ∧ gce gif' = gce gif.
Proof.
  unfold read_image. intros H.
  apply bind_Ok in H as ([x f1] & H1 & H). apply read_num_advanced in H1.
  apply bind_Ok in H as ([y f2] & H2 & H). apply read_num_advanced in H2.
  apply bind_Ok in H as ([w f3] & H3 & H). apply read_num_advanced in H3.
  apply bind_Ok in H as ([h f4] & H4 & H). apply read_num_advanced in H4.
  pose proof (read1_advanced f4 None) as H5.
  destruct (read1 f4 None) as [o f5]. bind_inv H.
  assert (advanced (fd gif) f5) as Hf.
  { repeat (eapply advanced_trans; [|done]). done. }
  destruct (negb _).
  - bind_inv H.
    pose proof (read_colors_advanced f5
                  (gd_Palette.mk a0 (gd_Palette.colors (lct gif)))
                  (3 * a0)) as H6.
    destruct (read_colors f5 _ _) as [p f6].
    image_data_inv H Hr Hk. destruct Hk as (?&?&?&?&?&?&?&?&?).
    cbn in *. split; [done|].
    assert (advanced (fd gif) (fd gif')) as [??]
      by (repeat (eapply advanced_trans; [|done]); done).
    repeat split; try congruence; done.
  - image_data_inv H Hr Hk. destruct Hk as (?&?&?&?&?&?&?&?&?).
    cbn in *. split; [done|].
    assert (advanced (fd gif) (fd gif')) as [??]
      by (repeat (eapply advanced_trans; [|done]); done).
    repeat split; try congruence; done.
Qed.

(** X12: after the eight bytes of the rect and the packed byte,
    [read_image] makes the local palette the active one exactly when
    bit 7 of the packed byte is set: its size is then 2 to the power
    of the low three bits plus one, and its colours are the next
    [3 * size] bytes of the file (as many as the file has; the colours
    not read stay what they were).  Otherwise the global palette is
    made the active one and the local one is left alone.  The global
    palette is never changed. *)
Theorem read_image_palette fuel gif rect fisrz rest r gif' :
  length rect = 8%nat →
  drop (pos (fd gif)) (data (fd gif)) = rect ++ fisrz :: rest →
  read_image fuel gif = Ok (r, gif') →
  gct gif' = gct gif ∧
  if Z.testbit (Z_of_byte fisrz) 7
  then
    let size := 2 ^ (Z_of_byte fisrz mod 8 + 1) in
    let read := Z_of_byte <$> take (Z.to_nat (3 * size)) rest in
    palette gif' = palette_lct ∧
    gd_Palette.size (lct gif') = size ∧
    gd_Palette.colors (lct gif')
    = read ++ drop (length read) (gd_Palette.colors (lct gif))
  else palette gif' = palette_gct ∧ lct gif' = lct gif.
Proof.
  intros Hl Hd H.
  split; [by apply read_image_kept in H as (_ & (_&_&?&_) & _)|].
  unfold read_image in H.
  destruct rect as [|x0 [|x1 [|y0 [|y1 [|w0 [|w1 [|h0 [|h1 [|??]]]]]]]]];
    try done. cbn [app] in Hd.
  rewrite (read_num_some _ x0 x1) in H;
    [|by eapply lookup_at
     |rewrite <- Nat.add_1_r;
      by apply (lookup_at (mkFile _ _) x1 _ (drop_at _ _ [x0] _ 1 Hd eq_refl))].
  cbn [mbind res_bind] in H.
  pose proof (drop_at _ _ [x0; x1] _ 2 Hd eq_refl) as H2.
  rewrite (read_num_some (mkFile _ _) y0 y1) in H;
    [|by eapply lookup_at
     |cbn [data pos]; rewrite <- Nat.add_1_r;
      by apply (lookup_at (mkFile _ _) y1 _ (drop_at _ _ [y0] _ 1 H2 eq_refl))].
  cbn [mbind res_bind data pos] in H.
  pose proof (drop_at _ _ [y0; y1] _ 2 H2 eq_refl) as H4.
  rewrite (read_num_some (mkFile _ _) w0 w1) in H;
    [|by eapply lookup_at
     |cbn [data pos]; rewrite <- Nat.add_1_r;
      by apply (lookup_at (mkFile _ _) w1 _ (drop_at _ _ [w0] _ 1 H4 eq_refl))].
  cbn [mbind res_bind data pos] in H.
  pose proof (drop_at _ _ [w0; w1] _ 2 H4 eq_refl) as H6.
  rewrite (read_num_some (mkFile _ _) h0 h1) in H;
    [|by eapply lookup_at
     |cbn [data pos]; rewrite <- Nat.add_1_r;
      by apply (lookup_at (mkFile _ _) h1 _ (drop_at _ _ [h0] _ 1 H6 eq_refl))].
  cbn [mbind res_bind data pos] in H.
  pose proof (drop_at _ _ [h0; h1] _ 2 H6 eq_refl) as H8.
  unfold read1 in H.
  rewrite (read_1_some (mkFile _ _) fisrz) in H by by eapply lookup_at.
  cbn [use mbind res_bind data pos] in H.
  pose proof (drop_at _ _ [fisrz] _ 1 H8 eq_refl) as H9.
  pose proof (Z_of_byte_range fisrz) as Hr.
  change 128 with (2 ^ 7) in H. rewrite land_pow2 in H by done.
  destruct (Z.testbit (Z_of_byte fisrz) 7).
  - change (negb (2 ^ 7 =? 0)) with true in H. cbv iota in H.
    change 7 with (Z.ones 3) in H. rewrite Z.land_ones in H by done.
    change (2 ^ 3) with 8 in H.
    pose proof (Z.mod_pos_bound (Z_of_byte fisrz) 8) as Hm.
    rewrite shl_1_fits in H by lia. cbn [mbind res_bind] in H.
    unfold read_colors, read in H. cbn [data pos] in H. rewrite H9 in H.
    image_data_inv H Hret Hk. destruct Hk as (_&_&_&_&Hp&Hlct&_).
    cbn in Hp, Hlct. cbv zeta. rewrite Hlct, Hp. by cbn.
  - change (negb (0 =? 0)) with false in H. cbv iota in H.
    image_data_inv H Hret Hk. destruct Hk as (_&_&_&_&Hp&Hlct&_).
    by cbn in Hp, Hlct.
Qed.

(** ** [gd_get_frame] *)

Lemma discard_loop_advanced fuel : ∀ f size f',
  discard_loop fuel f size = Ok f' → advanced f f'.
Proof.
  induction fuel as [|fuel IH]; intros f size f' H; [done|].
  cbn [discard_loop] in H. pose proof (read1_advanced f size) as H1.
  destruct (read1 f size) as [o f1]. bind_inv H.
  pose proof (lseek_advanced f1 a) as H2.
  destruct (a =? 0).
  - injection H as <-. by eapply advanced_trans.
  - apply IH in H. eapply advanced_trans; [done|]. by eapply advanced_trans.
Qed.

Lemma discard_sub_blocks_advanced fuel g g' :
  discard_sub_blocks fuel g = Ok g' → advanced (fd g) (fd g').
Proof.
  unfold discard_sub_blocks. intros H. bind_inv H. injection H as <-.
  by apply discard_loop_advanced in Ha.
Qed.

Lemma read_ext_advanced fuel g g' :
  read_ext fuel g = Ok g' → advanced (fd g) (fd g').
Proof.
  unfold read_ext. intros H. pose proof (read1_advanced (fd g) None) as H1.
  destruct (read1 (fd g) None) as [o f]. bind_inv H. cbn [snd] in H1.
  eapply advanced_trans; [exact H1|]. clear H1.
  destruct (a =? 1).
  { unfold read_plain_text_ext in H. apply discard_sub_blocks_advanced in H.
    cbn in H. eapply advanced_trans; [|exact H]. apply lseek_advanced. }
  destruct (a =? 249).
  { unfold read_graphic_control_ext in H. cbn [set_fd fd gce] in H.
    pose proof (lseek_advanced f 1) as H1.
    pose proof (read1_advanced (lseek f 1) None) as H2.
    destruct (read1 (lseek f 1) None) as [o1 f1]. bind_inv H.
    apply bind_Ok in H as ([d f2] & H3 & H). apply read_num_advanced in H3.
    pose proof (read1_into_advanced f2 (tindex (gce g))) as H4.
    destruct (read1_into f2 (tindex (gce g))) as [ti f3].
    injection H as <-. cbn in *.
    repeat (eapply advanced_trans; [done|]). apply lseek_advanced. }
  destruct (a =? 254).
  { unfold read_comment_ext in H. by apply discard_sub_blocks_advanced in H. }
  destruct (a =? 255); [|injection H as <-; apply advanced_refl].
  unfold read_application_ext in H. cbn [set_fd fd] in H.
  pose proof (lseek_advanced f 1) as H1.
  pose proof (read_advanced (lseek f 1) 8) as H2.
  destruct (read (lseek f 1) 8) as [id f1].
  pose proof (read_advanced f1 3) as H3.
  destruct (read f1 3) as [au f2].
  assert (advanced f f2) as Hf by (repeat (eapply advanced_trans; [done|]); done).
  destruct (_ <? _)%nat; [done|]. destruct (bool_decide _).
  - apply bind_Ok in H as ([n f3] & H4 & H). apply read_num_advanced in H4.
    injection H as <-. cbn. eapply advanced_trans; [exact Hf|].
    eapply advanced_trans; [apply lseek_advanced|].
    eapply advanced_trans; [exact H4|]. apply lseek_advanced.
  - apply discard_sub_blocks_advanced in H. cbn in H.
    by eapply advanced_trans.
Qed.

Lemma read_ext_screen fuel g g' : read_ext fuel g = Ok g' → screen_kept g g'.
Proof.
  intros H. pose proof (read_ext_advanced _ _ _ H) as Ha.
  apply read_ext_same in H as (?&?&?&?&?&Hf&?&?).
  repeat split; try done; try apply Ha. by rewrite Hf.
Qed.

Lemma screen_kept_set_fd g f : advanced (fd g) f → screen_kept g (set_fd g f).
Proof. intros H. by repeat split; try apply H. Qed.

Lemma get_frame_loop_kept n fuel : ∀ gif sep r gif',
  get_frame_loop n fuel gif sep = Ok (r, gif') →
  (r = -1 ∨ r = 0 ∨ r = 1) ∧ screen_kept gif gif'.
Proof.
  assert (∀ gif r gif',
    read_image n gif ≫= (λ '(r, gif), if r =? -1 then Ok (-1, gif)
                                       else Ok (1, gif)) = Ok (r, gif') →
    (r = -1 ∨ r = 0 ∨ r = 1) ∧ screen_kept gif gif') as Himg.
  { intros gif r gif' H. apply bind_Ok in H as ([r0 g0] & Hi & H).
    apply read_image_kept in Hi as (_ & Hk & _).
    destruct (r0 =? -1); injection H as <- <-; auto. }
  induction fuel as [|fuel IH]; intros gif sep r gif' H;
    cbn [get_frame_loop] in H; destruct (sep =? sep_image); eauto; [done|].
  destruct (sep =? sep_trailer).
  { injection H as <- <-. split; [auto|]. apply screen_kept_set_fd.
    apply advanced_refl. }
  destruct (sep =? sep_ext); [|injection H as <- <-; split; [auto|];
                               apply screen_kept_set_fd, advanced_refl].
  bind_inv H. apply read_ext_screen in Ha.
  pose proof (read1_into_advanced (fd a) sep) as H1.
  destruct (read1_into (fd a) sep) as [sep' f].
  apply (screen_kept_set_fd a) in H1. apply IH in H as [Hr H].
  split; [done|]. eapply screen_kept_trans; [done|].
  by eapply screen_kept_trans.
Qed.

(** X13: a call of [gd_get_frame] that returns has returned -1, 0 or
    1, has read at least one byte, and has left the dimensions of the
    screen, the global palette, the length of the raster and the
    contents of the file as they were; the file offset never moves
    back. *)
Theorem gd_get_frame_keeps fuel gif r gif' :
  gd_get_frame fuel gif = Ok (r, gif') →
  (r = -1 ∨ r = 0 ∨ r = 1) ∧
  width gif' = width gif ∧ height gif' = height gif ∧
  gct gif' = gct gif ∧ length (frame gif') = length (frame gif) ∧
  data (fd gif') = data (fd gif) ∧ (pos (fd gif) < pos (fd gif'))%nat.
Proof.
  unfold gd_get_frame, read1. intros H.
  destruct (drop (pos (fd gif)) (data (fd gif))) as [|b l] eqn:E.
  { unfold read in H. by rewrite E in H. }
  rewrite (read_1_some _ b) in H by by eapply lookup_at.
  cbn [use mbind res_bind] in H.
  apply get_frame_loop_kept in H as [Hr (?&?&?&?&Hd&Hp)]. cbn in *.
  repeat split; try done. lia.
Qed.

(** ** [gd_open_gif] on a well-formed header *)

Lemma land_7 z : Z.land z 7 = z mod 8.
Proof. change 7 with (Z.ones 3). by rewrite Z.land_ones. Qed.

(** X14: on a file that starts with ["GIF89a"], the two dimensions,
    a packed byte with bit 7 set and bits 6..4 all set, and two more
    bytes, [gd_open_gif] prints nothing and, when the allocation is
    granted, returns a decoder with these dimensions, a zeroed raster
    of [width * height] bytes, zeroed loop count, graphic-control
    block and local palette, and the global palette as the active one:
    its size is 2 to the power of the low three bits of the packed
    byte plus one and its colours are the next [3 * size] bytes of the
    file (zero where the file ends before).  The background colour
    index and the aspect ratio are read and dropped.  The offset is
    left after the colours read. *)
Theorem gd_open_gif_decoder w0 w1 h0 h1 fdsz bg aspect rest :
  let bytes := bytes_of (GIF_sig ++ GIF_ver)
               ++ [w0; w1; h0; h1; fdsz; bg; aspect] ++ rest in
  let W := Z_of_byte w0 + 256 * Z_of_byte w1 in
  let H := Z_of_byte h0 + 256 * Z_of_byte h1 in
  let size := 2 ^ (Z_of_byte fdsz mod 8 + 1) in
  let colours := Z_of_byte <$> take (Z.to_nat (3 * size)) rest in
  Z.testbit (Z_of_byte fdsz) 7 = true →
  (Z_of_byte fdsz / 16) mod 8 = 7 →
  W * H ≤ INT_MAX → alloc_ok (W * H) = true →
  gd_open_gif (Some bytes)
  = Ok ([], gif_at (mkGIF (mkFile bytes (13 + length colours)) W H 0
                      (mkGCE 0 0 0 0 0) palette_gct gd_Palette.zero
                      (gd_Palette.mk size
                         (colours ++ drop (length colours)
                                       (replicate 768 0)))
                      (replicate (Z.to_nat (W * H)) 0) [])).
Proof.
  intros bytes W H size colours Hb7 Hd HWH Ha.
  pose proof (Z_of_byte_range w0) as Rw0.
  pose proof (Z_of_byte_range w1) as Rw1.
  pose proof (Z_of_byte_range h0) as Rh0.
  pose proof (Z_of_byte_range h1) as Rh1.
  pose proof (Z_of_byte_range fdsz) as Hf.
  unfold gd_open_gif.
  assert (drop (pos (mkFile bytes 0)) (data (mkFile bytes 0))
          = bytes_of GIF_sig ++ bytes_of GIF_ver
            ++ [w0; w1; h0; h1; fdsz; bg; aspect] ++ rest) as H0 by done.
  rewrite (read_at _ _ _ 3 H0 eq_refl). cbn [data pos].
  change (Z_of_byte <$> bytes_of GIF_sig) with GIF_sig.
  change (length GIF_sig <? 3)%nat with false. cbv iota.
  rewrite bool_decide_eq_true_2 by done. cbn [negb]. cbv iota.
  pose proof (drop_at _ _ _ _ 3 H0 eq_refl) as H3. cbn [data pos] in H3.
  unfold read_over.
  rewrite (read_at (mkFile _ _) _ _ 3 H3 eq_refl). cbn [data pos].
  change (Z_of_byte <$> bytes_of GIF_ver) with GIF_ver.
  change (GIF_ver ++ drop (length GIF_ver) GIF_sig) with GIF_ver.
  rewrite bool_decide_eq_true_2 by done. cbn [negb]. cbv iota.
  pose proof (drop_at _ _ _ _ 3 H3 eq_refl) as H6. cbn [data pos app] in H6.
  rewrite (read_num_some (mkFile _ _) w0 w1);
    [|by eapply lookup_at
     |cbn [data pos]; rewrite <- Nat.add_1_r;
      by apply (lookup_at (mkFile _ _) w1 _ (drop_at _ _ [w0] _ 1 H6 eq_refl))].
  cbn [mbind res_bind data pos].
  pose proof (drop_at _ _ [w0; w1] _ 2 H6 eq_refl) as H8.
  rewrite (read_num_some (mkFile _ _) h0 h1);
    [|by eapply lookup_at
     |cbn [data pos]; rewrite <- Nat.add_1_r;
      by apply (lookup_at (mkFile _ _) h1 _ (drop_at _ _ [h0] _ 1 H8 eq_refl))].
  cbn [mbind res_bind data pos].
  pose proof (drop_at _ _ [h0; h1] _ 2 H8 eq_refl) as H10.
  unfold read1. rewrite (read_1_some (mkFile _ _) fdsz) by by eapply lookup_at.
  cbn [use mbind res_bind data pos].
  pose proof (drop_at _ _ [fdsz] _ 1 H10 eq_refl) as H11.
  change 128 with (2 ^ 7). rewrite land_pow2, Hb7 by done.
  change (2 ^ 7 =? 0) with false. cbv iota.
  rewrite !land_7, Z.shiftr_div_pow2 by done. change (2 ^ 4) with 16.
  rewrite Hd. change (negb (7 =? 7)) with false.
  cbv iota.
  pose proof (Z.mod_pos_bound (Z_of_byte fdsz) 8) as Hm.
  rewrite shl_1_fits by lia. cbn [mbind res_bind].
  rewrite (read_at (mkFile _ _) [bg] _ 1 H11 eq_refl). cbn [data pos].
  pose proof (drop_at _ _ [bg] _ 1 H11 eq_refl) as H12.
  rewrite (read_at (mkFile _ _) [aspect] _ 1 H12 eq_refl). cbn [data pos].
  pose proof (drop_at _ _ [aspect] _ 1 H12 eq_refl) as H13.
  fold W H. rewrite int_fits by (unfold INT_MAX in *; nia).
  cbn [mbind res_bind]. rewrite Ha.
  unfold read_colors, read. cbn [data pos]. rewrite H13.
  fold size colours. cbn [gd_Palette.size gd_Palette.colors gd_Palette.zero].
  do 4 f_equal. rewrite length_take. unfold colours.
  rewrite length_fmap, length_take. by f_equal.
Qed.

(** ** The keys of the bit stream *)

Lemma lor_shiftl key c br :
  0 ≤ key < 2 ^ br → 0 ≤ br →
  Z.lor key (Z.shiftl c br) = key + c * 2 ^ br.
Proof.
  intros Hk Hbr. rewrite Z.shiftl_mul_pow2 by done.
  pose proof (Z.add_lor_land key (c * 2 ^ br)) as H.
  assert (Z.land key (c * 2 ^ br) = 0) as H0; [|lia].
  apply Z.bits_inj'. intros n Hn. rewrite Z.land_spec, Z.bits_0.
  destruct (Z.lt_ge_cases n br) as [Hlt|Hge].
  - by rewrite Z.mul_pow2_bits_low, andb_false_r.
  - destruct (Z.eq_dec key 0) as [->|Hnz]; [by rewrite Z.bits_0|].
    assert (Z.log2 key < br) by (apply Z.log2_lt_pow2; lia).
    rewrite Z.bits_above_log2; [done|lia|lia].
Qed.

Lemma mod_pow2_split S a b :
  0 ≤ a → 0 ≤ b →
  S mod 2 ^ (a + b) = S mod 2 ^ a + 2 ^ a * ((S / 2 ^ a) mod 2 ^ b).
Proof.
  intros Ha Hb. rewrite Z.pow_add_r by done.
  apply Z.rem_mul_r; [apply Z.pow_nonzero; lia | apply Z.pow_pos_nonneg; lia].
Qed.


(** The fetch of a byte takes the first data byte ahead. *)
Lemma update_byte_ahead f b d rest :
  bits_wf b → ahead b f = d :: rest →
  ∃ b1 f1, update_byte f b = (b1, f1) ∧ byte b1 = d ∧ shift b1 = shift b ∧
    bits_wf b1 ∧ ahead b1 f1 = rest.
Proof.
  intros (Hs & Hsh & Hb) Ha. unfold ahead in Ha. unfold update_byte.
  destruct (drop (pos f) (data f)) as [|x l] eqn:E; [done|].
  cbn [fmap list_fmap payload] in Ha.
  pose proof (lookup_at _ _ _ E) as Hx.
  pose proof (drop_at _ _ [x] _ 1 E eq_refl) as E1.
  destruct (Z.eqb_spec (sub_len b) 0) as [Hz|Hnz].
  - destruct l as [|y l]; [done|]. injection Ha as <- <-.
    unfold read1_into. rewrite (read_1_some _ _ Hx).
    rewrite (read_1_some (mkFile _ _) y)
      by by apply (lookup_at (mkFile _ _) y l).
    cbn [data pos]. eexists _, _. split; [done|]. cbn [byte shift sub_len].
    split; [done|]. split; [done|]. split.
    { split; [apply u8_range|]. split; [done|]. apply Z_of_byte_range. }
    unfold ahead. cbn [data pos sub_len].
    by rewrite (drop_at _ _ [y] l 1 E1 eq_refl).
  - injection Ha as <- <-. unfold read1_into.
    rewrite (read_1_some _ _ Hx). cbn [data pos].
    eexists _, _. split; [done|]. cbn [byte shift sub_len].
    split; [done|]. split; [done|]. split.
    { split; [apply u8_range|]. split; [done|]. apply Z_of_byte_range. }
    unfold ahead. cbn [data pos sub_len]. by rewrite E1.
Qed.

Lemma shiftr_byte_range byt r :
  0 ≤ byt < 256 → 0 ≤ r < 8 → 0 ≤ Z.shiftr byt r < 2 ^ (8 - r).
Proof.
  intros Hb Hr. rewrite Z.shiftr_div_pow2 by lia.
  assert (0 < 2 ^ r) by (apply Z.pow_pos_nonneg; lia).
  assert (2 ^ r * 2 ^ (8 - r) = 256) as Hp.
  { rewrite <- Z.pow_add_r by lia. by replace (r + (8 - r)) with 8 by lia. }
  split; [apply Z.div_pos; lia|]. apply Z.div_lt_upper_bound; lia.
Qed.

(** The byte the loop works on at bit [r]: the current one, or at
    [r = 0] the one it fetches. *)
Lemma fetch_at f b r :
  bits_wf b → 0 ≤ r < 8 → 1 ≤ left_at r (ahead b f) →
  ∃ b1 f1,
    (if r =? 0 then update_byte f b else (b, f)) = (b1, f1) ∧
    shift b1 = shift b ∧ bits_wf b1 ∧
    stream_at r (byte b) (ahead b f)
    = Z.shiftr (byte b1) r + 2 ^ (8 - r) * le_value (ahead b1 f1) ∧
    left_at r (ahead b f) = 8 - r + 8 * Z.of_nat (length (ahead b1 f1)).
Proof.
  intros Hwf Hr Hl. unfold stream_at, left_at in *.
  destruct (Z.eqb_spec r 0) as [->|Hnz].
  - destruct (ahead b f) as [|d rest] eqn:E; [cbn in Hl; lia|].
    destruct (update_byte_ahead f b d rest Hwf E)
      as (b1 & f1 & -> & Hd & Hs & Hwf1 & <-).
    exists b1, f1. rewrite Hd, Z.shiftr_0_r. cbn [le_value length].
    change (2 ^ (8 - 0)) with 256. repeat split; try done; try apply Hwf1.
    lia.
  - by exists b, f.
Qed.

Lemma mod_16_mod x ks : 0 ≤ ks ≤ 16 → u16 x mod 2 ^ ks = x mod 2 ^ ks.
Proof.
  intros Hks. unfold u16. change 65536 with (2 ^ 16).
  replace 16 with (ks + (16 - ks)) by lia.
  rewrite (mod_pow2_split x ks (16 - ks)) by lia.
  rewrite (Z.mul_comm (2 ^ ks)), Z_mod_plus_full. apply Z.mod_mod.
  apply Z.pow_nonzero; lia.
Qed.

Lemma get_key_loop_stream fuel : ∀ f ks b br key,
  0 ≤ br < ks → ks ≤ 16 → bits_wf b → 0 ≤ key < 2 ^ br →
  let r := (shift b + br) mod 8 in
  ks - br ≤ left_at r (ahead b f) →
  (Z.to_nat (ks - br) ≤ fuel)%nat →
  ∃ k b' f',
    get_key_loop fuel f ks b br key = Ok (k, b', f') ∧
    0 ≤ k < 65536 ∧
    k mod 2 ^ ks
    = key + 2 ^ br * (stream_at r (byte b) (ahead b f) mod 2 ^ (ks - br)) ∧
    stream_at ((shift b + ks) mod 8) (byte b') (ahead b' f')
    = stream_at r (byte b) (ahead b f) / 2 ^ (ks - br) ∧
    left_at ((shift b + ks) mod 8) (ahead b' f')
    = left_at r (ahead b f) - (ks - br) ∧
    shift b' = shift b ∧ bits_wf b'.
Proof.
  induction fuel as [|fuel IH]; intros f ks b br key Hbr Hks Hwf Hkey r Hl Hfuel;
    [lia|].
  cbn [get_key_loop].
  assert ((br <? ks) = true) as -> by (apply Z.ltb_lt; lia).
  pose proof Hwf as (_ & Hsh & _).
  rewrite Z.rem_mod_nonneg by lia. fold r.
  assert (0 ≤ r < 8) as Hr by (apply Z.mod_pos_bound; lia).
  destruct (fetch_at f b r Hwf Hr) as (b1 & f1 & -> & Hs1 & Hwf1 & HS & HL);
    [lia|].
  set (S := stream_at r (byte b) (ahead b f)) in *.
  set (c := Z.shiftr (byte b1) r) in *.
  set (A1 := le_value (ahead b1 f1)) in *.
  set (m := 8 - r) in *.
  assert (0 ≤ c < 2 ^ m) as Hc by (apply shiftr_byte_range; [apply Hwf1|done]).
  assert (2 ^ m ≤ 256) as Hm256.
  { change 256 with (2 ^ 8). apply Z.pow_le_mono_r; lia. }
  assert (0 < 2 ^ br) as Hpbr by (apply Z.pow_pos_nonneg; lia).
  assert (2 ^ br ≤ 2 ^ 15) as Hbr15 by (apply Z.pow_le_mono_r; lia).
  change (2 ^ 15) with 32768 in Hbr15.
  rewrite u16_small by lia.
  assert (shl c br = Ok (Z.shiftl c br)) as ->.
  { unfold shl.
    assert (((0 <=? br) && (br <? 32)) = true) as ->.
    { apply andb_true_iff. split; [apply Z.leb_le | apply Z.ltb_lt]; lia. }
    apply int_fits. rewrite Z.shiftl_mul_pow2 by lia. unfold INT_MAX. nia. }
  cbn [mbind res_bind]. rewrite lor_shiftl by lia.
  set (key1 := key + c * 2 ^ br).
  assert (0 ≤ key1) as Hk1 by (unfold key1; nia).
  assert (shift b + br = 8 * ((shift b + br) / 8) + r) as Hq
    by (unfold r; apply Z.div_mod; lia).
  unfold MIN. destruct (Z.ltb_spec (ks - br) m) as [Hlt|Hge].
  - (* the last bits of the key, and bits of the byte to spare *)
    replace (br + (ks - br)) with ks by lia.
    assert (get_key_loop fuel f1 ks b1 ks (u16 key1)
            = Ok (u16 key1, b1, f1)) as ->.
    { destruct fuel; cbn [get_key_loop]; by rewrite Z.ltb_irrefl. }
    set (j := ks - br) in *.
    assert ((shift b + ks) mod 8 = r + j) as Hr'.
    { replace (shift b + ks) with (r + j + ((shift b + br) / 8) * 8)
        by (unfold j; lia).
      rewrite Z_mod_plus_full. apply Z.mod_small. unfold m in Hlt. lia. }
    assert (0 < 2 ^ j) as Hpj by (apply Z.pow_pos_nonneg; lia).
    assert (2 ^ m = 2 ^ (m - j) * 2 ^ j) as Hmj.
    { rewrite <- Z.pow_add_r by lia. f_equal. lia. }
    exists (u16 key1), b1, f1. split; [done|]. split; [apply u16_range|].
    split; [|split; [|split; [|done]]].
    + rewrite mod_16_mod by lia. unfold key1.
      replace ks with (br + j) by (unfold j; lia).
      rewrite Z.pow_add_r by lia.
      rewrite (Z.add_comm key), (Z.mul_comm c).
      rewrite Z.add_mul_mod_distr_l by lia.
      rewrite HS, Hmj.
      replace (c + 2 ^ (m - j) * 2 ^ j * A1)
        with (c + (2 ^ (m - j) * A1) * 2 ^ j) by lia.
      rewrite Z_mod_plus_full. lia.
    + rewrite Hr'. unfold stream_at.
      destruct (Z.eqb_spec (r + j) 0); [lia|].
      rewrite HS, Hmj.
      replace (c + 2 ^ (m - j) * 2 ^ j * A1)
        with (c + (2 ^ (m - j) * A1) * 2 ^ j) by lia.
      rewrite Z_div_plus_full by lia.
      unfold c. rewrite <- Z.shiftr_div_pow2, Z.shiftr_shiftr by lia.
      replace (8 - (r + j)) with (m - j) by (unfold m; lia). done.
    + rewrite Hr', HL. unfold left_at.
      destruct (Z.eqb_spec (r + j) 0); [lia|]. unfold m. lia.
  - (* the bits of the byte that are left all go into the key *)
    assert (key1 < 2 ^ (br + m)) as Hk1'.
    { rewrite Z.pow_add_r by lia. unfold key1. nia. }
    assert (2 ^ (br + m) ≤ 2 ^ 16) as H16 by (apply Z.pow_le_mono_r; lia).
    change (2 ^ 16) with 65536 in H16. rewrite u16_small by lia.
    assert ((shift b + (br + m)) mod 8 = 0) as Hr0.
    { replace (shift b + (br + m)) with (0 + ((shift b + br) / 8 + 1) * 8)
        by (unfold m; lia).
      by rewrite Z_mod_plus_full. }
    assert (0 < 2 ^ m) as Hpm by (apply Z.pow_pos_nonneg; lia).
    assert (S mod 2 ^ m = c) as HSm.
    { rewrite HS, (Z.mul_comm (2 ^ m)), Z_mod_plus_full.
      apply Z.mod_small. lia. }
    assert (S / 2 ^ m = A1) as HSd.
    { rewrite HS, (Z.mul_comm (2 ^ m)), Z_div_plus_full by lia.
      rewrite Z.div_small by lia. lia. }
    destruct (Z.eq_dec (br + m) ks) as [Heq|Hne].
    + rewrite Heq.
      assert (get_key_loop fuel f1 ks b1 ks key1 = Ok (key1, b1, f1)) as ->.
      { destruct fuel; cbn [get_key_loop]; by rewrite Z.ltb_irrefl. }
      exists key1, b1, f1. split; [done|]. split; [lia|].
      replace (ks - br) with m by lia.
      rewrite <- Heq, Hr0 in *. unfold stream_at at 1. unfold left_at at 1.
      cbn [Z.eqb]. rewrite HSm, HSd, HL.
      split; [rewrite Z.mod_small by lia; unfold key1; lia|].
      split; [done|]. split; [lia|]. done.
    + destruct (IH f1 ks b1 (br + m) key1)
        as (k & b' & f' & -> & Hk & Hkm & Hst & Hlf & Hs' & Hwf');
        try done; try lia.
      { rewrite Hs1, Hr0. unfold left_at. cbn [Z.eqb]. lia. }
      rewrite Hs1, Hr0 in *. unfold stream_at at 1 in Hkm.
      unfold stream_at at 2 in Hst. unfold left_at at 2 in Hlf.
      cbn [Z.eqb] in *. fold A1 in Hkm, Hst.
      exists k, b', f'. split; [done|]. split; [done|].
      split; [|split; [|split; [|split; [congruence|done]]]].
      * rewrite Hkm.
        replace (ks - br) with (m + (ks - (br + m))) by lia.
        rewrite (mod_pow2_split S m) by lia. rewrite HSm, HSd.
        rewrite Z.pow_add_r by lia. unfold key1. lia.
      * rewrite Hst.
        replace (ks - br) with (m + (ks - (br + m))) at 1 by lia.
        rewrite Z.pow_add_r by lia.
        rewrite <- Z.div_div, HSd;
          [done | lia | apply Z.pow_pos_nonneg; lia].
      * rewrite Hlf, HL. lia.
Qed.

(** One key off the bit stream. *)
Lemma get_key_stream f b ks :
  0 < ks ≤ 16 → bits_wf b → ks ≤ bits_left b f →
  ∃ b' f',
    get_key f ks b = Ok (bit_stream b f mod 2 ^ ks, b', f') ∧
    bit_stream b' f' = bit_stream b f / 2 ^ ks ∧
    bits_left b' f' = bits_left b f - ks ∧
    bits_wf b'.
Proof.
  intros Hks Hwf Hl. pose proof Hwf as (_ & Hsh & _).
  unfold bit_stream, bits_left in *.
  destruct (get_key_loop_stream (Z.to_nat ks) f ks b 0 0)
    as (k & b1 & f1 & Hg & Hk & Hkm & Hst & Hlf & Hs1 & Hwf1);
    try done; try lia.
  { rewrite Z.add_0_r, Z.mod_small by lia. lia. }
  rewrite Z.add_0_r, (Z.mod_small (shift b) 8) in * by lia.
  rewrite Z.sub_0_r, Z.add_0_l, Z.mul_1_l in *.
  unfold get_key. rewrite Hg. cbn [mbind res_bind].
  rewrite shl_1_fits by lia. cbn [mbind res_bind].
  replace (2 ^ ks - 1) with (Z.ones ks) by (rewrite Z.ones_equiv; lia).
  rewrite Z.land_ones by lia.
  assert (0 < 2 ^ ks) by (apply Z.pow_pos_nonneg; lia).
  assert (2 ^ ks ≤ 2 ^ 16) as H16 by (apply Z.pow_le_mono_r; lia).
  change (2 ^ 16) with 65536 in H16.
  rewrite u16_small, Hkm by (pose proof (Z.mod_pos_bound k (2 ^ ks)); lia).
  assert (0 ≤ (shift b + ks) mod 8 < 8) as Hr by (apply Z.mod_pos_bound; lia).
  rewrite Hs1, Z.rem_mod_nonneg, u8_small by lia.
  eexists _, _. split; [done|]. cbn [shift byte sub_len].
  unfold ahead in *. cbn [sub_len]. split; [done|]. split; [done|].
  destruct Hwf1 as (? & ? & ?). repeat split; cbn; lia.
Qed.

Lemma get_key_loop_shift fuel : ∀ f ks b br key k b' f',
  get_key_loop fuel f ks b br key = Ok (k, b', f') → shift b' = shift b.
Proof.
  induction fuel as [|fuel IH]; intros f ks b br key k b' f';
    cbn [get_key_loop]; destruct (br <? ks);
    try discriminate; try (by intros [= _ <- _]).
  pose proof (update_byte_shift f b) as Hu.
  destruct (Z.rem (shift b + br) 8 =? 0).
  - destruct (update_byte f b) as [b1 f1]. cbn [fst] in Hu.
    intros H. bind_inv H. apply IH in H. congruence.
  - intros H. bind_inv H. by apply IH in H.
Qed.

(** X15: [get_key] takes the keys off the bit stream lowest bit
    first.  For a width of at most 16 bits, and as long as the stream
    has that many bits left, the key returned is the stream modulo
    [2^key_size], the stream left is the stream divided by
    [2^key_size] and is that many bits shorter, [shift] has moved on
    by the width modulo 8, and the file is the same, read further
    on. *)
Theorem get_key_bit_stream f b ks :
  0 < ks ≤ 16 → bits_wf b → ks ≤ bits_left b f →
  ∃ b' f',
    get_key f ks b = Ok (bit_stream b f mod 2 ^ ks, b', f') ∧
    bit_stream b' f' = bit_stream b f / 2 ^ ks ∧
    bits_left b' f' = bits_left b f - ks ∧
    bits_wf b' ∧ shift b' = (shift b + ks) mod 8 ∧ advanced f f'.
Proof.
  intros Hks Hwf Hl.
  destruct (get_key_stream f b ks Hks Hwf Hl) as (b' & f' & Hg & ? & ? & ?).
  exists b', f'. do 4 (split; [done|]).
  split; [|by apply get_key_advanced in Hg].
  destruct Hwf as (_ & Hsh & _). unfold get_key in Hg.
  apply bind_Ok in Hg as ([[k0 b0] f0] & Hloop & Hg). bind_inv Hg.
  injection Hg as _ <- _. cbn [shift].
  apply get_key_loop_shift in Hloop. rewrite Hloop.
  rewrite Z.rem_mod_nonneg by lia. apply u8_small.
  pose proof (Z.mod_pos_bound (shift b + ks) 8). lia.
Qed.

(** ** Packed codes *)

Lemma le_value_app l1 l2 :
  le_value (l1 ++ l2)
  = le_value l1 + 2 ^ (8 * Z.of_nat (length l1)) * le_value l2.
Proof.
  induction l1 as [|x l1 IH]; cbn [app le_value length]; [lia|].
  rewrite IH, Nat2Z.inj_succ.
  replace (8 * Z.succ (Z.of_nat (length l1)))
    with (8 + 8 * Z.of_nat (length l1)) by lia.
  rewrite Z.pow_add_r by lia. change (2 ^ 8) with 256. lia.
Qed.

Lemma bytes_of_bits_spec n : ∀ v,
  0 ≤ v →
  length (bytes_of_bits n v) = n ∧
  Forall (λ x, 0 ≤ x < 256) (bytes_of_bits n v) ∧
  le_value (bytes_of_bits n v) = v mod 2 ^ (8 * Z.of_nat n).
Proof.
  induction n as [|n IH]; intros v Hv; cbn [bytes_of_bits le_value length].
  - split; [done|]. split; [done|]. by rewrite Z.mod_1_r.
  - destruct (IH (v / 256)) as (Hl & Hr & Hv'); [apply Z.div_pos; lia|].
    split; [by rewrite Hl|]. split.
    { constructor; [apply Z.mod_pos_bound; lia | done]. }
    rewrite Hv', Nat2Z.inj_succ.
    replace (8 * Z.succ (Z.of_nat n)) with (8 + 8 * Z.of_nat n) by lia.
    rewrite (mod_pow2_split v 8) by lia. by change (2 ^ 8) with 256.
Qed.

Lemma pack_bits_range cs v m :
  codes_fit cs → pack_bits cs = (v, m) → 0 ≤ m ∧ 0 ≤ v < 2 ^ m.
Proof.
  revert v m. induction cs as [|[c n] cs IH]; intros v m Hcs Hp.
  - injection Hp as <- <-. by cbn.
  - apply Forall_cons in Hcs as [[Hn Hc] Hcs]. cbn [fst snd] in *.
    cbn [pack_bits] in Hp. destruct (pack_bits cs) as [v1 m1].
    injection Hp as <- <-. destruct (IH v1 m1 Hcs eq_refl) as [Hm1 Hv1].
    split; [lia|]. rewrite Z.pow_add_r by lia.
    assert (0 < 2 ^ n) by (apply Z.pow_pos_nonneg; lia). nia.
Qed.

Lemma Z_of_bytes_of l :
  Forall (λ x, 0 ≤ x < 256) l → Z_of_byte <$> bytes_of l = l.
Proof.
  unfold bytes_of. induction 1 as [|x l Hx _ IH]; [done|].
  cbn [fmap list_fmap] in *. by rewrite IH, Z_of_byte_of_Z.
Qed.

Lemma payload_block l : ∀ n rest,
  n = Z.of_nat (length l) → n < 256 →
  payload n (l ++ rest) = l ++ payload 0 rest.
Proof.
  induction l as [|x l IH]; intros n rest -> Hn; [done|].
  cbn [app payload length]. rewrite Nat2Z.inj_succ.
  destruct (Z.eqb_spec (Z.succ (Z.of_nat (length l))) 0); [lia|].
  cbn [length] in Hn.
  assert (u8 (Z.succ (Z.of_nat (length l)) - 1) = Z.of_nat (length l)) as Hu
    by (rewrite u8_small; lia).
  rewrite IH; [done|done|lia].
Qed.

(** The keys of a bit stream whose low bits are the packed codes. *)
Lemma get_keys_stream cs : ∀ f b v m,
  codes_fit cs → pack_bits cs = (v, m) →
  bits_wf b → m ≤ bits_left b f → bit_stream b f mod 2 ^ m = v →
  ∃ b' f', get_keys f b cs.*2 = Ok (cs.*1, b', f').
Proof.
  induction cs as [|[c n] cs IH]; intros f b v m Hcs Hp Hwf Hl HS.
  - by eexists _, _.
  - pose proof Hcs as Hcs'. apply Forall_cons in Hcs' as [[Hn Hc] Hcs'].
    cbn [fst snd] in *. cbn [pack_bits] in Hp.
    destruct (pack_bits cs) as [v1 m1] eqn:Hp1. injection Hp as <- <-.
    destruct (pack_bits_range cs v1 m1 Hcs' Hp1) as [Hm1 Hv1].
    destruct (get_key_stream f b n) as (b1 & f1 & Hg & Hst & Hlf & Hwf1);
      [done|done|lia|].
    assert (0 < 2 ^ n) as Hpn by (apply Z.pow_pos_nonneg; lia).
    rewrite (mod_pow2_split _ n m1) in HS by lia.
    pose proof (Z.mod_pos_bound (bit_stream b f) (2 ^ n) Hpn) as Hb.
    assert (bit_stream b f mod 2 ^ n = c ∧
            (bit_stream b f / 2 ^ n) mod 2 ^ m1 = v1) as [Hk Hrest].
    { assert (bit_stream b f mod 2 ^ n
              = (c + v1 * 2 ^ n) mod 2 ^ n) as Hk.
      { rewrite <- HS, (Z.mul_comm (2 ^ n)), Z_mod_plus_full.
        symmetry. apply Z.mod_mod. lia. }
      rewrite Z_mod_plus_full, (Z.mod_small c) in Hk by lia.
      split; [done|]. rewrite Hk in HS. nia. }
    destruct (IH f1 b1 v1 m1) as (b2 & f2 & Hks); try done.
    { lia. } { by rewrite Hst. }
    cbn [fmap list_fmap get_keys fst snd]. rewrite Hg, Hk.
    cbn [mbind res_bind]. rewrite Hks. cbn [mbind res_bind].
    by eexists _, _.
Qed.

(** X16: codes packed lowest bit first into one sub-block, the way
    an encoder packs them, are read back by successive calls of
    [get_key] with their widths, from a bit source as
    [read_image_data] sets it up ([sub_len] and [shift] at 0) standing
    at the length byte of the sub-block. *)
Theorem get_keys_pack f b cs rest :
  codes_fit cs →
  sub_len b = 0 → shift b = 0 → 0 ≤ byte b < 256 →
  (0 < length (pack cs) < 256)%nat →
  drop (pos f) (data f)
  = bytes_of (Z.of_nat (length (pack cs)) :: pack cs) ++ rest →
  ∃ b' f', get_keys f b cs.*2 = Ok (cs.*1, b', f').
Proof.
  intros Hcs Hsl Hsh Hb Hlen Hd.
  destruct (pack_bits cs) as [v m] eqn:Hp.
  destruct (pack_bits_range cs v m Hcs Hp) as [Hm Hv].
  unfold pack in *. rewrite Hp in *.
  set (nb := Z.to_nat ((m + 7) / 8)) in *.
  destruct (bytes_of_bits_spec nb v) as (Hnb & Hr & Hval); [lia|].
  assert (m ≤ 8 * Z.of_nat nb) as Hm8.
  { unfold nb. rewrite Z2Nat.id by (apply Z.div_pos; lia).
    pose proof (Z.mul_div_le (m + 7) 8). pose proof (Z.mod_pos_bound (m + 7) 8).
    pose proof (Z.div_mod (m + 7) 8). lia. }
  assert (ahead b f = bytes_of_bits nb v ++ payload 0 (Z_of_byte <$> rest))
    as Ha.
  { unfold ahead. rewrite Hd, Hsl, fmap_app, Z_of_bytes_of.
    - cbn [app payload Z.eqb].
      destruct (bytes_of_bits nb v) as [|d l] eqn:E; [cbn in Hlen; lia|].
      cbn [app]. f_equal. rewrite payload_block; [done| |apply u8_range].
      rewrite u8_small by (cbn [length] in *; lia). cbn [length]. lia.
    - constructor; [lia|done]. }
  apply (get_keys_stream cs f b v m); try done.
  - unfold bits_wf. rewrite Hsl, Hsh. lia.
  - unfold bits_left, left_at. rewrite Hsh, Ha, length_app, Hnb.
    cbn [Z.eqb]. lia.
  - unfold bit_stream, stream_at. rewrite Hsh, Ha, le_value_app, Hnb, Hval.
    cbn [Z.eqb].
    assert (0 < 2 ^ m) by (apply Z.pow_pos_nonneg; lia).
    assert (2 ^ m ≤ 2 ^ (8 * Z.of_nat nb)) by (apply Z.pow_le_mono_r; lia).
    rewrite (Z.mod_small v) by lia.
    replace (8 * Z.of_nat nb) with (m + (8 * Z.of_nat nb - m)) by lia.
    rewrite Z.pow_add_r by lia.
    replace (2 ^ m * 2 ^ (8 * Z.of_nat nb - m)
             * le_value (payload 0 (Z_of_byte <$> rest)))
      with (2 ^ (8 * Z.of_nat nb - m)
            * le_value (payload 0 (Z_of_byte <$> rest)) * 2 ^ m) by lia.
    rewrite Z_mod_plus_full. apply Z.mod_small. lia.
Qed.

(** ** What -1 means *)

Lemma add_entry_granted t l p c r t' :
  (∀ n, alloc_ok n = true) → add_entry t l p c = Ok (r, t') → r ≠ -1.
Proof.
  intros Hg H. unfold add_entry in H.
  destruct (nentries t =? bulk t).
  - bind_inv H. rewrite Hg in H.
    apply add_entry_store_Ok in H as (_ & _ & ->). by destruct (_ =? 0).
  - apply add_entry_store_Ok in H as (_ & _ & ->). by destruct (_ =? 0).
Qed.

Lemma lzw_top_granted ini clear s :
  (∀ n, alloc_ok n = true) → lzw_top ini clear s ≠ Ok None.
Proof.
  intros Hg H. unfold lzw_top in H. destruct (key s =? clear).
  - bind_inv H. by bind_inv H.
  - bind_inv H. destruct (negb a); [|done].
    bind_inv H. bind_inv H. bind_inv H.
    apply bind_Ok in H as ([r t] & Hadd & H).
    apply (add_entry_granted _ _ _ _ _ _ Hg) in Hadd.
    destruct (Z.eqb_spec r (-1)); [done|]. by destruct (nentries t =? 4096).
Qed.

Lemma lzw_loop_granted n fuel : ∀ x y w ini clear stop s gif r gif',
  (∀ n, alloc_ok n = true) →
  lzw_loop n fuel x y w ini clear stop s gif = Ok (r, gif') → r = 0.
Proof.
  induction fuel as [|fuel IH]; intros x y w ini clear stop s gif r gif' Hg H;
    [done|]. cbn [lzw_loop] in H. bind_inv H.
  destruct a as [s1 g1|s1 g1|r1 g1].
  - by eapply IH.
  - destruct (read1_into (fd g1) (sub_len (bits s1))). by injection H as <- _.
  - exfalso. unfold lzw_iter in Ha. bind_inv Ha. destruct a as [s1|].
    + apply bind_Ok in Ha as ([[k b] f] & _ & Ha).
      destruct (k =? clear); [done|]. destruct (k =? stop); [done|].
      by apply bind_Ok in Ha as ([??] & _ & Ha).
    + by apply (lzw_top_granted _ _ _ Hg) in Ha0.
Qed.

Lemma read_image_data_granted_aux fuel gif x y w r gif' :
  (∀ n, alloc_ok n = true) →
  read_image_data fuel gif x y w = Ok (r, gif') → r ≠ -1.
Proof.
  intros Hg H. unfold read_image_data in H.
  apply bind_Ok in H as ([[[[ini clear] stop] s0] g0] & _ & H).
  by rewrite (lzw_loop_granted _ _ _ _ _ _ _ _ _ _ _ _ Hg H).
Qed.

(** X17: with an allocator that grants every request,
    [read_image_data] never returns -1: when it returns, it returns
    0. *)
Theorem read_image_data_granted fuel gif x y w r gif' :
  (∀ n, alloc_ok n = true) →
  read_image_data fuel gif x y w = Ok (r, gif') → r = 0.
Proof.
  intros Hg H. unfold read_image_data in H.
  apply bind_Ok in H as ([[[[ini clear] stop] s0] g0] & _ & H).
  by eapply lzw_loop_granted.
Qed.

Lemma read1_into_last f old z f' :
  read1_into f old = (z, f') →
  (z = old ∧ f' = mkFile (data f) (pos f + 0)) ∨
  ∃ c, data f' !! (pos f' - 1)%nat = Some c ∧ Z_of_byte c = z ∧
       (0 < pos f')%nat.
Proof.
  unfold read1_into, read.
  destruct (drop (pos f) (data f)) as [|c l] eqn:E; cbn; intros [= <- <-].
  - by left.
  - right. exists c. cbn. replace (pos f + 1 - 1)%nat with (pos f) by lia.
    split; [by eapply lookup_at|]. split; [done|lia].
Qed.

Lemma get_frame_loop_error n fuel : ∀ gif sep gif',
  (∀ n, alloc_ok n = true) →
  sep = sep_ext ∨
  (∃ c, data (fd gif) !! (pos (fd gif) - 1)%nat = Some c ∧
        Z_of_byte c = sep ∧ (0 < pos (fd gif))%nat) →
  get_frame_loop n fuel gif sep = Ok (-1, gif') →
  ∃ c, data (fd gif') !! (pos (fd gif') - 1)%nat = Some c ∧
       Z_of_byte c ≠ sep_image ∧ Z_of_byte c ≠ sep_trailer ∧
       Z_of_byte c ≠ sep_ext ∧ (0 < pos (fd gif'))%nat.
Proof.
  intros gif sep gif' Hg. revert gif sep gif'.
  assert (∀ gif gif',
    read_image n gif ≫= (λ '(r, gif), if r =? -1 then Ok (-1, gif)
                                       else Ok (1, gif)) ≠ Ok (-1, gif'))
    as Himg.
  { intros gif gif' H. apply bind_Ok in H as ([r0 g0] & Hi & H).
    destruct (Z.eqb_spec r0 (-1)) as [->|]; [|done].
    unfold read_image in Hi.
    apply bind_Ok in Hi as ([x f1] & _ & Hi).
    apply bind_Ok in Hi as ([y f2] & _ & Hi).
    apply bind_Ok in Hi as ([w f3] & _ & Hi).
    apply bind_Ok in Hi as ([h f4] & _ & Hi).
    destruct (read1 f4 None) as [o f5]. bind_inv Hi.
    destruct (negb _).
    - bind_inv Hi. destruct (read_colors f5 _ _) as [p f6].
      by apply (read_image_data_granted_aux _ _ _ _ _ _ _ Hg) in Hi.
    - by apply (read_image_data_granted_aux _ _ _ _ _ _ _ Hg) in Hi. }
  induction fuel as [|fuel IH]; intros gif sep gif' Hsep H;
    cbn [get_frame_loop] in H;
    destruct (Z.eqb_spec sep sep_image) as [|Hn1];
    try (by apply Himg in H); [done|].
  destruct (Z.eqb_spec sep sep_trailer) as [|Hn2]; [done|].
  destruct (Z.eqb_spec sep sep_ext) as [->|Hn3].
  - bind_inv H.
    pose proof (read1_into_last (fd a) sep_ext) as Hl.
    destruct (read1_into (fd a) sep_ext) as [sep' f].
    apply IH in H; [done|].
    destruct (Hl _ _ eq_refl) as [[-> _]|Hc]; [by left | by right].
  - injection H as <-. destruct Hsep as [|(c & Hc & <- & Hp)]; [done|].
    by exists c.
Qed.

(** X18: with an allocator that grants every request, a call of
    [gd_get_frame] that returns -1 has stopped right after a byte it
    read as a separator and that is none of [','], [';'] and
    ['!']. *)
Theorem gd_get_frame_bad_separator fuel gif gif' :
  (∀ n, alloc_ok n = true) →
  gd_get_frame fuel gif = Ok (-1, gif') →
  ∃ c, data (fd gif') !! (pos (fd gif') - 1)%nat = Some c ∧
       Z_of_byte c ≠ sep_image ∧ Z_of_byte c ≠ sep_trailer ∧
       Z_of_byte c ≠ sep_ext ∧ (0 < pos (fd gif'))%nat.
Proof.
  intros Hg H. unfold gd_get_frame, read1 in H.
  destruct (drop (pos (fd gif)) (data (fd gif))) as [|b l] eqn:E.
  { unfold read in H. by rewrite E in H. }
  rewrite (read_1_some _ b) in H by by eapply lookup_at.
  cbn [use mbind res_bind] in H.
  apply (get_frame_loop_error _ _ _ _ _ Hg) in H; [done|].
  right. exists b. cbn. replace (pos (fd gif) + 1 - 1)%nat with (pos (fd gif))
    by lia. split; [by eapply lookup_at|]. split; [done|lia].
Qed.

(** ** The strings decoded *)

Lemma lzw_codes_turns P fuel n x y w ini clear stop s0 g0 ks s g :
  lzw_codes P fuel n x y w ini clear stop s0 g0 = Some (ks, s, g) →
  lzw_turns P fuel n x y w ini clear stop s0 g0 = Some (s, g).
Proof.
  revert ks s g. induction n as [|n IH]; intros ks s g H; cbn in H |- *.
  - by injection H as _ <- <-.
  - destruct (lzw_codes _ _ n _ _ _ _ _ _ _ _) as [[[ks1 s1] g1]|]; [|done].
    rewrite (IH _ _ _ eq_refl).
    destruct (lzw_iter _ _ _ _ _ _ _ _ _) as [[s2 g2| |]| |]; try done.
    destruct (P s2); [|done]. by injection H as _ <- <-.
Qed.

Lemma chain_literal m b i σ :
  chain m b (Entry.mk 1 0xFFF i) σ → σ = [i].
Proof. intros H. by inversion H. Qed.

(** The strings of a table that holds [d] are those of [ref_string]. *)
Lemma table_holds_string K t d k σ :
  table_holds K t d → nentries t = 2 ^ K + 2 + Z.of_nat (length d) →
  is_data K k → k < nentries t → code_string t k σ →
  ref_string K d k = Some σ.
Proof.
  intros [Hlit Hd] Hn Hk Hlt (e & He & Hch). unfold ref_string.
  destruct Hk as [Hk|Hk].
  - assert ((0 <=? k) && (k <? 2 ^ K) = true) as ->
      by (apply andb_true_iff; split; [apply Z.leb_le|apply Z.ltb_lt]; lia).
    rewrite (Hlit k Hk) in He. injection He as <-.
    by rewrite (chain_literal _ _ _ _ Hch).
  - assert ((0 <=? k) && (k <? 2 ^ K) = false) as ->
      by (apply andb_false_iff; right; apply Z.ltb_ge; lia).
    assert ((2 ^ K + 2 <=? k) = true) as -> by (apply Z.leb_le; lia).
    destruct (d !! Z.to_nat (k - (2 ^ K + 2))) as [σ'|] eqn:E.
    + destruct (Hd _ _ E) as (e' & He' & Hch').
      replace (2 ^ K + 2 + Z.of_nat (Z.to_nat (k - (2 ^ K + 2)))) with k
        in He', Hch' by lia.
      rewrite He in He'. injection He' as <-.
      f_equal. by eapply chain_unique.
    + apply lookup_ge_None in E. lia.
Qed.

(** A store into a slot above the strings. *)
Lemma table_holds_insert K t d n e t' :
  table_holds K t d → entries t' = <[n := e]> (entries t) →
  2 ^ K ≤ n → d = [] ∨ 2 ^ K + 2 + Z.of_nat (length d) ≤ n →
  table_holds K t' d.
Proof.
  intros [Hlit Hd] He Hn Hdn. split.
  - intros i Hi. rewrite He, lookup_insert_ne; [auto|lia].
  - intros j σ Hj. destruct (Hd _ _ Hj) as (e' & He' & Hch).
    apply lookup_lt_Some in Hj as Hlt.
    destruct Hdn as [->|Hdn]; [cbn in Hlt; lia|].
    exists e'. rewrite He. split.
    + rewrite lookup_insert_ne; [done|lia].
    + apply chain_insert; [done|lia].
Qed.

Lemma table_holds_snoc K t d σ :
  table_holds K t d →
  code_string t (2 ^ K + 2 + Z.of_nat (length d)) σ →
  table_holds K t (d ++ [σ]).
Proof.
  intros [Hlit Hd] Hs. split; [done|]. intros j σ' Hj.
  apply lookup_app_Some in Hj as [Hj|[Hge Hj]]; [auto|].
  apply list_lookup_singleton_Some in Hj as [Hj <-].
  by replace j with (length d) by lia.
Qed.

Lemma table_holds_nil K t d : table_holds K t d → table_holds K t [].
Proof. intros [Hlit _]. split; [done|]. intros j σ Hj. done. Qed.

Lemma take_1_head {A} (σ : list A) c : head σ = Some c → take 1 σ = [c].
Proof. destruct σ; [done|]. by intros [= ->]. Qed.

Lemma take_1_app {A} (p q : list A) : p ≠ [] → take 1 (p ++ q) = take 1 p.
Proof. by destruct p. Qed.

(** The head of a turn against the decoding over strings: a reset
    leaves no strings, a full table keeps them, and an addition
    appends the string of the code read last and its first
    character. *)
Lemma dec_top K x y w g0 s g s1 t1 d prev :
  0 ≤ K ≤ 11 → size_inv K s → lzw_inv K x y w g0 s g → dec_inv K s d prev →
  lzw_top (K + 1) (2 ^ K) s = Ok (Some s1) → table s1 = Some t1 →
  ∃ d1,
    table_holds K t1 d1 ∧
    nentries t1 = 2 ^ K + 2 + Z.of_nat (length d1) ∧
    table_is_full s1 = Some (negb (ref_room K d1)) ∧
    ((d = [] ∧ prev = None ∧ d1 = []) ∨
     (∃ p, prev = Some p ∧ ref_room K d = false ∧ d1 = d) ∨
     (∃ p e c, prev = Some p ∧ ref_room K d = true ∧ p ≠ [] ∧
        d1 = d ++ [p ++ take 1 p] ∧
        0 ≤ key s < nentries t1 - 1 ∧
        entries t1 !! key s = Some e ∧ chain (entries t1) (key s) e p ∧
        entries t1 !! (nentries t1 - 1)
        = Some (Entry.mk (Entry.length e + 1) (key s) c))).
Proof.
  intros HK Hsz Hinv Hdec Htop Ht1. pose proof (pow2_bounds K HK) as HP.
  destruct Hinv as (Hkey & Hoff & HW & Hft & _ & Htab).
  apply lzw_top_Ok in Htop as [(Hk & t & n & Ht & Hn & ->)|
    [(Hk & Hf & ->)|(Hk & Hf & l & e1 & t & r & t' & Hl & He1 & Ht & Ha & Hr & Hs1)]].
  - replace (K + 1 - 1) with K in Hn by lia.
    rewrite shl_1_fits in Hn by lia. injection Hn as <-.
    cbn in Ht1. injection Ht1 as <-.
    destruct (Hdec t Ht) as [Hh Hd]. rewrite Hk, Z.eqb_refl in Hd.
    destruct Hd as [-> ->]. exists []. split; [done|]. cbn [length].
    split; [cbn; lia|]. split; [|by left].
    cbn. f_equal. symmetry. apply negb_false_iff, Z.ltb_lt. cbn. lia.
  - destruct (Hdec t1 Ht1) as [Hh Hd].
    apply Z.eqb_neq in Hk as Hk'. rewrite Hk' in Hd.
    destruct Hd as (Hn & p & -> & Hp); [congruence|].
    destruct (Hsz t1 Ht1) as (_ & Hfull & _). specialize (Hfull Hf).
    assert (ref_room K d = false) as Hroom
      by (apply Z.ltb_ge; lia).
    exists d. split; [done|]. split; [done|]. rewrite Hroom.
    split; [done|]. right. left. eauto.
  - assert (table s1 = Some t' ∧
            table_is_full s1 = Some (nentries t' =? 0x1000)) as [Ht' Hf1].
    { rewrite Hs1. destruct (nentries t' =? 4096); cbn; by rewrite ?Hf. }
    rewrite Ht1 in Ht'. injection Ht' as <-. clear Hs1.
    destruct (Hdec t Ht) as [Hh Hd].
    apply Z.eqb_neq in Hk as Hk'. rewrite Hk' in Hd.
    destruct Hd as (Hn & p & -> & e' & He' & Hch'); [congruence|].
    destruct (Htab t Ht) as (Hwf & Hdat).
    destruct Hdat as (Hdk & Hkn & e & σ & e1' & rest & He & Hch & Hsl & He1'
                      & Hsr & Hh1 & _); [done|congruence|].
    rewrite He in He'. injection He' as <-.
    assert (σ = p) as -> by (by eapply chain_unique).
    rewrite Hl in Hsl. injection Hsl as ->.
    rewrite He1 in He1'. injection He1' as <-.
    destruct (Hsz t Ht) as (_ & _ & Hnf). specialize (Hnf Hf).
    pose proof Ha as Ha'.
    apply add_entry_Ok in Ha' as (_ & _ & _ & Hent & _); [|done].
    eapply wf_table_add in Ha as (Hwf' & Hn' & Hnew & Hchn & _); try done.
    assert (0 ≤ key s) as Hk0 by lia.
    exists (d ++ [p ++ take 1 p]).
    rewrite (take_1_head _ _ Hh1), length_app. cbn [length].
    split.
    { apply table_holds_snoc.
      - eapply table_holds_insert; [done..|lia|right; lia].
      - rewrite <- Hn. eexists. split; [done|]. done. }
    split; [lia|]. split.
    { rewrite Hf1. f_equal. unfold ref_room. rewrite length_app. cbn [length].
      destruct Hwf' as (Hle & _).
      destruct (Z.eqb_spec (nentries t1) 4096) as [E|E]; symmetry.
      - apply negb_true_iff, Z.ltb_ge. lia.
      - apply negb_false_iff, Z.ltb_lt. lia. }
    right. right. exists p, e, (Entry.suffix e1).
    split; [done|]. split; [apply Z.ltb_lt; lia|].
    split; [by destruct p|].
    split; [by rewrite (take_1_head _ _ Hh1)|]. split; [lia|].
    rewrite Hent. split; [rewrite lookup_insert_ne; [done|lia]|].
    split; [apply chain_insert; [done|lia]|].
    rewrite <- Hent. by replace (nentries t1 - 1) with (nentries t) by lia.
Qed.

(** One turn of the loop against the decoding over strings. *)
Lemma dec_turn K fuel x y w g0 s g s' g' d prev :
  0 ≤ K ≤ 11 → size_inv K s → lzw_inv K x y w g0 s g → dec_inv K s d prev →
  lzw_iter fuel x y w (K + 1) (2 ^ K) (2 ^ K + 1) s g = Ok (Continue s' g') →
  code_in_table (2 ^ K) s' = true →
  (key s' = 2 ^ K ∧ dec_inv K s' [] None ∧
   stores g' = stores g ∧ frm_off s' = frm_off s) ∨
  (key s' ≠ 2 ^ K ∧ ∃ d' σ,
     ref_code K d prev (key s') = Some (d', σ) ∧ dec_inv K s' d' (Some σ) ∧
     stores g' = placed (width g0) x y w (frm_off s) σ ++ stores g ∧
     frm_off s' = frm_off s + Z.of_nat (length σ)).
Proof.
  intros HK Hsz Hinv Hdec H Hcode. pose proof (pow2_bounds K HK) as HP.
  destruct (valid_turn _ _ _ _ _ _ _ _ _ _ HK Hsz Hinv H Hcode)
    as (Hinv' & s1 & t1 & Htop & Ht1 & Hcase).
  destruct (dec_top _ _ _ _ _ _ _ _ _ _ _ HK Hsz Hinv Hdec Htop Ht1)
    as (d1 & Hh1 & Hn1 & Hf1 & Hd1).
  destruct Hcase as [(Hk & Hst & Hoff & Ht')|
    (Hk & Hdk & Hkn & e & σ & e1 & t' & full1 & Hfull1 & He & Hch & _ & Hst
     & Hoff & _ & Hhd & Ht' & Hn' & He' & Hch' & Hpatch)].
  - left. repeat (split; [done|]). split; [|done].
    intros t Ht. rewrite Ht' in Ht. injection Ht as <-.
    split; [by eapply table_holds_nil|]. by rewrite Hk, Z.eqb_refl.
  - right. split; [done|].
    rewrite Hf1 in Hfull1. injection Hfull1 as <-.
    assert (ref_string K d1 (key s') = Some σ) as Hσ.
    { eapply table_holds_string; [done..|]. by exists e. }
    assert (∀ d', table_holds K t' d' → length d' = length d1 →
              dec_inv K s' d' (Some σ)) as Hfin.
    { intros d' Hh' Hlen t Ht. rewrite Ht' in Ht. injection Ht as <-.
      split; [done|]. apply Z.eqb_neq in Hk. rewrite Hk. intros _.
      split; [lia|]. exists σ. split; [done|]. by exists e. }
    destruct Hd1 as [(-> & -> & ->)|[(p & -> & Hroom & ->)|
      (p & ep & c & -> & Hroom & Hp & -> & Hks & Hep & Hchp & Hlast)]].
    + (* after a clear code *)
      exists [], σ. cbn [ref_code]. rewrite Hσ. cbn.
      split; [done|]. split; [|done]. apply Hfin; [|done].
      destruct ((key s' <? nentries t1 - 1) && negb (negb (ref_room K [])));
        [|by subst t'].
      apply table_set_suffix_Ok in Hpatch
        as (_ & _ & _ & [[_ ->]|(e0 & _ & He0)]); [done|].
      eapply table_holds_insert; [done..|cbn [length] in Hn1; lia|by left].
    + (* a full table *)
      exists d, σ. cbn [ref_code]. rewrite Hroom, Hσ. cbn.
      split; [done|]. split; [|done]. apply Hfin; [|done].
      rewrite Hroom, andb_false_r in Hpatch. by subst t'.
    + (* an addition *)
      rewrite length_app in Hn1. cbn [length] in Hn1.
      assert (ref_room K (d ++ [p]) = ref_room K (d ++ [p ++ take 1 p]))
        as Hroom' by (unfold ref_room; by rewrite !length_app).
      eexists _, σ. cbn [ref_code]. rewrite Hroom, Hσ. cbn.
      split; [done|]. split; [|done]. rewrite Hroom'.
      rewrite negb_involutive in Hpatch.
      destruct (key s' <? nentries t1 - 1) eqn:Elt; cbn [andb] in Hpatch.
      * apply Z.ltb_lt in Elt.
        destruct (ref_room K (d ++ [p ++ take 1 p])) eqn:Er.
        -- apply table_set_suffix_Ok in Hpatch
             as (_ & _ & _ & [[Hnone _]|(e0 & He0 & Hent)]); [congruence|].
           rewrite Hlast in He0. injection He0 as <-. cbn in Hent.
           apply Hfin; [|by rewrite !length_app].
           rewrite (take_1_head _ _ Hhd). apply table_holds_snoc.
           ++ eapply table_holds_insert; [|done|lia|right; lia].
              destruct Hh1 as [Hlit Hd]. split; [done|].
              intros j σ' Hj. apply Hd. apply lookup_app_Some. by left.
           ++ replace (2 ^ K + 2 + Z.of_nat (length d))
                with (nentries t1 - 1) by lia.
              eexists. rewrite Hent. split; [by rewrite lookup_insert_eq|].
              apply (chain_cons _ _ (Entry.mk (Entry.length ep + 1) (key s)
                                       (Entry.suffix e1)) ep p); cbn.
              ** lia.
              ** destruct Hinv' as (_ & _ & _ & _ & _ & Htab').
                 destruct (Htab' t' Ht') as ((Hle & _) & _). lia.
              ** rewrite lookup_insert_ne; [done|lia].
              ** done.
              ** apply chain_insert; [done|lia].
        -- subst t'. by apply Hfin.
      * subst t'. apply Z.ltb_ge in Elt.
        assert (σ = p ++ take 1 p) as Hσp.
        { destruct Hh1 as [_ Hd].
          destruct (Hd (length d) (p ++ take 1 p)) as (e2 & He2 & Hch2).
          { by rewrite lookup_app_r, Nat.sub_diag by lia. }
          replace (2 ^ K + 2 + Z.of_nat (length d)) with (key s')
            in He2, Hch2 by lia.
          rewrite He in He2. injection He2 as <-. by eapply chain_unique. }
        assert (take 1 σ = take 1 p) as Hσ1
          by (rewrite Hσp; by apply take_1_app).
        replace (take 1 (if ref_room K (d ++ [p ++ take 1 p]) then σ else p))
          with (take 1 p) by (by destruct (ref_room _ _)).
        by apply Hfin.
Qed.

Lemma new_table_holds K t :
  0 ≤ K ≤ 11 → new_table K = Ok (Some t) → table_holds K t [].
Proof.
  intros HK H. unfold new_table in H. pose proof (pow2_bounds K HK) as HP.
  rewrite !shl_1_fits in H by lia. cbn [mbind res_bind] in H.
  destruct (alloc_ok _); [|discriminate]. injection H as <-.
  split; [|done]. intros i Hi. cbn [entries].
  rewrite literals_lookup. case_bool_decide; [done|lia].
Qed.

Lemma lzw_init_holds gif ini clear stop s0 g0 t :
  lzw_init gif = Ok (ini, clear, stop, s0, g0) → ini ≤ 12 →
  table s0 = Some t → table_holds (ini - 1) t [].
Proof.
  unfold lzw_init. intros H Hini.
  destruct (read1 (fd gif) None) as [byt f] eqn:Er.
  bind_inv H. apply use_Ok in Ha as ->.
  apply read1_range in Er as HK; [|done].
  bind_inv H. bind_inv H. rename a1 into t0. bind_inv H.
  destruct a1 as [[k b] f']. injection H as <- <- <- <- <-.
  cbn [table]. intros ->. replace (a + 1 - 1) with a by lia.
  apply new_table_holds; [lia|done].
Qed.

(** The turns of a session against the decoding over strings. *)
Lemma dec_session gif ini clear stop s0 g0 fuel n x y w ks s g :
  lzw_init gif = Ok (ini, clear, stop, s0, g0) → ini ≤ 12 →
  lzw_codes (code_in_table clear) fuel n x y w ini clear stop s0 g0
    = Some (ks, s, g) →
  ∃ K d prev out l,
    0 ≤ K ≤ 11 ∧ ini = K + 1 ∧ size_inv K s ∧ lzw_inv K x y w g0 s g ∧
    lzw_ref K ks = Some (d, prev, out) ∧ dec_inv K s d prev ∧
    frm_off s = Z.of_nat (length out) ∧
    stores g = l ++ stores gif ∧ l ≡ₚ placed (width gif) x y w 0 out.
Proof.
  intros Hinit Hini.
  destruct (valid_session _ _ _ _ _ _ fuel 0 x y w _ _ Hinit Hini eq_refl)
    as (K & HK & -> & -> & -> & Hsz0 & Hinv0 & HW & Hst).
  pose proof (lzw_init_Ok _ _ _ _ _ _ Hinit Hini)
    as (K' & _ & HK' & _ & _ & _ & _ & Hoff0 & Hfull0 & _).
  assert (K' = K) as -> by lia.
  pose proof (pow2_bounds K HK) as HP.
  revert ks s g. induction n as [|n IH]; intros ks s g H; cbn in H.
  - injection H as <- <- <-. exists K, [], None, [], [].
    repeat (split; [done|]). split.
    { intros t Ht. split.
      - replace K with (K + 1 - 1) by lia. by eapply lzw_init_holds.
      - destruct (key s0 =? 2 ^ K); [done|]. intros Hf. congruence. }
    by rewrite Hoff0.
  - destruct (lzw_codes _ _ n _ _ _ _ _ _ _ _) as [[[ks1 s1] g1]|]; [|done].
    destruct (IH _ _ _ eq_refl)
      as (K1 & d & prev & out & l & _ & HK1 & Hsz & Hinv & Href & Hdec & Hoff
          & Hl & Hperm).
    assert (K1 = K) as -> by lia.
    destruct (lzw_iter _ _ _ _ _ _ _ _ _) as [[s2 g2| |]| |] eqn:E; try done.
    destruct (code_in_table (2 ^ K) s2) eqn:EP; [|done].
    injection H as <- <- <-.
    pose proof (size_inv_step _ _ _ _ _ _ _ _ _ HK Hsz E) as Hsz'.
    pose proof (valid_turn _ _ _ _ _ _ _ _ _ _ HK Hsz Hinv E EP) as [Hinv' _].
    destruct (dec_turn _ _ _ _ _ _ _ _ _ _ _ _ HK Hsz Hinv Hdec E EP)
      as [(Hk & Hdec' & Hst' & Hoff')|
          (Hk & d' & σ & Hcode & Hdec' & Hst' & Hoff')].
    + exists K, [], None, out, l. repeat (split; [done|]).
      split.
      { unfold lzw_ref. rewrite foldl_app. cbn [foldl].
        fold (lzw_ref K ks1). rewrite Href. cbn. by rewrite Hk, Z.eqb_refl. }
      split; [done|]. split; [congruence|]. split; [congruence|done].
    + exists K, d', (Some σ), (out ++ σ), (placed (width g0) x y w (frm_off s1) σ ++ l).
      repeat (split; [done|]). split.
      { unfold lzw_ref. rewrite foldl_app. cbn [foldl].
        fold (lzw_ref K ks1). rewrite Href. cbn.
        apply Z.eqb_neq in Hk. by rewrite Hk, Hcode. }
      split; [done|]. split; [rewrite length_app; lia|].
      split; [by rewrite Hst', Hl, app_assoc|].
      rewrite placed_app, Z.add_0_l, <- Hoff, HW, Hperm.
      apply Permutation_app_comm.
Qed.

(** X19: in a session whose first code width is at most 12 and whose
    codes are all codes of the table, the pixels stored are those of
    the decoding over strings of the codes read: the clear code
    empties the dictionary, a data code stands for its string, and
    each data code after another adds the string of the one before
    with the first pixel of its own, up to code 4095, which keeps the
    first pixel of the string before.  The stores are, up to their
    order, this pixel sequence placed from the linear offset 0 on,
    and [frm_off] is its length. *)
Theorem lzw_codes_decoded gif ini clear stop s0 g0 fuel n x y w ks s g :
  lzw_init gif = Ok (ini, clear, stop, s0, g0) → ini ≤ 12 →
  lzw_codes (code_in_table clear) fuel n x y w ini clear stop s0 g0
    = Some (ks, s, g) →
  ∃ d prev out,
    lzw_ref (ini - 1) ks = Some (d, prev, out) ∧
    frm_off s = Z.of_nat (length out) ∧
    stores g ≡ₚ placed (width gif) x y w 0 out ++ stores gif.
Proof.
  intros Hinit Hini H.
  destruct (dec_session _ _ _ _ _ _ _ _ _ _ _ _ _ _ Hinit Hini H)
    as (K & d & prev & out & l & HK & -> & _ & _ & Href & _ & Hoff & Hl
        & Hperm).
  exists d, prev, out. replace (K + 1 - 1) with K by lia.
  repeat (split; [done|]). by rewrite Hl, Hperm.
Qed.

(** ** The raster after a session *)

Lemma apply_stores_length l fr : length (apply_stores l fr) = length fr.
Proof.
  induction l as [|iv l IH]; [done|]. cbn. by rewrite length_insert.
Qed.

Lemma apply_stores_app l1 l2 fr :
  apply_stores (l1 ++ l2) fr = apply_stores l1 (apply_stores l2 fr).
Proof. unfold apply_stores. by rewrite foldr_app. Qed.

Lemma traced_refl g : traced g g.
Proof. by exists []. Qed.

Lemma traced_trans g1 g2 g3 : traced g1 g2 → traced g2 g3 → traced g1 g3.
Proof.
  intros (l1 & Hs1 & Hf1 & Hb1) (l2 & Hs2 & Hf2 & Hb2).
  exists (l2 ++ l1). rewrite Hs2, Hs1, Hf2, Hf1, apply_stores_app.
  split; [by rewrite app_assoc|]. split; [done|].
  apply Forall_app. split; [|done].
  by rewrite Hf1, apply_stores_length in Hb2.
Qed.

Lemma traced_length g g' : traced g g' → length (frame g') = length (frame g).
Proof. intros (l & _ & -> & _). apply apply_stores_length. Qed.

Lemma emit_traced fuel : ∀ gif t x y w off e e1 gif',
  emit fuel gif t x y w off e = Ok (e1, gif') → traced gif gif'.
Proof.
  induction fuel as [|fuel IH]; intros gif t x y w off e e1 gif' H;
    [done|]. cbn [emit] in H. bind_inv H.
  destruct (w =? 0); [done|]. bind_inv H. bind_inv H.
  apply store_frame_Ok in Ha1 as [Hi ->].
  assert (traced gif
            (mkGIF (fd gif) (width gif) (height gif) (loop_count gif)
               (gce gif) (palette gif) (lct gif) (gct gif)
               (<[Z.to_nat a0 := Entry.suffix e]> (frame gif))
               ((a0, Entry.suffix e) :: stores gif))) as Hk.
  { exists [(a0, Entry.suffix e)]. cbn. repeat split; try done.
    by apply Forall_singleton. }
  destruct (Entry.prefix e =? 0xFFF).
  - by injection H as <- <-.
  - bind_inv H. apply IH in H. by eapply traced_trans.
Qed.

Lemma lzw_iter_traced fuel x y w ini clear stop s gif s' gif' :
  lzw_iter fuel x y w ini clear stop s gif = Ok (Continue s' gif') →
  traced gif gif'.
Proof.
  intros H. apply lzw_iter_Continue in H as (s1 & k & b & f & _ & _ & H).
  cbn zeta in H. assert (traced gif (set_fd gif f)) as Hf by (by exists []).
  destruct H as [(_ & _ & ->)|(_ & _ & H)]; [done|].
  apply lzw_string_Ok in H as (ks & t & e & e1 & off & t' & _ & _ & _ & He
                               & _).
  apply emit_traced in He. by eapply traced_trans.
Qed.

Lemma lzw_codes_traced P fuel n x y w ini clear stop s0 g0 ks s g :
  lzw_codes P fuel n x y w ini clear stop s0 g0 = Some (ks, s, g) →
  traced g0 g.
Proof.
  revert ks s g. induction n as [|n IH]; intros ks s g H; cbn in H.
  - injection H as _ _ <-. apply traced_refl.
  - destruct (lzw_codes _ _ n _ _ _ _ _ _ _ _) as [[[ks1 s1] g1]|]; [|done].
    destruct (lzw_iter _ _ _ _ _ _ _ _ _) as [[s2 g2| |]| |] eqn:E; try done.
    destruct (P s2); [|done]. injection H as _ _ <-.
    apply lzw_iter_traced in E. eapply traced_trans; [|done]. by eapply IH.
Qed.

(** A cell stored once holds the value stored. *)
Lemma apply_stores_lookup l fr i v :
  NoDup l.*1 → Forall (λ iv, 0 ≤ iv.1 < Z.of_nat (length fr)) l →
  (i, v) ∈ l → apply_stores l fr !! Z.to_nat i = Some v.
Proof.
  induction l as [|[j u] l IH]; intros Hnd Hb Hin; [by apply elem_of_nil in Hin|].
  cbn in Hnd. apply NoDup_cons in Hnd as [Hj Hnd].
  apply Forall_cons in Hb as [Hjb Hb]. cbn in Hjb. cbn [apply_stores foldr].
  fold (apply_stores l fr). cbn [fst snd].
  apply elem_of_cons in Hin as [[= -> ->]|Hin].
  - apply list_lookup_insert_eq. rewrite apply_stores_length. lia.
  - assert (i ≠ j) as Hne.
    { intros ->. apply Hj. apply list_elem_of_fmap. by exists (j, v). }
    rewrite Forall_forall in Hb. pose proof (Hb _ Hin) as Hib. cbn in Hib.
    rewrite list_lookup_insert_ne by lia. rewrite Forall_forall in IH. auto.
Qed.

(** A cell never stored keeps its value. *)
Lemma apply_stores_other l fr i :
  (∀ iv, iv ∈ l → Z.to_nat iv.1 ≠ i) → apply_stores l fr !! i = fr !! i.
Proof.
  induction l as [|[j u] l IH]; intros H; [done|].
  cbn [apply_stores foldr]. fold (apply_stores l fr). cbn [fst snd].
  rewrite list_lookup_insert_ne.
  - apply IH. intros iv Hiv. apply H. by right.
  - apply (H (j, u)). by left.
Qed.

(** The offsets of distinct pixels of a frame no wider than the
    raster are distinct. *)
Lemma pixel_index_inj W x y w p q :
  0 < w ≤ W → 0 ≤ p → 0 ≤ q →
  pixel_index W x y w p = pixel_index W x y w q → p = q.
Proof.
  intros Hw Hp Hq. rewrite !pixel_index_eq by lia. intros H.
  pose proof (Z.mod_pos_bound p w) as Hpm.
  pose proof (Z.mod_pos_bound q w) as Hqm.
  assert (p / w = q / w) as Hd by nia.
  assert (p mod w = q mod w) as Hm by nia.
  rewrite (Z.div_mod p w), (Z.div_mod q w) by lia. by rewrite Hd, Hm.
Qed.

Lemma placed_lookup W x y w off σ i v :
  (i, v) ∈ placed W x y w off σ ↔
  ∃ p, σ !! p = Some v ∧ i = pixel_index W x y w (off + Z.of_nat p).
Proof.
  unfold placed. split.
  - intros H. apply elem_of_lookup_imap_1 in H as (p & c & [= -> ->] & Hp).
    eauto.
  - intros (p & Hp & ->).
    apply elem_of_lookup_imap. by exists p, v.
Qed.

Lemma placed_NoDup W x y w σ :
  0 < w ≤ W → NoDup (placed W x y w 0 σ).*1.
Proof.
  intros Hw. apply NoDup_alt. intros i j k Hi Hj.
  rewrite list_lookup_fmap in Hi, Hj. unfold placed in Hi, Hj.
  rewrite list_lookup_imap in Hi, Hj.
  destruct (σ !! i) as [vi|]; [|done]. destruct (σ !! j) as [vj|]; [|done].
  cbn in Hi, Hj. injection Hi as <-. injection Hj as Hj.
  apply pixel_index_inj in Hj; lia.
Qed.

(** The raster after the turns of a session on a frame that is no
    wider than the raster. *)
Lemma frame_session gif ini clear stop s0 g0 fuel n x y w ks s g :
  lzw_init gif = Ok (ini, clear, stop, s0, g0) → ini ≤ 12 →
  lzw_codes (code_in_table clear) fuel n x y w ini clear stop s0 g0
    = Some (ks, s, g) →
  0 < w ≤ width gif →
  ∃ d prev out,
    lzw_ref (ini - 1) ks = Some (d, prev, out) ∧
    length (frame g) = length (frame gif) ∧
    (∀ p, (p < length out)%nat →
       0 ≤ (y + Z.of_nat p / w) * width gif + (x + Z.of_nat p mod w)
         < Z.of_nat (length (frame gif))) ∧
    (∀ p v, out !! p = Some v →
       frame g !! Z.to_nat ((y + Z.of_nat p / w) * width gif
                            + (x + Z.of_nat p mod w)) = Some v) ∧
    ∀ i,
      (∀ p, (p < length out)%nat →
         Z.to_nat ((y + Z.of_nat p / w) * width gif + (x + Z.of_nat p mod w))
         ≠ i) →
      frame g !! i = frame gif !! i.
Proof.
  intros Hinit Hini H Hw.
  destruct (dec_session _ _ _ _ _ _ _ _ _ _ _ _ _ _ Hinit Hini H)
    as (K & d & prev & out & l & HK & -> & _ & _ & Href & _ & _ & Hl & Hperm).
  pose proof (lzw_init_Ok _ _ _ _ _ _ Hinit Hini)
    as (K' & _ & _ & _ & _ & _ & _ & _ & _ & _ & _ & _ & _ & Hst0 & Hfr0 & _).
  pose proof (lzw_codes_traced _ _ _ _ _ _ _ _ _ _ _ _ _ _ H)
    as (l' & Hs & Hf & Hb).
  rewrite Hst0, Hl in Hs. apply app_inv_tail in Hs as <-.
  rewrite Hfr0 in Hf, Hb.
  exists d, prev, out. replace (K + 1 - 1) with K by lia.
  split; [done|]. split; [by rewrite Hf, apply_stores_length|].
  assert (NoDup l.*1) as Hnd by (rewrite Hperm; by apply placed_NoDup).
  split.
  { intros p Hp. apply lookup_lt_is_Some in Hp as [v Hp].
    rewrite <- pixel_index_eq by lia. rewrite Forall_forall in Hb.
    apply (Hb (pixel_index (width gif) x y w (Z.of_nat p), v)).
    rewrite Hperm. apply placed_lookup. exists p. by rewrite Z.add_0_l. }
  split.
  - intros p v Hp. rewrite Hf, <- pixel_index_eq by lia.
    apply apply_stores_lookup; [done..|]. rewrite Hperm.
    apply placed_lookup. exists p. by rewrite Z.add_0_l.
  - intros i Hi. rewrite Hf. apply apply_stores_other.
    intros [j v] Hjv. rewrite Hperm in Hjv.
    apply placed_lookup in Hjv as (p & Hp & ->). cbn [fst].
    rewrite Z.add_0_l, pixel_index_eq by lia.
    apply Hi. by eapply lookup_lt_Some.
Qed.

Lemma lzw_iter_Break fuel x y w ini clear stop s gif s' gif' :
  lzw_iter fuel x y w ini clear stop s gif = Ok (Break s' gif') →
  ∃ f, gif' = set_fd gif f.
Proof.
  unfold lzw_iter. intros H. bind_inv H. destruct a as [s1|]; [|done].
  apply bind_Ok in H as ([[k b] f] & Hg & H).
  destruct (k =? clear); [done|].
  destruct (k =? stop); [injection H as _ <-; eauto|].
  apply bind_Ok in H as ([s2 g2] & Hs & H). done.
Qed.

(** X20: a run of [read_image_data] that gets to the stop code.  If
    the loop has made [n] turns, each of which read a code of the
    table and went back to the head of the loop, the turn after them
    reads the stop code, the first code width is at most 12 and the
    frame is no wider than the raster, then (with fuel for these
    turns) [read_image_data] returns 0 and the raster holds the
    decoding over strings of the codes before the stop code: pixel
    [p] of it is in row [y + p / w] and column [x + p mod w], an
    offset inside the raster array, and every other cell of the raster
    is as it was.  A run that would store outside the array makes no
    such turns: nothing is said about it. *)
Theorem read_image_data_decoded gif ini clear stop s0 g0 fuel n x y w ks s g
    s' g' :
  lzw_init gif = Ok (ini, clear, stop, s0, g0) → ini ≤ 12 →
  lzw_codes (code_in_table clear) fuel n x y w ini clear stop s0 g0
    = Some (ks, s, g) →
  lzw_iter fuel x y w ini clear stop s g = Ok (Break s' g') →
  (n < fuel)%nat → 0 < w ≤ width gif →
  ∃ gif' d prev out,
    read_image_data fuel gif x y w = Ok (0, gif') ∧
    lzw_ref (ini - 1) ks = Some (d, prev, out) ∧
    length (frame gif') = length (frame gif) ∧
    (∀ p, (p < length out)%nat →
       0 ≤ (y + Z.of_nat p / w) * width gif + (x + Z.of_nat p mod w)
         < Z.of_nat (length (frame gif))) ∧
    (∀ p v, out !! p = Some v →
       frame gif' !! Z.to_nat ((y + Z.of_nat p / w) * width gif
                               + (x + Z.of_nat p mod w)) = Some v) ∧
    ∀ i,
      (∀ p, (p < length out)%nat →
         Z.to_nat ((y + Z.of_nat p / w) * width gif + (x + Z.of_nat p mod w))
         ≠ i) →
      frame gif' !! i = frame gif !! i.
Proof.
  intros Hinit Hini H Hb Hn Hw.
  destruct (frame_session _ _ _ _ _ _ _ _ _ _ _ _ _ _ Hinit Hini H Hw)
    as (d & prev & out & Href & Hlen & Hin & Hpix & Hrest).
  apply lzw_codes_turns in H. apply lzw_iter_Break in Hb as Hg'.
  destruct Hg' as [f ->].
  destruct (read1_into (fd (set_fd g f)) (sub_len (bits s'))) as [z f'] eqn:Er.
  exists (set_fd (set_fd g f) f'), d, prev, out. split; [|done].
  unfold read_image_data. rewrite Hinit. cbn [mbind res_bind].
  replace (lzw_loop fuel fuel x y w ini clear stop s0 g0)
    with (lzw_loop fuel (n + S (fuel - S n)) x y w ini clear stop s0 g0)
    by (f_equal; lia).
  rewrite (lzw_loop_turns _ _ _ _ _ _ _ _ _ _ _ _ _ _ H).
  cbn [lzw_loop]. rewrite Hb. cbn [mbind res_bind]. by rewrite Er.
Qed.

(** ** What [gd_open_gif] accepts *)

Lemma read_cons_3 b0 b1 b2 l :
  read (mkFile (b0 :: b1 :: b2 :: l) 0) 3
  = ([Z_of_byte b0; Z_of_byte b1; Z_of_byte b2],
     mkFile (b0 :: b1 :: b2 :: l) 3).
Proof. done. Qed.

(** X21: [gd_open_gif] returns a decoder only for a file whose first
    six bytes are ["GIF89a"] and whose packed byte, the eleventh, has
    bit 7 set and bits 6..4 all set; the dimensions of the decoder are
    the two little-endian numbers after the version, an allocation of
    [width * height] raster bytes was granted, and nothing was
    printed. *)
Theorem gd_open_gif_accepts bytes msgs g :
  gd_open_gif (Some bytes) = Ok (msgs, gif_at g) →
  Z_of_byte <$> take 6 bytes = GIF_sig ++ GIF_ver ∧
  ∃ w0 w1 h0 h1 fdsz,
    take 5 (drop 6 bytes) = [w0; w1; h0; h1; fdsz] ∧
    Z.testbit (Z_of_byte fdsz) 7 = true ∧ (Z_of_byte fdsz / 16) mod 8 = 7 ∧
    width g = Z_of_byte w0 + 256 * Z_of_byte w1 ∧
    height g = Z_of_byte h0 + 256 * Z_of_byte h1 ∧
    alloc_ok (width g * height g) = true ∧ msgs = [].
Proof.
  unfold gd_open_gif. intros H.
  destruct bytes as [|b0 [|b1 [|b2 bytes]]]; try done.
  rewrite read_cons_3 in H. cbn [length] in H.
  change (3 <? 3)%nat with false in H. cbv iota in H.
  case_bool_decide as Hs; [|done]. cbn [negb] in H.
  injection Hs as Hb0 Hb1 Hb2.
  unfold read_over, read in H.
  cbn [data pos drop take fmap list_fmap length app Nat.add] in H.
  destruct bytes as [|b3 [|b4 [|b5 bytes]]];
    cbn [data pos drop take fmap list_fmap length app Nat.add] in H;
    (case_bool_decide as Hv; [|done]); injection Hv as Hb3 Hb4 Hb5;
    try (exfalso; unfold GIF_sig, GIF_ver in *; congruence).
  cbn [negb] in H. rewrite take_0 in H. cbn [length] in H.
  destruct bytes as [|w0 [|w1 [|h0 [|h1 [|fdsz bytes]]]]];
    try (unfold read_num at 1, read in H;
         cbn [data pos drop take fmap list_fmap length app Nat.add mbind
                res_bind] in H; done).
  rewrite (read_num_some _ w0 w1) in H by done.
  cbn [mbind res_bind data pos] in H.
  rewrite (read_num_some _ h0 h1) in H by done.
  cbn [mbind res_bind data pos] in H. unfold read1 in H.
  rewrite (read_1_some _ fdsz) in H by done.
  cbn [use mbind res_bind data pos] in H.
  change 128 with (2 ^ 7) in H. rewrite land_pow2 in H by done.
  destruct (Z.testbit (Z_of_byte fdsz) 7) eqn:Hb7; [|done].
  change (2 ^ 7 =? 0) with false in H. cbv iota in H.
  rewrite !land_7, Z.shiftr_div_pow2 in H by done.
  change (2 ^ 4) with 16 in H.
  destruct (Z.eqb_spec ((Z_of_byte fdsz / 16) mod 8) 7) as [Hd|]; [|done].
  cbn [negb] in H. bind_inv H. bind_inv H. apply int_Ok in Ha0 as [-> _].
  destruct (alloc_ok _) eqn:Ha0; [|done].
  destruct (read_colors _ _ _) as [p f]. injection H as <- <-.
  cbn [width height]. split.
  { cbn. unfold GIF_sig, GIF_ver in *. cbn. congruence. }
  exists w0, w1, h0, h1, fdsz. split; [|done]. cbn. by rewrite take_0.
Qed.

End Decoder.

(** * Examples: the theorems at concrete inputs *)

Ltac computed := vm_compute; reflexivity.

(** ** The graphic control extension *)

Lemma read_graphic_control_ext_fields_witness :
  ∃ c,
    read_graphic_control_ext gce_example
    = Ok (set_fd (set_gce gce_example c)
            (mkFile (data (fd gce_example)) (pos (fd gce_example) + 6))) ∧
    disposal c = (Z_of_byte (byte_of_Z 9) / 4) mod 4 ∧
    (input c ≠ 0 ↔ Z.testbit (Z_of_byte (byte_of_Z 9)) 1 = true) ∧
    transparency c = (if Z.testbit (Z_of_byte (byte_of_Z 9)) 0 then 1 else 0) ∧
    delay c = Z_of_byte (byte_of_Z 10) + 256 * Z_of_byte (byte_of_Z 0) ∧
    tindex c = Z_of_byte (byte_of_Z 7).
Proof.
  apply (read_graphic_control_ext_fields gce_example); reflexivity.
Defined.

(** ** A zero length byte

    The third key of the data [0x4C] for the width 3 takes its last
    bit from the next byte; the sub-block is used up, the length byte
    that follows is zero and the byte after it is [0x0A]. *)

Lemma get_key_zero_length_witness :
  get_key_loop 3 (mkFile (bytes_of [0; 10]) 0) 3 (mkBits 0 6 0x4C) 2 1
  = get_key_loop 2 (mkFile (bytes_of [0; 10]) 2) 3
      (mkBits 255 6 (Z_of_byte (byte_of_Z 10))) (2 + MIN (3 - 2) 8)
      (u16 (Z.lor 1 (Z.shiftl (Z_of_byte (byte_of_Z 10)) 2))) ∧
  ((Z.to_nat (3 - 2) ≤ 3)%nat →
   ∃ k b' f',
     get_key_loop 3 (mkFile (bytes_of [0; 10]) 0) 3 (mkBits 0 6 0x4C) 2 1
     = Ok (k, b', f')) ∧
  ∀ f0 b0, 0 ≤ shift b0 → ∃ k b' f', get_key f0 3 b0 = Ok (k, b', f').
Proof.
  apply (get_key_zero_length (mkFile (bytes_of [0; 10]) 0) (mkBits 0 6 0x4C)
           3 (byte_of_Z 0) (byte_of_Z 10) 2 2 1);
    try reflexivity; simpl; lia.
Defined.

(** ** Sessions *)

(** The start of the session on [gif] and its state after [n] turns
    that satisfy [P], handed to [k]. *)
Ltac session_of gif P fuel n x y w k :=
  match eval vm_compute in (lzw_init granted gif) with
  | Ok (?ini, ?clear, ?stop, ?s0, ?g0) =>
      match eval vm_compute in
        (lzw_turns granted (P clear) fuel n x y w ini clear stop s0 g0) with
      | Some (?s, ?g) => k ini clear stop s0 g0 s g
      end
  end.

Lemma pixel_writes_in_rect_witness :
  ∃ ini clear stop s0 g0 s g,
    lzw_init granted abab_gif = Ok (ini, clear, stop, s0, g0) ∧
    lzw_turns granted (code_in_table clear) 10 4 0 0 7 ini clear stop s0 g0
    = Some (s, g) ∧
    ∃ out,
      Z.of_nat (length out) = frm_off s ∧
      stores g ≡ₚ placed (width abab_gif) 0 0 7 0 out ++ stores abab_gif ∧
      Z.of_nat (length (stores g))
      = frm_off s + Z.of_nat (length (stores abab_gif)) ∧
      (0 ≤ 0 → 0 + 7 ≤ width abab_gif → frm_off s ≤ 7 * 1 →
       ∀ i v, (i, v) ∈ placed (width abab_gif) 0 0 7 0 out →
         in_rect (width abab_gif) 0 0 7 1 i).
Proof.
  session_of abab_gif code_in_table 10%nat 4%nat 0 0 7
    ltac:(fun ini clear stop s0 g0 s g => exists ini, clear, stop, s0, g0, s, g).
  split; [computed|]. split; [computed|].
  eapply (pixel_writes_in_rect granted abab_gif _ _ _ _ _ 10 4 0 0 7 1);
    [computed|lia|computed|lia].
Defined.

Lemma key_size_bounded_witness :
  ∃ ini clear stop s0 g0 s g,
    lzw_init granted abab_gif = Ok (ini, clear, stop, s0, g0) ∧
    lzw_turns granted (no_clear_on_grow clear) 10 3 0 0 7 ini clear stop
      s0 g0 = Some (s, g) ∧
    ini ≤ key_size s ≤ 12 ∧
    ∀ s' g' t t',
      lzw_iter granted 10 0 0 7 ini clear stop s g = Ok (Continue s' g') →
      table s = Some t → table s' = Some t' →
      key_size s'
      = (if key s =? clear then ini else key_size s)
        + (if negb (key s' =? clear) && grows t t' then 1 else 0).
Proof.
  session_of abab_gif no_clear_on_grow 10%nat 3%nat 0 0 7
    ltac:(fun ini clear stop s0 g0 s g => exists ini, clear, stop, s0, g0, s, g).
  split; [computed|]. split; [computed|].
  eapply (key_size_bounded granted abab_gif _ _ _ _ _ 10 3 0 0 7);
    [computed|lia|computed].
Defined.

Lemma nentries_bounded_witness :
  ∃ ini clear stop s0 g0 s g t,
    lzw_init granted abab_gif = Ok (ini, clear, stop, s0, g0) ∧
    lzw_turns granted any_turn 10 3 0 0 7 ini clear stop s0 g0
    = Some (s, g) ∧
    table s = Some t ∧
    nentries t ≤ 0x1000 ∧
    ∀ s' g',
      lzw_iter granted 10 0 0 7 ini clear stop s g = Ok (Continue s' g') →
      (key s = clear →
         ∃ t', table s' = Some t' ∧ nentries t' = 2 ^ (ini - 1) + 2) ∧
      (key s ≠ clear → nentries t = 0x1000 →
         table s' = Some t ∧
         (key s' = clear ∨
          ∃ e e1 g1, table_get t (key s') = Ok e ∧
            emit 10 g1 t 0 0 7 (frm_off s) e = Ok (e1, g'))).
Proof.
  session_of abab_gif (λ _ : Z, any_turn) 10%nat 3%nat 0 0 7
    ltac:(fun ini clear stop s0 g0 s g =>
            match eval vm_compute in (table s) with
            | Some ?t => exists ini, clear, stop, s0, g0, s, g, t
            end).
  split; [computed|]. split; [computed|]. split; [computed|].
  eapply (nentries_bounded granted abab_gif _ _ _ _ _ 10 3 0 0 7);
    [computed|lia|computed|computed].
Defined.


Lemma kwkwk_string_witness :
  ∃ ini clear stop s0 g0 s g s' g' t,
    lzw_init granted abab_gif = Ok (ini, clear, stop, s0, g0) ∧
    lzw_turns granted (code_in_table clear) 10 3 0 0 7 ini clear stop s0 g0
    = Some (s, g) ∧
    lzw_iter granted 10 0 0 7 ini clear stop s g = Ok (Continue s' g') ∧
    table s = Some t ∧ key s' = nentries t ∧
    ∃ σ σ' c c' rest t',
      head σ = Some c ∧ head σ' = Some c' ∧
      stores g
      = placed (width abab_gif) 0 0 7 (frm_off s - Z.of_nat (length σ)) σ
        ++ rest ∧
      stores g' = placed (width abab_gif) 0 0 7 (frm_off s) σ' ++ stores g ∧
      table s' = Some t' ∧ key s' ≤ nentries t ∧
      (key s' = nentries t →
         σ' = σ ++ [c] ∧
         entries t' !! nentries t
         = Some (Entry.mk (Z.of_nat (length σ) + 1) (key s) c)) ∧
      (key s' < nentries t →
         entries t' !! nentries t
         = Some (Entry.mk (Z.of_nat (length σ) + 1) (key s)
                   (if nentries t + 1 =? 0x1000 then c else c'))).
Proof.
  session_of abab_gif code_in_table 10%nat 3%nat 0 0 7
    ltac:(fun ini clear stop s0 g0 s g =>
            match eval vm_compute in
              (lzw_iter granted 10 0 0 7 ini clear stop s g, table s) with
            | (Ok (Continue ?s' ?g'), Some ?t) =>
                exists ini, clear, stop, s0, g0, s, g, s', g', t
            end).
  split; [computed|]. split; [computed|]. split; [computed|].
  split; [computed|]. split; [computed|].
  eapply (kwkwk_string granted abab_gif _ _ _ _ _ 10 3 0 0 7);
    [computed|lia|computed|computed|computed|computed|discriminate|computed
    |discriminate].
Defined.

Lemma prefix_walk_terminates_witness :
  ∃ ini clear stop s0 g0 s g s1 t1,
    lzw_init granted abab_gif = Ok (ini, clear, stop, s0, g0) ∧
    lzw_turns granted (code_in_table clear) 10 3 0 0 7 ini clear stop s0 g0
    = Some (s, g) ∧
    lzw_top granted ini clear s = Ok (Some s1) ∧ table s1 = Some t1 ∧
    ∃ e k,
      table_get t1 8 = Ok e ∧ 1 ≤ Entry.length e ∧
      steps_to_literal (entries t1) (Z.to_nat (Entry.length e)) 8 = Some k ∧
      Z.of_nat k < Entry.length e ∧
      ∀ fuel' g1 off,
        (Z.to_nat (Entry.length e) ≤ fuel')%nat →
        emit fuel' g1 t1 0 0 7 off e ≠ OutOfFuel ∧
        (∀ e1 g1', emit fuel' g1 t1 0 0 7 off e = Ok (e1, g1') →
           Z.of_nat (length (stores g1'))
           = Z.of_nat (length (stores g1)) + Entry.length e ∧
           Entry.prefix e1 = 0xFFF) ∧
        (0 < 7 → 0 ≤ off → off + Entry.length e ≤ INT_MAX →
         Z.of_nat (length (frame g1)) ≤ INT_MAX →
         (∀ p, off ≤ p < off + Entry.length e →
            0 ≤ pixel_index (width g1) 0 0 7 p
              < Z.of_nat (length (frame g1))) →
         ∃ e1 g1', emit fuel' g1 t1 0 0 7 off e = Ok (e1, g1')).
Proof.
  session_of abab_gif code_in_table 10%nat 3%nat 0 0 7
    ltac:(fun ini clear stop s0 g0 s g =>
            match eval vm_compute in (lzw_top granted ini clear s) with
            | Ok (Some ?s1) =>
                match eval vm_compute in (table s1) with
                | Some ?t1 => exists ini, clear, stop, s0, g0, s, g, s1, t1
                end
            end).
  split; [computed|]. split; [computed|]. split; [computed|].
  split; [computed|].
  eapply (prefix_walk_terminates granted abab_gif _ _ _ _ _ 10 3 0 0 7);
    [computed|lia|computed|computed|computed|vm_compute; split; discriminate + reflexivity
    |discriminate|discriminate].
Defined.

(** ** The trailer *)

Lemma trailer_keeps_raster_witness :
  ∃ g', gd_get_frame granted 10 ext_gif = Ok (0, g') ∧ same_raster ext_gif g'.
Proof.
  match eval vm_compute in (gd_get_frame granted 10 ext_gif) with
  | Ok (_, ?g') => exists g'
  end.
  split; [computed|].
  apply (trailer_keeps_raster granted 10). left. computed.
Defined.


(** * Examples: inputs on which the code departs from a claim *)

Ltac the_session P fuel n W H x y w bytes :=
  match eval vm_compute in (session granted P fuel n W H x y w bytes) with
  | Some (?ini, ?clear, ?stop, ?s, ?g) => exists ini, clear, stop, s, g
  end.

(** Against C3: with the packed byte [0x10] bits 4..2 are 4, and the
    disposal stored is 0. *)
Lemma disposal_ignores_bit_4 :
  ∃ g', read_graphic_control_ext (decoder_on 1 1 [4; 0x10; 0; 0; 0; 0])
        = Ok g' ∧
    disposal (gce g') = 0 ∧ Z.land (Z.shiftr 0x10 2) 7 = 4.
Proof. eexists. split; [reflexivity|]. split; reflexivity. Qed.

(** Against C1: for a 1 by 1 frame rect on a 2 by 2 screen
    whose data spell two pixels, [gd_get_frame] reports a frame, and
    it has stored twice, once at offset 2, outside the rect. *)
Lemma pixel_write_outside_rect :
  outcome (first_frame granted 10 two_pixels_file)
  = Ok (1, [1; 0; 1; 0], [(2, 1); (0, 1)]) ∧
  ¬ in_rect 2 0 0 1 1 2 ∧
  Z.of_nat (length [(2, 1); (0, 1)]) ≠ 1 * 1.
Proof.
  split; [computed|]. split; [|discriminate].
  intros (row & col & Hr & Hc & Hcw & Hi). lia.
Qed.

(** The rect is not compared with the screen either: for the rect
    [(1, 0, 2, 1)] on a 2 by 2 screen the second of two pixels is
    stored at offset 2, the cell in row 1 and column 0, outside the
    rect, although [frm_off] ends at [w * h]. *)
Lemma pixel_write_past_edge :
  outcome (first_frame granted 10 past_edge_file)
  = Ok (1, [0; 1; 1; 0], [(2, 1); (1, 1)]) ∧
  ¬ in_rect 2 1 0 2 1 2 ∧
  Z.of_nat (length [(2, 1); (1, 1)]) = 2 * 1.
Proof.
  split; [computed|]. split; [|done].
  intros (row & col & Hr & Hc & Hcw & Hi). lia.
Qed.

(** Against C2: with the literal width 12 the session
    starts with 13-bit codes, and the frame is decoded. *)
Lemma key_size_13_at_start :
  view (λ ini _ _ s _, (ini, key_size s))
    (session granted code_in_table 10 0 1 1 0 0 1 (image_data 12 wide_codes))
  = Some (13, 13) ∧
  outcome (first_frame granted 10 wide_file) = Ok (1, [0], []).
Proof. split; computed. Qed.

(** The width also passes 12 bits with the literal width 2, in a
    session of codes of the table, when a clear code is read right
    after the addition that made the size of the table 8: the sign
    to widen the codes, still in [ret], is used again after the
    reset, and the width is one bit ahead from then on.  After three
    turns the clear code has been read with [ret] at 1; the fourth
    turn leaves a table of 6 entries and a width of 4 bits; after
    2046 turns the width is 13 bits. *)
Lemma key_size_13_after_clear_on_grow :
  stale_grow granted 3 = Some (3, true, 1, Some 8, 3) ∧
  stale_grow granted 4 = Some (3, false, 1, Some 6, 4) ∧
  stale_grow granted 2046 = Some (3, false, 1, Some 2048, 13).
Proof. split; [computed|split; computed]. Qed.

(** Against C4: the sub-block of this file ends after one
    byte, the length byte that follows is zero, and [gd_get_frame]
    decodes on and reports the frame. *)
Lemma zero_length_decodes_on :
  outcome (first_frame granted 10 zero_length_file)
  = Ok (1, [1; 1], [(1, 1); (0, 1)]).
Proof. computed. Qed.

(** Against C5: with the literal width 12 the code 4095, a
    literal, is also the sentinel.  After the first turn, which
    stored the string [[255]] of code 4095 at offset 0, the table has
    4098 entries; the next turn reads the code 4098, that value of
    [nentries] and a code of the table as it is looked up; the entry
    added for it has the prefix [0xFFF], and the turn stores one
    pixel, at offset 2, and not the string [[255; 255]] at the
    offsets 1 and 2. *)
Lemma kwkwk_sentinel_clash :
  view (λ ini clear stop s g,
          match lzw_iter granted 10 0 0 3 ini clear stop s g with
          | Ok (Continue s' g') =>
              Some (key s, nentries <$> table s, stores g,
                    key s', code_in_table clear s', stores g')
          | _ => None
          end)
    (session granted code_in_table 10 1 3 1 0 0 3
       (image_data 12 sentinel_codes))
  = Some (Some (4095, Some 4098, placed 3 0 0 3 0 [255],
                4098, true, [(2, 255)] ++ placed 3 0 0 3 0 [255])) ∧
  [(2, 255)] ++ placed 3 0 0 3 0 [255]
  ≠ placed 3 0 0 3 1 ([255] ++ [255]) ++ placed 3 0 0 3 0 [255].
Proof. split; [computed|]. vm_compute. discriminate. Qed.

(** Against C6: with the literal width 12 the table starts
    with 4098 entries, and the frame is decoded. *)
Lemma nentries_4098_at_start :
  view (λ _ _ _ s _, nentries <$> table s)
    (session granted code_in_table 10 0 1 1 0 0 1 (image_data 12 wide_codes))
  = Some (Some 4098) ∧
  0x1000 < 4098 ∧
  outcome (first_frame granted 10 wide_file) = Ok (1, [0], []).
Proof. split; [computed|]. split; [lia|computed]. Qed.

(** Against C8: after a clear code the code 7, which is
    not below [nentries], finds the entry 7 of before the reset; the
    next turn adds the entry 7 with the prefix 7.  The code 7 is then
    below [nentries], the walk from it never reaches a literal and
    the emission loop never returns: the decoder runs on.  And with
    the literal width 12 the code 4098, below [nentries] as it is
    looked up, has the length 2 and the prefix [0xFFF]: the turn
    advances [frm_off] by 2 and stores one pixel. *)
Lemma prefix_walk_runs_on :
  (∃ ini clear stop s g s1 t1 e,
     session granted (λ _, any_turn) 50 6 4 4 0 0 4 (image_data 2 loop_codes)
     = Some (ini, clear, stop, s, g) ∧
     lzw_top granted ini clear s = Ok (Some s1) ∧ table s1 = Some t1 ∧
     7 < nentries t1 ∧ table_get t1 7 = Ok e ∧
     (∀ n, steps_to_literal (entries t1) n 7 = None) ∧
     (∀ fuel g1 r, emit fuel g1 t1 0 0 4 (frm_off s1) e ≠ Ok r) ∧
     first_frame granted 1000 loop_file = OutOfFuel) ∧
  view (λ ini clear stop s g,
          match lzw_iter granted 10 0 0 3 ini clear stop s g with
          | Ok (Continue s' g') =>
              Some (key s', nentries <$> table s', str_len s',
                    frm_off s' - frm_off s,
                    (length (stores g') - length (stores g))%nat)
          | _ => None
          end)
    (session granted code_in_table 10 1 3 1 0 0 3
       (image_data 12 sentinel_codes))
  = Some (Some (4098, Some 4099, Some 2, 2, 1%nat)).
Proof.
  split; [|computed].
  the_session (λ _ : Z, any_turn) 50%nat 6%nat 4 4 0 0 4
    (image_data 2 loop_codes).
  match goal with
  | |- ∃ s1 t1 e, session _ _ _ _ _ _ _ _ _ _
                  = Some (?ini, ?clear, _, ?s, _) ∧ _ =>
      match eval vm_compute in (lzw_top granted ini clear s) with
      | Ok (Some ?s1) =>
          match eval vm_compute in (table s1) with
          | Some ?t1 =>
              match eval vm_compute in (table_get t1 7) with
              | Ok ?e => exists s1, t1, e
              end
          end
      end
  end.
  do 5 (split; [computed|]). split; [|split; [|computed]].
  - intros n. eapply steps_self_loop; [computed|computed|discriminate].
  - apply emit_self_loop; [discriminate|computed].
Qed.

(** C9: [gd_open_gif] on a file of the older version reports the
    error and returns the pointer [gif] as it was declared,
    uninitialised; the same for a wrong signature, a missing global
    palette and a colour depth other than 8 bits.  Null is returned
    only on the two paths that assign it: when the file cannot be
    opened and when the allocation of the decoder fails. *)
Theorem gd_open_gif_returns_uninitialised_pointer :
  gd_open_gif granted (Some (bytes_of old_version_file))
  = Ok (["invalid version"%string], gif_indeterminate) ∧
  gd_open_gif granted (Some (bytes_of [71; 73; 71; 56; 57; 97]))
  = Ok (["invalid signature"%string], gif_indeterminate) ∧
  gd_open_gif granted (Some (bytes_of [71; 73; 70; 56; 57; 97; 1; 0; 1; 0; 0x70]))
  = Ok (["no global color table"%string], gif_indeterminate) ∧
  gd_open_gif granted (Some (bytes_of [71; 73; 70; 56; 57; 97; 1; 0; 1; 0; 0x80]))
  = Ok (["depth of color space is not 8 bits"%string], gif_indeterminate) ∧
  gd_open_gif granted None = Ok ([], gif_null) ∧
  gd_open_gif refused (Some (bytes_of (gif_header 1 1))) = Ok ([], gif_null).
Proof. repeat split; computed. Qed.

(** * Examples: the further properties at concrete inputs *)

Ltac result_of c :=
  match eval vm_compute in c with
  | Ok (?r, ?g) => exists r, g
  | Ok ?g => exists g
  end.

(** ** Numbers and sub-blocks *)

Lemma read_num_little_endian_witness :
  read_num (mkFile (bytes_of [0x34; 0x12]) 0)
  = Ok (0x1234, mkFile (bytes_of [0x34; 0x12]) 2).
Proof.
  apply (read_num_little_endian (mkFile (bytes_of [0x34; 0x12]) 0) 0x1234);
    [lia | reflexivity | reflexivity].
Defined.

Lemma discard_sub_blocks_chain_witness :
  block_sizes [bytes_of [1; 2]; bytes_of [3]] ∧
  discard_sub_blocks 3 (chain_gif)
  = Ok (set_fd (chain_gif)
          (mkFile (data (fd chain_gif)) 6)).
Proof.
  assert (block_sizes [bytes_of [1; 2]; bytes_of [3]]) as Hbs
    by (repeat constructor; simpl; lia).
  split; [done|].
  apply (discard_sub_blocks_chain 3 (chain_gif)
           [bytes_of [1; 2]; bytes_of [3]] (bytes_of [59]) Hbs);
    [reflexivity | simpl; lia].
Defined.

Lemma discard_sub_blocks_truncated_witness :
  discard_sub_blocks 1000 (truncated_gif) = OutOfFuel.
Proof.
  apply (discard_sub_blocks_truncated (truncated_gif) (byte_of_Z 5));
    [reflexivity | vm_compute; discriminate | vm_compute; lia].
Defined.

(** ** Extensions *)

Lemma read_application_ext_netscape_witness :
  read_application_ext 1
    netscape_gif
  = Ok (set_fd
          (set_loop_count
             netscape_gif
             (Z_of_byte (byte_of_Z 5) + 256 * Z_of_byte (byte_of_Z 0)))
          (mkFile (data (fd netscape_gif)) 17)).
Proof.
  apply (read_application_ext_netscape 1 netscape_gif (byte_of_Z 11)
           (bytes_of [50; 46; 48]) (bytes_of [3; 1]) (byte_of_Z 5)
           (byte_of_Z 0) (bytes_of [0; 59])); reflexivity.
Defined.

Lemma read_ext_skips_witness :
  block_sizes [bytes_of [104; 105]] ∧
  read_ext 2 (comment_gif)
  = Ok (set_fd (comment_gif)
          (mkFile (data (fd comment_gif)) 5)).
Proof.
  assert (block_sizes [bytes_of [104; 105]]) as Hbs
    by (repeat constructor; simpl; lia).
  split; [done|].
  apply (read_ext_skips 2 (comment_gif) 0xFE []
           [bytes_of [104; 105]] (bytes_of [59]));
    [right; left; split; reflexivity | exact Hbs | simpl; lia | reflexivity].
Defined.

Lemma gd_get_frame_unknown_extension_witness :
  read_ext 2
    (set_fd (unknown_ext_gif) (mkFile (data (fd unknown_ext_gif)) 1))
  = Ok (set_fd (unknown_ext_gif)
          (mkFile (data (fd unknown_ext_gif)) 2)) ∧
  gd_get_frame granted 2 (unknown_ext_gif)
  = Ok (-1, set_fd (unknown_ext_gif)
              (mkFile (data (fd unknown_ext_gif)) 3)).
Proof.
  apply (gd_get_frame_unknown_extension granted 2
           (unknown_ext_gif) (byte_of_Z 2) (byte_of_Z 0)
           (bytes_of [59]));
    try (vm_compute; discriminate); [reflexivity | lia].
Defined.

(** ** The code table *)

Lemma add_entry_lookup_witness :
  ∃ r t',
    add_entry granted (mkTable 8 7 (literals 4)) 2 0 1 = Ok (r, t') ∧
    ((r = -1 ∧ 7 = 8 ∧ granted (8 * 2) = false ∧
      entries t' = literals 4 ∧ nentries t' = 7) ∨
     ((r = 0 ∨ r = 1) ∧
      0 ≤ 7 ∧ nentries t' = 7 + 1 ∧ nentries t' ≤ bulk t' ∧
      bulk t' = 8 ∧
      entries t' !! 7 = Some (Entry.mk (2 mod 65536) (0 mod 65536) (1 mod 256)) ∧
      (∀ i, i ≠ 7 → entries t' !! i = literals 4 !! i) ∧
      (r = 1 ↔ ∃ j, 0 ≤ j ∧ nentries t' = 2 ^ j))).
Proof.
  result_of (add_entry granted (mkTable 8 7 (literals 4)) 2 0 1).
  split; [reflexivity|].
  apply (add_entry_lookup granted (mkTable 8 7 (literals 4)) 2 0 1).
  reflexivity.
Defined.

Lemma new_table_literals_witness :
  ∃ t,
    new_table granted 2 = Ok (Some t) ∧
    0 ≤ 2 ≤ 29 ∧ granted (bulk t) = true ∧
    bulk t = Z.max (2 ^ (2 + 1)) 256 ∧
    nentries t = 2 ^ 2 + 2 ∧ nentries t ≤ bulk t ∧
    ∀ i, entries t !! i
         = if bool_decide (0 ≤ i < 2 ^ 2)
           then Some (Entry.mk 1 0xFFF (i mod 256)) else None.
Proof.
  match eval vm_compute in (new_table granted 2) with
  | Ok (Some ?t) => exists t
  end.
  split; [reflexivity|]. apply (new_table_literals granted 2). reflexivity.
Defined.

(** ** [read_image_data] at its edges *)

Lemma read_image_data_first_code_witness :
  ∃ ini clear stop s0 g0,
    lzw_init granted no_clear_gif
    = Ok (ini, clear, stop, s0, g0) ∧
    key s0 ≠ clear ∧
    read_image_data granted 1
      no_clear_gif 0 0 1
    = Stuck UninitRead.
Proof.
  match eval vm_compute in
    (lzw_init granted no_clear_gif) with
  | Ok (?ini, ?clear, ?stop, ?s0, ?g0) => exists ini, clear, stop, s0, g0
  end.
  split; [reflexivity|]. split; [discriminate|].
  eapply (read_image_data_first_code granted
            no_clear_gif);
    [reflexivity | discriminate].
Defined.

Lemma read_image_data_null_table_witness :
  read_image_data refused 1 abab_gif 0 0 7 = Stuck NullDeref ∨
  read_image_data refused 1 abab_gif 0 0 7 = Stuck UninitRead.
Proof.
  apply (read_image_data_null_table refused abab_gif (byte_of_Z 2));
    [reflexivity | vm_compute; discriminate | reflexivity].
Defined.

(** ** What decoding leaves as it was *)

Lemma read_image_data_keeps_witness :
  ∃ r g',
    read_image_data granted 10 abab_gif 0 0 7 = Ok (r, g') ∧
    (r = 0 ∨ r = -1) ∧ image_kept abab_gif g'.
Proof.
  result_of (read_image_data granted 10 abab_gif 0 0 7).
  split; [reflexivity|].
  apply (read_image_data_keeps granted 10 abab_gif 0 0 7). reflexivity.
Defined.

Lemma read_image_palette_witness :
  ∃ r g',
    read_image granted 10 local_palette_gif = Ok (r, g') ∧
    gct g' = gct local_palette_gif ∧
    if Z.testbit (Z_of_byte (byte_of_Z 0x80)) 7
    then
      let size := 2 ^ (Z_of_byte (byte_of_Z 0x80) mod 8 + 1) in
      let read :=
        Z_of_byte <$> take (Z.to_nat (3 * size))
                        (bytes_of ([1; 2; 3; 4; 5; 6]
                                   ++ image_data 2 abab_codes)) in
      palette g' = palette_lct ∧
      gd_Palette.size (lct g') = size ∧
      gd_Palette.colors (lct g')
      = read ++ drop (length read) (gd_Palette.colors (lct local_palette_gif))
    else palette g' = palette_gct ∧ lct g' = lct local_palette_gif.
Proof.
  result_of (read_image granted 10 local_palette_gif).
  split; [vm_compute; reflexivity|].
  apply (read_image_palette granted 10 local_palette_gif
           (bytes_of [0; 0; 0; 0; 7; 0; 1; 0]) (byte_of_Z 0x80)
           (bytes_of ([1; 2; 3; 4; 5; 6] ++ image_data 2 abab_codes)) 0);
    vm_compute; reflexivity.
Defined.

Lemma gd_get_frame_keeps_witness :
  ∃ r g',
    gd_get_frame granted 10 ext_gif = Ok (r, g') ∧
    (r = -1 ∨ r = 0 ∨ r = 1) ∧
    width g' = width ext_gif ∧ height g' = height ext_gif ∧
    gct g' = gct ext_gif ∧ length (frame g') = length (frame ext_gif) ∧
    data (fd g') = data (fd ext_gif) ∧
    (pos (fd ext_gif) < pos (fd g'))%nat.
Proof.
  result_of (gd_get_frame granted 10 ext_gif).
  split; [reflexivity|].
  apply (gd_get_frame_keeps granted 10 ext_gif). reflexivity.
Defined.

(** ** Opening a file *)

Lemma gd_open_gif_decoder_witness :
  ∃ g,
    gd_open_gif granted (Some (bytes_of (gif_header 2 2))) = Ok ([], gif_at g) ∧
    width g = 2 ∧ height g = 2 ∧ frame g = [0; 0; 0; 0] ∧
    gd_Palette.size (gct g) = 2 ∧
    gd_Palette.colors (gct g) = [0; 0; 0; 255; 255; 255] ++ replicate 762 0 ∧
    pos (fd g) = 19%nat.
Proof.
  eexists. split.
  - apply (gd_open_gif_decoder granted (byte_of_Z 2) (byte_of_Z 0)
             (byte_of_Z 2) (byte_of_Z 0) (byte_of_Z 0xF0) (byte_of_Z 0)
             (byte_of_Z 0) (bytes_of [0; 0; 0; 255; 255; 255]));
      [reflexivity | reflexivity | vm_compute; discriminate | reflexivity].
  - repeat split; reflexivity.
Defined.

Lemma gd_open_gif_accepts_witness :
  ∃ msgs g,
    gd_open_gif granted (Some (bytes_of (gif_header 2 2)))
    = Ok (msgs, gif_at g) ∧
    Z_of_byte <$> take 6 (bytes_of (gif_header 2 2)) = GIF_sig ++ GIF_ver ∧
    ∃ w0 w1 h0 h1 fdsz,
      take 5 (drop 6 (bytes_of (gif_header 2 2))) = [w0; w1; h0; h1; fdsz] ∧
      Z.testbit (Z_of_byte fdsz) 7 = true ∧
      (Z_of_byte fdsz / 16) mod 8 = 7 ∧
      width g = Z_of_byte w0 + 256 * Z_of_byte w1 ∧
      height g = Z_of_byte h0 + 256 * Z_of_byte h1 ∧
      granted (width g * height g) = true ∧ msgs = [].
Proof.
  match eval vm_compute in
    (gd_open_gif granted (Some (bytes_of (gif_header 2 2)))) with
  | Ok (?m, gif_at ?g) => exists m, g
  end.
  split; [vm_compute; reflexivity|].
  apply (gd_open_gif_accepts granted (bytes_of (gif_header 2 2))).
  vm_compute; reflexivity.
Defined.

(** ** The bit stream *)

Lemma get_key_bit_stream_witness :
  ∃ b' f',
    get_key abab_bits 3 (mkBits 0 0 2)
    = Ok (4, b', f') ∧
    bit_stream b' f'
    = bit_stream (mkBits 0 0 2)
        abab_bits / 2 ^ 3 ∧
    bits_left b' f' = 24 - 3 ∧ shift b' = 3.
Proof.
  destruct (get_key_bit_stream
              abab_bits (mkBits 0 0 2) 3)
    as (b' & f' & Hg & Hst & Hlf & _ & Hsh & _);
    [lia | unfold bits_wf; simpl; lia | vm_compute; discriminate|].
  exists b', f'. split; [exact Hg|]. split; [exact Hst|].
  split; [exact Hlf | exact Hsh].
Defined.

Lemma get_keys_pack_witness :
  ∃ b' f',
    get_keys abab_bits (mkBits 0 0 2)
      abab_codes.*2
    = Ok ([4; 0; 1; 6; 8; 5], b', f').
Proof.
  apply (get_keys_pack abab_bits
           (mkBits 0 0 2) abab_codes (bytes_of [0]));
    [repeat constructor; simpl; lia | reflexivity | reflexivity | simpl; lia
    | simpl; lia | reflexivity].
Defined.

(** ** What -1 means *)

Lemma read_image_data_granted_witness :
  ∃ r g', read_image_data granted 10 abab_gif 0 0 7 = Ok (r, g') ∧ r = 0.
Proof.
  result_of (read_image_data granted 10 abab_gif 0 0 7).
  split; [reflexivity|].
  eapply (read_image_data_granted granted 10 abab_gif 0 0 7);
    [reflexivity | vm_compute; reflexivity].
Defined.

Lemma gd_get_frame_bad_separator_witness :
  ∃ g',
    gd_get_frame granted 10 (decoder_on 1 1 [0; 59]) = Ok (-1, g') ∧
    ∃ c, data (fd g') !! (pos (fd g') - 1)%nat = Some c ∧
         Z_of_byte c ≠ sep_image ∧ Z_of_byte c ≠ sep_trailer ∧
         Z_of_byte c ≠ sep_ext ∧ (0 < pos (fd g'))%nat.
Proof.
  match eval vm_compute in (gd_get_frame granted 10 (decoder_on 1 1 [0; 59]))
  with Ok (_, ?g') => exists g' end.
  split; [reflexivity|].
  apply (gd_get_frame_bad_separator granted 10 (decoder_on 1 1 [0; 59]));
    [reflexivity | vm_compute; reflexivity].
Defined.

(** ** The strings decoded *)

(** The start of the session on [gif] and the keys and the state
    after [n] turns that satisfy [P], handed to [k]. *)
Ltac codes_of gif P fuel n x y w k :=
  match eval vm_compute in (lzw_init granted gif) with
  | Ok (?ini, ?clear, ?stop, ?s0, ?g0) =>
      match eval vm_compute in
        (lzw_codes granted (P clear) fuel n x y w ini clear stop s0 g0) with
      | Some (?ks, ?s, ?g) => k ini clear stop s0 g0 ks s g
      end
  end.

(** The decoding over strings of the data codes of [abab_codes]; the
    last one is the code being added. *)
Example lzw_ref_abab :
  lzw_ref 2 [0; 1; 6; 8]
  = Some ([[0; 1]; [1; 0]; [0; 1; 0]], Some [0; 1; 0], [0; 1; 0; 1; 0; 1; 0]).
Proof. reflexivity. Qed.

Lemma lzw_codes_decoded_witness :
  ∃ ini clear stop s0 g0 ks s g,
    lzw_init granted abab_gif = Ok (ini, clear, stop, s0, g0) ∧
    lzw_codes granted (code_in_table clear) 10 4 0 0 7 ini clear stop s0 g0
    = Some (ks, s, g) ∧
    ∃ d prev out,
      lzw_ref (ini - 1) ks = Some (d, prev, out) ∧
      frm_off s = Z.of_nat (length out) ∧
      stores g ≡ₚ placed (width abab_gif) 0 0 7 0 out ++ stores abab_gif.
Proof.
  codes_of abab_gif code_in_table 10%nat 4%nat 0 0 7
    ltac:(fun ini clear stop s0 g0 ks s g =>
            exists ini, clear, stop, s0, g0, ks, s, g).
  split; [computed|]. split; [computed|].
  eapply (lzw_codes_decoded granted abab_gif _ _ _ _ _ 10 4 0 0 7);
    [computed|lia|computed].
Defined.

Lemma read_image_data_decoded_witness :
  ∃ ini clear stop s0 g0 ks s g s' g',
    lzw_init granted abab_gif = Ok (ini, clear, stop, s0, g0) ∧
    lzw_codes granted (code_in_table clear) 10 4 0 0 7 ini clear stop s0 g0
    = Some (ks, s, g) ∧
    lzw_iter granted 10 0 0 7 ini clear stop s g = Ok (Break s' g') ∧
    ∃ gif' d prev out,
      read_image_data granted 10 abab_gif 0 0 7 = Ok (0, gif') ∧
      lzw_ref (ini - 1) ks = Some (d, prev, out) ∧
      length (frame gif') = length (frame abab_gif) ∧
      (∀ p, (p < length out)%nat →
         0 ≤ (0 + Z.of_nat p / 7) * width abab_gif + (0 + Z.of_nat p mod 7)
           < Z.of_nat (length (frame abab_gif))) ∧
      (∀ p v, out !! p = Some v →
         frame gif' !! Z.to_nat ((0 + Z.of_nat p / 7) * width abab_gif
                                 + (0 + Z.of_nat p mod 7)) = Some v) ∧
      ∀ i,
        (∀ p, (p < length out)%nat →
           Z.to_nat ((0 + Z.of_nat p / 7) * width abab_gif
                     + (0 + Z.of_nat p mod 7)) ≠ i) →
        frame gif' !! i = frame abab_gif !! i.
Proof.
  codes_of abab_gif code_in_table 10%nat 4%nat 0 0 7
    ltac:(fun ini clear stop s0 g0 ks s g =>
            match eval vm_compute in
              (lzw_iter granted 10 0 0 7 ini clear stop s g) with
            | Ok (Break ?s' ?g') =>
                exists ini, clear, stop, s0, g0, ks, s, g, s', g'
            end).
  split; [computed|]. split; [computed|]. split; [computed|].
  eapply (read_image_data_decoded granted abab_gif _ _ _ _ _ 10 4 0 0 7);
    [computed|lia|computed|computed|lia|change (0 < 7 ≤ 7); lia].
Defined.
